(** * colander: schema-driven conversion and its failure trees

    A shallow embedding of [colander/__init__.py]: the schema node, the
    composite types [Mapping], [Tuple] and [Sequence], the scalar types
    [Integer] and [Boolean], and the [Invalid] failure tree with its report
    ([paths], [_keyname], [asdict]).

    Exceptions are made explicit: a call either returns, raises [Invalid]
    (the one exception the composites catch), or raises something else that
    no handler of the module catches.  The Python values the module handles
    are a small universe (section "Python values"), with the builtins the
    module calls on them ([str], [repr], [int], [dict], [len], [list],
    truth testing) written out for Python 2, the language of the source.

    The types [String], [Float] and [GlobalObject] (codecs, floating point,
    imports) enter as leaf types given by their two conversions; validators
    enter as functions from the value to the message they reject it with.
    The declarative [Schema] classes only build [SchemaNode] trees and are
    not embedded. *)

From Stdlib Require Import ZArith Ascii String List.
From stdpp Require Import gmap strings list fin_maps pretty sorting.

Set Warnings "-register-all".

(* ===================================================================== *)
(** * Python values *)
(* ===================================================================== *)

(** [VStr] is Python 2's byte string [str], [VUnicode] its [unicode] (a
    list of code points).  Dictionaries are keyed by [str]: the names of
    schema nodes are strings, and a name is the only key the module ever
    looks up.  [VInt] is an integer of either Python type; the [L] that
    [repr] appends to a [long] is not rendered. *)
Inductive object : Type :=
| VNone
| VBool (b : bool)
| VInt (z : Z)
| VStr (s : string)
| VUnicode (u : list N)
| VList (l : list object)
| VTuple (l : list object)
| VDict (d : gmap string object).

Module Py.

(** ** Text helpers *)

(** [sep.join(parts)] *)
Fixpoint join (sep : string) (parts : list string) : string :=
  match parts with
  | [] => ""
  | [p] => p
  | p :: rest => p +:+ sep +:+ join sep rest
  end.

(** [s.lower()] on a byte string: only [A]-[Z] change. *)
Definition lower_char (c : ascii) : ascii :=
  let n := N_of_ascii c in
  if ((65 <=? n) && (n <=? 90))%N then ascii_of_N (n + 32) else c.

Fixpoint lower (s : string) : string :=
  match s with
  | EmptyString => EmptyString
  | String c s' => String (lower_char c) (lower s')
  end.

Definition hexdigit (n : N) : ascii :=
  nth (N.to_nat n)
      ["0"; "1"; "2"; "3"; "4"; "5"; "6"; "7"; "8"; "9";
       "a"; "b"; "c"; "d"; "e"; "f"]%char "0"%char.

(** The [width] low hexadecimal digits of [n], most significant first. *)
Fixpoint hex (width : nat) (n : N) (acc : string) : string :=
  match width with
  | O => acc
  | S w => hex w (n / 16)%N (String (hexdigit (n mod 16)%N) acc)
  end.

Definition squote : ascii := "'"%char.
Definition dquote : ascii := "034"%char.
Definition backslash : ascii := "\"%char.

Fixpoint chars (s : string) : list ascii :=
  match s with
  | EmptyString => []
  | String c s' => c :: chars s'
  end.

Fixpoint concat_strings (l : list string) : string :=
  match l with
  | [] => ""
  | s :: l' => s +:+ concat_strings l'
  end.

(** ** [repr] *)

(** The quote Python picks: double quotes only when the text holds a
    single quote and no double quote. *)
Definition pick_quote (has_single has_double : bool) : ascii :=
  if has_single && negb has_double then dquote else squote.

Definition escape_code (quote : ascii) (n : N) : string :=
  if (n =? N_of_ascii quote)%N || (n =? 92)%N
  then String backslash (String (ascii_of_N n) "")
  else if (65536 <=? n)%N then "\U" +:+ hex 8 n ""
  else if (256 <=? n)%N then "\u" +:+ hex 4 n ""
  else if (n =? 9)%N then "\t"
  else if (n =? 10)%N then "\n"
  else if (n =? 13)%N then "\r"
  else if (n <? 32)%N || (127 <=? n)%N then "\x" +:+ hex 2 n ""
  else String (ascii_of_N n) "".

Definition repr_codes (codes : list N) : string :=
  let quote := pick_quote (existsb (N.eqb 39) codes) (existsb (N.eqb 34) codes) in
  String quote (concat_strings (map (escape_code quote) codes))
    +:+ String quote "".

Definition repr_str (s : string) : string :=
  repr_codes (map N_of_ascii (chars s)).

Definition repr_unicode (u : list N) : string := "u" +:+ repr_codes u.

(** Dictionaries are rendered in the order [gmap] enumerates them; Python 2
    leaves the order of a dictionary unspecified. *)
Fixpoint repr (v : object) : string :=
  match v with
  | VNone => "None"
  | VBool true => "True"
  | VBool false => "False"
  | VInt z => pretty z
  | VStr s => repr_str s
  | VUnicode u => repr_unicode u
  | VList l => "[" +:+ join ", " (map repr l) +:+ "]"
  | VTuple [x] => "(" +:+ repr x +:+ ",)"
  | VTuple l => "(" +:+ join ", " (map repr l) +:+ ")"
  | VDict d =>
      "{" +:+ join ", "
                (map_fold (fun k x acc => (repr_str k +:+ ": " +:+ repr x) :: acc)
                          [] d)
          +:+ "}"
  end.

(** ** [str] *)

(** [str(u)] of a [unicode] encodes it as ASCII and raises
    [UnicodeEncodeError] on any code point above 127. *)
Fixpoint encode_ascii (u : list N) : option string :=
  match u with
  | [] => Some ""
  | n :: u' =>
      if (n <? 128)%N
      then match encode_ascii u' with
           | Some s => Some (String (ascii_of_N n) s)
           | None => None
           end
      else None
  end.

(** [str(value)]; [None] when it raises. *)
Definition str (v : object) : option string :=
  match v with
  | VNone => Some "None"
  | VBool true => Some "True"
  | VBool false => Some "False"
  | VInt z => Some (pretty z)
  | VStr s => Some s
  | VUnicode u => encode_ascii u
  | VList _ | VTuple _ | VDict _ => Some (repr v)
  end.

(** ** Truth, length, iteration *)

(** [bool(value)] *)
Definition truth (v : object) : bool :=
  match v with
  | VNone => false
  | VBool b => b
  | VInt z => negb (z =? 0)%Z
  | VStr s => negb (String.eqb s "")
  | VUnicode u => match u with [] => false | _ => true end
  | VList l | VTuple l => match l with [] => false | _ => true end
  | VDict d => negb (bool_decide (d = ∅))
  end.

(** [hasattr(value, '__iter__')]: in Python 2 neither [str] nor [unicode]
    has the attribute. *)
Definition has___iter__ (v : object) : bool :=
  match v with
  | VList _ | VTuple _ | VDict _ => true
  | _ => false
  end.

(** [hasattr(value, 'get')] *)
Definition has_get (v : object) : bool :=
  match v with
  | VDict _ => true
  | _ => false
  end.

(** [len(value)]; [None] for [TypeError]. *)
Definition len (v : object) : option nat :=
  match v with
  | VStr s => Some (String.length s)
  | VUnicode u => Some (length u)
  | VList l | VTuple l => Some (length l)
  | VDict d => Some (size d)
  | VNone | VBool _ | VInt _ => None
  end.

(** [list(value)]; [None] for [TypeError].  A dictionary yields its keys. *)
Definition to_list (v : object) : option (list object) :=
  match v with
  | VStr s => Some (map (fun c => VStr (String c "")) (chars s))
  | VUnicode u => Some (map (fun n => VUnicode [n]) u)
  | VList l | VTuple l => Some l
  | VDict d => Some (map (fun kv => VStr (fst kv)) (map_to_list d))
  | VNone | VBool _ | VInt _ => None
  end.

(** ** [int] *)

Fixpoint lstrip (s : string) : string :=
  match s with
  | EmptyString => EmptyString
  | String c s' => if Ascii.is_space c then lstrip s' else s
  end.

Definition strip (s : string) : string :=
  String.rev (lstrip (String.rev (lstrip s))).

Fixpoint digits (acc : Z) (s : string) : option Z :=
  match s with
  | EmptyString => Some acc
  | String c s' =>
      match Ascii.is_nat c with
      | Some d => digits (10 * acc + Z.of_nat d) s'
      | None => None
      end
  end.

Definition number (s : string) : option Z :=
  match s with
  | EmptyString => None
  | _ => digits 0 s
  end.

(** [int(s)] for a string: white space, an optional sign, decimal digits,
    white space. *)
Definition int_literal (s : string) : option Z :=
  match strip s with
  | String "+" s' => number s'
  | String "-" s' => Z.opp <$> number s'
  | s' => number s'
  end.

(** [int(value)]; [None] when it raises ([ValueError] or [TypeError]).  A
    [unicode] is read through its ASCII form; digits of other scripts,
    which Python also reads, are not. *)
Definition int (v : object) : option Z :=
  match v with
  | VInt z => Some z
  | VBool b => Some (if b then 1 else 0)%Z
  | VStr s => int_literal s
  | VUnicode u => encode_ascii u ≫= int_literal
  | VNone | VList _ | VTuple _ | VDict _ => None
  end.

(** ** [dict] *)

Definition type_name (v : object) : string :=
  match v with
  | VNone => "NoneType"
  | VBool _ => "bool"
  | VInt _ => "int"
  | VStr _ => "str"
  | VUnicode _ => "unicode"
  | VList _ => "list"
  | VTuple _ => "tuple"
  | VDict _ => "dict"
  end.

(** The type that makes [hash(v)] raise, if any. *)
Fixpoint unhashable (v : object) : option string :=
  match v with
  | VList _ => Some "list"
  | VDict _ => Some "dict"
  | VTuple l =>
      (fix first (l : list object) : option string :=
         match l with
         | [] => None
         | x :: l' =>
             match unhashable x with
             | Some t => Some t
             | None => first l'
             end
         end) l
  | _ => None
  end.

(** [dict(value)] returns a dictionary or raises; the text of the exception
    is kept, the source prints it.  [DictBeyond] marks the one case this
    universe cannot hold: a key that is hashable and not a [str]. *)
Inductive dict_result : Type :=
| DictOk (d : gmap string object)
| DictError (e : string)
| DictBeyond.

Fixpoint dict_of_items (i : nat) (items : list object) (acc : gmap string object)
  : dict_result :=
  match items with
  | [] => DictOk acc
  | item :: rest =>
      match to_list item with
      | None =>
          DictError ("cannot convert dictionary update sequence element #"
                       +:+ pretty i +:+ " to a sequence")
      | Some [k; x] =>
          match unhashable k, k with
          | Some t, _ => DictError ("unhashable type: '" +:+ t +:+ "'")
          | None, VStr s => dict_of_items (S i) rest (<[s := x]> acc)
          | None, _ => DictBeyond
          end
      | Some elems =>
          DictError ("dictionary update sequence element #" +:+ pretty i
                       +:+ " has length " +:+ pretty (length elems)
                       +:+ "; 2 is required")
      end
  end.

Definition dict (v : object) : dict_result :=
  match v with
  | VDict d => DictOk d
  | _ =>
      match to_list v with
      | None => DictError ("'" +:+ type_name v +:+ "' object is not iterable")
      | Some items => dict_of_items 0 items ∅
      end
  end.

(** ** The [%] operator with one conversion in the format *)

(** What the single [%r] of a format shows in [fmt % value]: a tuple on the
    right is the argument list, so it must hold exactly one value; [None]
    is the [TypeError] of any other tuple. *)
Definition percent_r (v : object) : option string :=
  match v with
  | VTuple [x] => Some (repr x)
  | VTuple _ => None
  | _ => Some (repr v)
  end.

End Py.

(* ===================================================================== *)
(** * Schema nodes, failures, outcomes *)
(* ===================================================================== *)

(** The three values [Mapping.__init__] accepts for [unknown_keys]. *)
Inductive policy : Type := ignore | raise | preserve.

(** A type of the [Type] interface that is not one of the five embedded
    below ([String], [Float], [GlobalObject], a type of the user's): its
    two conversions, each returning a value or the message of the
    [Invalid] it raises on its node. *)
Record leaf_type : Type := {
  leaf_deserialize : object -> object + string;
  leaf_serialize : object -> object + string
}.

Inductive Typ : Type :=
| Mapping (unknown_keys : policy)
| Tuple
| Sequence (accept_scalar : bool)
| Integer
| Boolean
| Other (t : leaf_type).

(** [isinstance(typ, Positional)] *)
Definition Positional (t : Typ) : bool :=
  match t with
  | Tuple | Sequence _ => true
  | _ => false
  end.

(** [default_ = None] is the sentinel [_missing].  A validator returns
    [None] when it accepts and the message of the [Invalid] it raises on
    the node when it rejects, as [Range] and [OneOf] do ([All] raises with
    a list of messages and is not covered). *)
Inductive SchemaNode : Type := mkSchemaNode {
  typ : Typ;
  validator : option (object -> option string);
  default_ : option object;
  name : string;
  nodes : list SchemaNode
}.

(** [e_parent] holds [parent.node]: the only thing the module reads of a
    parent failure is [self.parent.node.typ], and a failure's [node] is
    never reassigned. *)
Inductive Invalid : Type := mkInvalid {
  e_node : SchemaNode;
  e_msg : option string;
  e_pos : option nat;
  e_parent : option SchemaNode;
  e_children : list Invalid
}.

(** Exceptions other than [Invalid]; no handler of the module catches
    them.  [Unmodelled] stands for a run that leaves the value universe
    ([Py.DictBeyond]). *)
Inductive pyexc : Type := IndexError | TypeError | UnicodeError | Unmodelled.

Inductive outcome (A : Type) : Type :=
| Return (a : A)
| Raise (e : Invalid)
| Uncaught (x : pyexc).
Arguments Return {A} a.
Arguments Raise {A} e.
Arguments Uncaught {A} x.

Module Invalid.

(** [Invalid(node, msg)] *)
Definition new (node : SchemaNode) (msg : option string) : Invalid :=
  {| e_node := node; e_msg := msg; e_pos := None; e_parent := None;
     e_children := [] |}.

(** [exc.pos = num] *)
Definition set_pos (exc : Invalid) (num : nat) : Invalid :=
  {| e_node := e_node exc; e_msg := e_msg exc; e_pos := Some num;
     e_parent := e_parent exc; e_children := e_children exc |}.

Definition set_parent (exc : Invalid) (parent : Invalid) : Invalid :=
  {| e_node := e_node exc; e_msg := e_msg exc; e_pos := e_pos exc;
     e_parent := Some (e_node parent); e_children := e_children exc |}.

Definition add (self exc : Invalid) : Invalid :=
  {| e_node := e_node self; e_msg := e_msg self; e_pos := e_pos self;
     e_parent := e_parent self;
     e_children := e_children self ++ [set_parent exc self] |}.

Fixpoint traverse (node : Invalid) (stack : list Invalid)
  : list (list Invalid) :=
  let stack := stack ++ [node] in
  (match e_children node with [] => [stack] | _ => [] end)
    ++ flat_map (fun child => traverse child stack) (e_children node).

Definition paths (self : Invalid) : list (list Invalid) := traverse self [].

(** [str(self.pos)] *)
Definition str_pos (pos : option nat) : string :=
  match pos with
  | None => "None"
  | Some num => pretty num
  end.

Definition _keyname (self : Invalid) : string :=
  match e_parent self with
  | Some parent_node =>
      if Positional (typ parent_node) then str_pos (e_pos self)
      else name (e_node self)
  | None => name (e_node self)
  end.

(** A string is true when it is not empty. *)
Definition nonempty (s : string) : bool := negb (String.eqb s "").

(** The inner loop of [asdict]: one step for one failure of the path. *)
Definition walk (acc : list string * list string) (exc : Invalid)
  : list string * list string :=
  let '(keyparts, msgs) := acc in
  let msgs :=
    match e_msg exc with
    | Some m => if nonempty m then msgs ++ [m] else msgs
    | None => msgs
    end in
  let keyname := _keyname exc in
  let keyparts := if nonempty keyname then keyparts ++ [keyname] else keyparts in
  (keyparts, msgs).

Definition asdict (self : Invalid) : gmap string string :=
  fold_left
    (fun errors path =>
       let '(keyparts, msgs) := fold_left walk path ([], []) in
       <[Py.join "." keyparts := Py.join "; " msgs]> errors)
    (paths self) ∅.

End Invalid.

(** [raise Invalid(node, '%r' + rest % value)], the shape of most failures
    of the module. *)
Definition raise_r {A : Type} (node : SchemaNode) (value : object) (rest : string)
  : outcome A :=
  match Py.percent_r value with
  | Some r => Raise (Invalid.new node (Some (r +:+ rest)))
  | None => Uncaught TypeError
  end.

(** [required]: no default was given. *)
Definition required (self : SchemaNode) : bool :=
  match default_ self with
  | None => true
  | Some _ => false
  end.

(** The handler shared by the three composites:
    [if error is None: error = Invalid(node)], [e.pos = num],
    [error.add(e)]. *)
Definition collect (node : SchemaNode) (error : option Invalid) (num : nat)
    (e : Invalid) : option Invalid :=
  let error :=
    match error with
    | None => Invalid.new node None
    | Some error => error
    end in
  Some (Invalid.add error (Invalid.set_pos e num)).

(* ===================================================================== *)
(** * The composite types *)
(* ===================================================================== *)

Module Mapping.
Section Mapping.
(** [self.unknown_keys] *)
Variable unknown_keys : policy.

Definition _validate (node : SchemaNode) (value : object)
  : outcome (gmap string object) :=
  match Py.dict value with
  | Py.DictOk d => Return d
  | Py.DictError e =>
      Raise (Invalid.new node
               (Some (Py.repr value +:+ " is not a mapping type: " +:+ e)))
  | Py.DictBeyond => Uncaught Unmodelled
  end.

(** [default_callback] receives the node with its default, which the
    source reads off the node: it is called on optional nodes only. *)
Variable callback : SchemaNode -> object -> outcome object.
Variable default_callback : SchemaNode -> object -> outcome object.

(** The body of the [try]: [subval = None] is the sentinel [_missing]
    that [value.pop(name, _missing)] returns for an absent name. *)
Definition attempt (subnode : SchemaNode) (subval : option object)
  : outcome object :=
  match subval with
  | None =>
      match default_ subnode with
      | None =>
          Raise (Invalid.new subnode
                   (Some (Py.repr_str (name subnode)
                            +:+ " is required but missing")))
      | Some default => default_callback subnode default
      end
  | Some subval => callback subnode subval
  end.

(** The local variables of [_impl] that the loop updates. *)
Record locals : Type := mkLocals {
  l_value : gmap string object;
  l_result : gmap string object;
  l_error : option Invalid
}.

Variable node : SchemaNode.

(** [for num, subnode in enumerate(node.nodes)], from [num] on. *)
Fixpoint loop (num : nat) (subnodes : list SchemaNode) (st : locals)
  : outcome locals :=
  match subnodes with
  | [] => Return st
  | subnode :: rest =>
      let name := name subnode in
      let subval := l_value st !! name in
      let value := delete name (l_value st) in
      match attempt subnode subval with
      | Return r =>
          loop (S num) rest (mkLocals value (<[name := r]> (l_result st)) (l_error st))
      | Raise e =>
          loop (S num) rest
            (mkLocals value (l_result st) (collect node (l_error st) num e))
      | Uncaught x => Uncaught x
      end
  end.

(** What follows the loop. *)
Definition finish (st : locals) : outcome object :=
  let unrecognized :=
    match unknown_keys with
    | raise => Py.truth (VDict (l_value st))
    | _ => false
    end in
  if unrecognized
  then Raise (Invalid.new node
                (Some ("Unrecognized keys in mapping: "
                         +:+ Py.repr (VDict (l_value st)))))
  else
    let result :=
      match unknown_keys with
      | preserve => l_value st ∪ l_result st
      | _ => l_result st
      end in
    match l_error st with
    | Some error => Raise error
    | None => Return (VDict result)
    end.

Definition _impl (value : object) : outcome object :=
  match _validate node value with
  | Return value =>
      match loop 0 (nodes node) (mkLocals value ∅ None) with
      | Return st => finish st
      | Raise e => Raise e
      | Uncaught x => Uncaught x
      end
  | Raise e => Raise e
  | Uncaught x => Uncaught x
  end.
End Mapping.

(** [node_deserialize] and [node_serialize] are the methods of
    [SchemaNode], defined after the types. *)
Definition deserialize (node_deserialize : SchemaNode -> object -> outcome object)
    (unknown_keys : policy) (node : SchemaNode) (value : object) : outcome object :=
  _impl unknown_keys
    (fun subnode subval => node_deserialize subnode subval)
    (fun subnode default => Return default)
    node value.

Definition serialize (node_serialize : SchemaNode -> object -> outcome object)
    (unknown_keys : policy) (node : SchemaNode) (value : object) : outcome object :=
  _impl unknown_keys
    (fun subnode subval => node_serialize subnode subval)
    (fun subnode default => node_serialize subnode default)
    node value.
End Mapping.

Module Tuple.
Section Tuple.
Definition _validate (node : SchemaNode) (value : object)
  : outcome (list object) :=
  if negb (Py.has___iter__ value)
  then raise_r node value " is not iterable"
  else
    match Py.len value with
    | None => Uncaught TypeError
    | Some valuelen =>
        let nodelen := length (nodes node) in
        if negb (valuelen =? nodelen)
        then
          match Py.str value with
          | Some shown =>
              Raise (Invalid.new node
                       (Some (shown +:+ " has an incorrect number of elements "
                                +:+ "(expected " +:+ pretty nodelen
                                +:+ ", was " +:+ pretty valuelen +:+ ")")))
          | None => Uncaught UnicodeError
          end
        else
          match Py.to_list value with
          | Some items => Return items
          | None => Uncaught TypeError
          end
    end.

Variable callback : SchemaNode -> object -> outcome object.
Variable node : SchemaNode.
(** The list [_validate] returned. *)
Variable value : list object.

(** [for num, subnode in enumerate(node.nodes)], from [num] on; the
    state is [result] and [error]. *)
Fixpoint loop (num : nat) (subnodes : list SchemaNode)
    (result : list object) (error : option Invalid)
  : outcome (list object * option Invalid) :=
  match subnodes with
  | [] => Return (result, error)
  | subnode :: rest =>
      match value !! num with
      | None => Uncaught IndexError
      | Some subval =>
          match callback subnode subval with
          | Return r => loop (S num) rest (result ++ [r]) error
          | Raise e => loop (S num) rest result (collect node error num e)
          | Uncaught x => Uncaught x
          end
      end
  end.
End Tuple.

Definition _impl (callback : SchemaNode -> object -> outcome object)
    (node : SchemaNode) (value : object) : outcome object :=
  match _validate node value with
  | Return value =>
      match loop callback node value 0 (nodes node) [] None with
      | Return (result, None) => Return (VTuple result)
      | Return (_, Some error) => Raise error
      | Raise e => Raise e
      | Uncaught x => Uncaught x
      end
  | Raise e => Raise e
  | Uncaught x => Uncaught x
  end.

Definition deserialize (node_deserialize : SchemaNode -> object -> outcome object)
    (node : SchemaNode) (value : object) : outcome object :=
  _impl (fun subnode subval => node_deserialize subnode subval) node value.

Definition serialize (node_serialize : SchemaNode -> object -> outcome object)
    (node : SchemaNode) (value : object) : outcome object :=
  _impl (fun subnode subval => node_serialize subnode subval) node value.
End Tuple.

Module Sequence.
Section Sequence.
(** [self.accept_scalar] *)
Variable accept_scalar : bool.

Definition _validate (node : SchemaNode) (value : object)
  : outcome (list object) :=
  if Py.has___iter__ value && negb (Py.has_get value)
  then match Py.to_list value with
       | Some items => Return items
       | None => Uncaught TypeError
       end
  else if accept_scalar then Return [value]
  else raise_r node value " is not iterable".

Variable callback : SchemaNode -> object -> outcome object.
Variable node : SchemaNode.

(** [for num, subval in enumerate(value)], from [num] on;
    [node.nodes[0]] is read anew for every element. *)
Fixpoint loop (num : nat) (value : list object)
    (result : list object) (error : option Invalid)
  : outcome (list object * option Invalid) :=
  match value with
  | [] => Return (result, error)
  | subval :: rest =>
      match nodes node with
      | [] => Uncaught IndexError
      | template :: _ =>
          match callback template subval with
          | Return r => loop (S num) rest (result ++ [r]) error
          | Raise e => loop (S num) rest result (collect node error num e)
          | Uncaught x => Uncaught x
          end
      end
  end.

Definition _impl (value : object) : outcome object :=
  match _validate node value with
  | Return value =>
      match loop 0 value [] None with
      | Return (result, None) => Return (VList result)
      | Return (_, Some error) => Raise error
      | Raise e => Raise e
      | Uncaught x => Uncaught x
      end
  | Raise e => Raise e
  | Uncaught x => Uncaught x
  end.
End Sequence.

Definition deserialize (node_deserialize : SchemaNode -> object -> outcome object)
    (accept_scalar : bool) (node : SchemaNode) (value : object) : outcome object :=
  _impl accept_scalar (fun subnode subval => node_deserialize subnode subval)
    node value.

Definition serialize (node_serialize : SchemaNode -> object -> outcome object)
    (accept_scalar : bool) (node : SchemaNode) (value : object) : outcome object :=
  _impl accept_scalar (fun subnode subval => node_serialize subnode subval)
    node value.
End Sequence.

(* ===================================================================== *)
(** * The scalar types *)
(* ===================================================================== *)

Module Integer.

Definition deserialize (node : SchemaNode) (value : object) : outcome object :=
  match Py.int value with
  | Some z => Return (VInt z)
  | None => raise_r node value " is not a number"
  end.

Definition serialize (node : SchemaNode) (value : object) : outcome object :=
  match Py.int value with
  | Some z => Return (VStr (pretty z))
  | None => raise_r node value " is not a number"
  end.

End Integer.

Module Boolean.

Definition deserialize (node : SchemaNode) (value : object) : outcome object :=
  match Py.str value with
  | None => raise_r node value " is not a string"
  | Some value =>
      let value := Py.lower value in
      if String.eqb value "false" || String.eqb value "0"
      then Return (VBool false)
      else Return (VBool true)
  end.

(** [value and 'true' or 'false'] *)
Definition serialize (node : SchemaNode) (value : object) : outcome object :=
  Return (VStr (if Py.truth value then "true" else "false")).

End Boolean.

Module Leaf.

Definition run (node : SchemaNode) (converted : object + string)
  : outcome object :=
  match converted with
  | inl v => Return v
  | inr msg => Raise (Invalid.new node (Some msg))
  end.

End Leaf.

(* ===================================================================== *)
(** * SchemaNode: the driver *)
(* ===================================================================== *)

Module SchemaNode.

(** [self.validator(self, value)] after a conversion that returned. *)
Definition validate (self : SchemaNode) (value : object) : outcome object :=
  match validator self with
  | None => Return value
  | Some check =>
      match check value with
      | None => Return value
      | Some msg => Raise (Invalid.new self (Some msg))
      end
  end.

Fixpoint serialize (self : SchemaNode) (value : object) {struct self}
  : outcome object :=
  match typ self with
  | Mapping unknown_keys => Mapping.serialize serialize unknown_keys self value
  | Tuple => Tuple.serialize serialize self value
  | Sequence accept_scalar => Sequence.serialize serialize accept_scalar self value
  | Integer => Integer.serialize self value
  | Boolean => Boolean.serialize self value
  | Other t => Leaf.run self (leaf_serialize t value)
  end.

Fixpoint deserialize (self : SchemaNode) (value : object) {struct self}
  : outcome object :=
  let converted :=
    match typ self with
    | Mapping unknown_keys => Mapping.deserialize deserialize unknown_keys self value
    | Tuple => Tuple.deserialize deserialize self value
    | Sequence accept_scalar =>
        Sequence.deserialize deserialize accept_scalar self value
    | Integer => Integer.deserialize self value
    | Boolean => Boolean.deserialize self value
    | Other t => Leaf.run self (leaf_deserialize t value)
    end in
  match converted with
  | Return value => validate self value
  | Raise e => Raise e
  | Uncaught x => Uncaught x
  end.

(** [self.nodes.append(node)] *)
Definition add (self node : SchemaNode) : SchemaNode :=
  mkSchemaNode (typ self) (validator self) (default_ self) (name self)
    (nodes self ++ [node]).

End SchemaNode.


(* ===================================================================== *)
(** * Reading the conversions: what the loops compute *)
(* ===================================================================== *)

(** The definitions of this part are not in the source: they say, without
    the loops, what the loops are to compute, and the properties below
    relate the two. *)

Module Agg.

(** A child failure as the parent keeps it: position set, parent linked. *)
Definition tag (node : SchemaNode) (num : nat) (e : Invalid) : Invalid :=
  Invalid.set_parent (Invalid.set_pos e num) (Invalid.new node None).

(** The failures among the outcomes of the children (or elements) numbered
    from [num]. *)
Fixpoint failures (node : SchemaNode) (num : nat) (os : list (outcome object))
  : list Invalid :=
  match os with
  | [] => []
  | Raise e :: os' => tag node num e :: failures node (S num) os'
  | _ :: os' => failures node (S num) os'
  end.

(** The values among the outcomes. *)
Fixpoint returns (os : list (outcome object)) : list object :=
  match os with
  | [] => []
  | Return r :: os' => r :: returns os'
  | _ :: os' => returns os'
  end.

(** The first exception other than [Invalid] among the outcomes. *)
Fixpoint cut (os : list (outcome object)) : option pyexc :=
  match os with
  | [] => None
  | Uncaught x :: _ => Some x
  | _ :: os' => cut os'
  end.

(** The parent failure that aggregates child failures: no message. *)
Definition aggregate (node : SchemaNode) (children : list Invalid) : Invalid :=
  {| e_node := node; e_msg := None; e_pos := None; e_parent := None;
     e_children := children |}.

(** The variable [error] of a composite after it collected [children]. *)
Definition error_of (node : SchemaNode) (children : list Invalid)
  : option Invalid :=
  match children with
  | [] => None
  | _ => Some (aggregate node children)
  end.

Definition caught (o : outcome object) : Prop :=
  match o with
  | Uncaught _ => False
  | _ => True
  end.

Definition failed (o : outcome object) : Prop :=
  match o with
  | Raise _ => True
  | _ => False
  end.

(** What a positional composite makes of the outcomes of its elements;
    [wrap] builds the result ([list] or [tuple]). *)
Definition positional (node : SchemaNode) (wrap : list object -> object)
    (os : list (outcome object)) : outcome object :=
  match cut os with
  | Some x => Uncaught x
  | None =>
      match failures node 0 os with
      | [] => Return (wrap (returns os))
      | fs => Raise (aggregate node fs)
      end
  end.

End Agg.

Module MappingSpec.
Section MappingSpec.
Variable callback : SchemaNode -> object -> outcome object.
Variable default_callback : SchemaNode -> object -> outcome object.

(** The outcome of every declared child, in declaration order: each child
    looks its name up in what its predecessors left of the input. *)
Fixpoint outcomes (value : gmap string object) (subnodes : list SchemaNode)
  : list (outcome object) :=
  match subnodes with
  | [] => []
  | subnode :: rest =>
      Mapping.attempt callback default_callback subnode (value !! name subnode)
        :: outcomes (delete (name subnode) value) rest
  end.
End MappingSpec.

(** The entries of the input that no declared child took. *)
Definition unmatched (value : gmap string object) (subnodes : list SchemaNode)
  : gmap string object :=
  fold_left (fun value subnode => delete (name subnode) value) subnodes value.

(** The two pairs of callbacks, as [Mapping.deserialize] and
    [Mapping.serialize] define them. *)
Definition inbound_outcomes :=
  outcomes (fun subnode subval => SchemaNode.deserialize subnode subval)
           (fun subnode default => Return default).

Definition outbound_outcomes :=
  outcomes (fun subnode subval => SchemaNode.serialize subnode subval)
           (fun subnode default => SchemaNode.serialize subnode default).

(** What a Mapping conversion raises when some child failed and no child
    ended in an uncaught exception. *)
Definition raised (unknown_keys : policy) (node : SchemaNode)
    (value : gmap string object) (os : list (outcome object)) : Invalid :=
  let rest := unmatched value (nodes node) in
  match unknown_keys with
  | raise =>
      if Py.truth (VDict rest)
      then Invalid.new node
             (Some ("Unrecognized keys in mapping: " +:+ Py.repr (VDict rest)))
      else Agg.aggregate node (Agg.failures node 0 os)
  | _ => Agg.aggregate node (Agg.failures node 0 os)
  end.

End MappingSpec.

(** A failure with every reference to its own schema node set to [node]:
    the node of the failure and the parent link of its children. *)
Definition renode (node : SchemaNode) (e : Invalid) : Invalid :=
  {| e_node := node; e_msg := e_msg e; e_pos := e_pos e;
     e_parent := e_parent e;
     e_children :=
       map (fun child => Invalid.set_parent child (Invalid.new node None))
           (e_children e) |}.

Definition renode_outcome {A : Type} (node : SchemaNode) (o : outcome A)
  : outcome A :=
  match o with
  | Raise e => Raise (renode node e)
  | _ => o
  end.

Module ReportSpec.

(** The parts that count: the empty string is dropped. *)
Definition present (parts : list string) : list string :=
  filter (fun part => part <> "") parts.

(** The key segment of a failure whose parent failure concerns the schema
    node [parent_node] ([None]: the failure has no parent): its position
    as a string under a positional parent, the name of its node
    otherwise. *)
Definition segment (parent_node : option SchemaNode) (exc : Invalid) : string :=
  match parent_node with
  | Some parent =>
      if Positional (typ parent) then Invalid.str_pos (e_pos exc)
      else name (e_node exc)
  | None => name (e_node exc)
  end.

(** The segments along a path, each failure under the one before it. *)
Fixpoint segments (parent_node : option SchemaNode) (path : list Invalid)
  : list string :=
  match path with
  | [] => []
  | exc :: rest => segment parent_node exc :: segments (Some (e_node exc)) rest
  end.

Definition key (path : list Invalid) : string :=
  Py.join "." (present (segments None path)).

Definition text (path : list Invalid) : string :=
  Py.join "; " (present (omap e_msg path)).

(** The report of a list of paths: later paths overwrite earlier ones. *)
Definition report (key text : list Invalid -> string)
    (paths : list (list Invalid)) : gmap string string :=
  fold_left (fun errors path => <[key path := text path]> errors) paths ∅.

(** Every failure of the tree points to the schema node of the failure
    that holds it. *)
Fixpoint linked (parent_node : option SchemaNode) (e : Invalid) {struct e}
  : Prop :=
  e_parent e = parent_node
  /\ (fix all (children : list Invalid) : Prop :=
        match children with
        | [] => True
        | child :: rest => linked (Some (e_node e)) child /\ all rest
        end) (e_children e).

End ReportSpec.

(** An outcome whose failure, if it is one, is linked and has no parent. *)
Definition raises_linked (o : outcome object) : Prop :=
  forall e, o = Raise e -> ReportSpec.linked None e.

(* ===================================================================== *)
(** * Schemas and inputs of the examples *)
(* ===================================================================== *)

(** An Integer node named [x]; [Integer] ignores its subnodes. *)
Definition x_child (default : option object) (subnodes : list SchemaNode)
  : SchemaNode :=
  mkSchemaNode Integer None default "x" subnodes.

(** A Mapping node whose one declared child is [x_child]. *)
Definition x_mapping (mapping_default : option object) (mapping_name : string)
    (child_default : option object) (child_nodes : list SchemaNode)
    (unknown_keys : policy) : SchemaNode :=
  mkSchemaNode (Mapping unknown_keys) None mapping_default mapping_name
    [x_child child_default child_nodes].

(** [{'x': '1', 'y': '2'}] *)
Definition x_y_input : object :=
  VDict (<["x" := VStr "1"]> (<["y" := VStr "2"]> ∅)).

(** [{'x': 'bad', 'y': '2'}] *)
Definition bad_x_y_input : object :=
  VDict (<["x" := VStr "bad"]> (<["y" := VStr "2"]> ∅)).

(** A Tuple node of three Integer nodes. *)
Definition three_integers : SchemaNode :=
  mkSchemaNode Tuple None None ""
    [mkSchemaNode Integer None None "a" [];
     mkSchemaNode Integer None None "b" [];
     mkSchemaNode Integer None None "c" []].

Definition item : SchemaNode := mkSchemaNode Integer None None "item" [].

(** A Sequence node of Integer nodes; the template is named [item]. *)
Definition integers (accept_scalar : bool) : SchemaNode :=
  mkSchemaNode (Sequence accept_scalar) None None "" [item].

(** A Mapping node of three Integer nodes, policy [raise]. *)
Definition a_b_c : SchemaNode :=
  mkSchemaNode (Mapping raise) None None ""
    [mkSchemaNode Integer None None "a" [];
     mkSchemaNode Integer None None "b" [];
     mkSchemaNode Integer None None "c" []].

(** [['1', 'bad', '3']] *)
Definition one_bad_three : object := VList [VStr "1"; VStr "bad"; VStr "3"].

(** The failure of [integers] on [one_bad_three]: an aggregate with one
    child failure, at position 1. *)
Definition bad_at_1 (accept_scalar : bool) : Invalid :=
  Agg.aggregate (integers accept_scalar)
    [Agg.tag (integers accept_scalar) 1
       (Invalid.new item (Some "'bad' is not a number"))].

(** An optional [x] whose default is the string ['7'], in a Mapping. *)
Definition optional_x : SchemaNode := x_child (Some (VStr "7")) [].

Definition optional_x_mapping : SchemaNode :=
  x_mapping None "" (Some (VStr "7")) [] ignore.

Module RoundTrip.

(** The validator of the node, if it has one, accepts the value. *)
Definition accepted (node : SchemaNode) (v : object) : Prop :=
  SchemaNode.validate node v = Return v.

Section children.
Variable valid : SchemaNode -> object -> Prop.

(** A dictionary for the declared children: each child takes its entry,
    as the conversion does, and finds a valid value; what is left at the
    end is empty unless the policy preserves it. *)
Fixpoint entries (unknown_keys : policy) (subnodes : list SchemaNode)
    (d : gmap string object) : Prop :=
  match subnodes with
  | [] => unknown_keys = preserve \/ d = ∅
  | subnode :: rest =>
      exists x, d !! name subnode = Some x /\ valid subnode x
                /\ entries unknown_keys rest (delete (name subnode) d)
  end.

(** As many values as children, each valid for the child at its
    position. *)
Fixpoint positions (subnodes : list SchemaNode) (l : list object) : Prop :=
  match subnodes, l with
  | [], [] => True
  | subnode :: rest, x :: l' => valid subnode x /\ positions rest l'
  | _, _ => False
  end.
End children.

(** [valid node v]: [v] is an internal value of the kind the tree of
    [node] describes, for a tree of Mapping, Sequence, Tuple and Boolean
    nodes.
    - Boolean: a [bool];
    - Mapping: a dictionary with one entry for each declared child, a
      valid value of that child, and no other entry unless the policy
      preserves them;
    - Sequence: a list of valid values of the first child;
    - Tuple: a tuple of as many values as there are children, each valid
      for the child at its position;
    and at each node the node's own validator accepts the value. *)
Fixpoint valid (node : SchemaNode) (v : object) {struct node} : Prop :=
  accepted node v
  /\ match typ node, v with
     | Boolean, VBool _ => True
     | Mapping unknown_keys, VDict d => entries valid unknown_keys (nodes node) d
     | Sequence _, VList l =>
         match nodes node with
         | [] => l = []
         | template :: _ => Forall (valid template) l
         end
     | Tuple, VTuple l => positions valid (nodes node) l
     | _, _ => False
     end.

(** Outbound then inbound gives the value back. *)
Definition round_trips (node : SchemaNode) (v : object) : Prop :=
  exists external,
    SchemaNode.serialize node v = Return external
    /\ SchemaNode.deserialize node external = Return v.

End RoundTrip.

(** A Mapping of a Boolean [flag] and a Sequence [flags] of Booleans, and
    one of its values. *)
Definition flag : SchemaNode := mkSchemaNode Boolean None None "flag" [].

Definition flags_schema : SchemaNode :=
  mkSchemaNode (Mapping ignore) None None ""
    [flag; mkSchemaNode (Sequence false) None None "flags" [flag]].

Definition flags_value : object :=
  VDict (<["flag" := VBool true]>
           (<["flags" := VList [VBool false; VBool true]]> ∅)).

(* ===================================================================== *)
(** * Further readings *)
(* ===================================================================== *)

(** The types without children of their own: [Integer], [Boolean] and the
    leaf types. *)
Definition scalar (t : Typ) : bool :=
  match t with
  | Integer | Boolean | Other _ => true
  | Mapping _ | Tuple | Sequence _ => false
  end.

(** A path goes down the tree: each failure is a child of the one before
    it. *)
Fixpoint descends (path : list Invalid) : Prop :=
  match path with
  | parent :: (child :: _) as rest => child ∈ e_children parent /\ descends rest
  | _ => True
  end.

(** The number of failures of the tree that have no child failure. *)
Fixpoint leaves (e : Invalid) : nat :=
  match e_children e with
  | [] => 1
  | children => foldr (fun child n => leaves child + n) 0 children
  end.

(** The key [asdict] gives a path. *)
Definition path_key (path : list Invalid) : string :=
  Py.join "." (ReportSpec.present (Invalid._keyname <$> path)).

(** The schema node that a child failure at position [num] concerns, for a
    failure on [node]: the first child for a Sequence (its template), the
    child at [num] for a Mapping or a Tuple. *)
Definition child_node (node : SchemaNode) (num : nat) : option SchemaNode :=
  match typ node with
  | Sequence _ => head (nodes node)
  | _ => nodes node !! num
  end.

Section mirrors.
Variable mirrors : SchemaNode -> Invalid -> Prop.

(** Each child failure has a position, concerns the schema node at that
    position, and mirrors it in turn. *)
Fixpoint children_mirror (node : SchemaNode) (children : list Invalid) : Prop :=
  match children with
  | [] => True
  | child :: rest =>
      (exists num, e_pos child = Some num
                   /\ child_node node num = Some (e_node child))
      /\ mirrors (e_node child) child
      /\ children_mirror node rest
  end.
End mirrors.

(** [mirrors node e]: the failure tree [e] has the shape of the schema tree
    of [node].  [e] concerns [node]; it is either a leaf with a message, or
    an aggregate without message on a composite node whose child failures
    mirror children of [node]. *)
Fixpoint mirrors (node : SchemaNode) (e : Invalid) {struct e} : Prop :=
  e_node e = node
  /\ match e_children e with
     | [] => is_Some (e_msg e)
     | children =>
         e_msg e = None /\ scalar (typ node) = false
         /\ children_mirror mirrors node children
     end.

(** The positions of the child failures increase strictly, at every level
    of the tree; the failures collected have positions. *)
Fixpoint ordered (e : Invalid) : Prop :=
  (exists positions,
     e_pos <$> e_children e = Some <$> positions
     /\ StronglySorted lt positions)
  /\ (fix all (children : list Invalid) : Prop :=
        match children with
        | [] => True
        | child :: rest => ordered child /\ all rest
        end) (e_children e).

(** The key of the report for the failure at position [num] under a
    positional [node]: the position, after the name of the node if it has
    one. *)
Definition position_key (node : SchemaNode) (num : nat) : string :=
  Py.join "." (ReportSpec.present [name node; pretty num]).

(** The key of the report for the failure of the child [child] of a
    Mapping [node]. *)
Definition child_key (node child : SchemaNode) : string :=
  Py.join "." (ReportSpec.present [name node; name child]).

Section supplied.
Variable shaped : SchemaNode -> object -> Prop.

(** Some child named [k] among [subnodes] supplied [x]: a value of its
    shape, or its default as it stands. *)
Fixpoint supplied (subnodes : list SchemaNode) (k : string) (x : object)
  : Prop :=
  match subnodes with
  | [] => False
  | subnode :: rest =>
      (name subnode = k /\ (shaped subnode x \/ default_ subnode = Some x))
      \/ supplied rest k x
  end.
End supplied.

(** [shaped node v]: [v] has the shape that the tree of [node] describes.
    - Integer: an integer; Boolean: a [bool]; a type outside the model:
      anything;
    - Tuple: a tuple of as many values as there are children, each of the
      shape of the child at its position;
    - Sequence: a list of values of the shape of the first child;
    - Mapping: a dictionary with an entry under the name of every child,
      supplied by a child of that name;
    and at each node the node's own validator accepts the value. *)
Fixpoint shaped (node : SchemaNode) (v : object) {struct node} : Prop :=
  RoundTrip.accepted node v
  /\ match typ node with
     | Integer => exists z, v = VInt z
     | Boolean => exists b, v = VBool b
     | Other _ => True
     | Tuple =>
         exists l, v = VTuple l /\ RoundTrip.positions shaped (nodes node) l
     | Sequence _ =>
         exists l,
           v = VList l
           /\ match nodes node with
              | [] => l = []
              | template :: _ => Forall (shaped template) l
              end
     | Mapping _ =>
         exists d : gmap string object,
           v = VDict d
           /\ forall k, k ∈ name <$> nodes node ->
                exists x, d !! k = Some x /\ supplied shaped (nodes node) k x
     end.

(** The schema without its validators, at every depth. *)
Fixpoint unvalidated (node : SchemaNode) : SchemaNode :=
  mkSchemaNode (typ node) None (default_ node) (name node)
    (map unvalidated (nodes node)).

(** The failure with every schema node it refers to replaced by that node
    without validators. *)
Fixpoint erase (e : Invalid) : Invalid :=
  {| e_node := unvalidated (e_node e); e_msg := e_msg e; e_pos := e_pos e;
     e_parent := unvalidated <$> e_parent e;
     e_children := map erase (e_children e) |}.

Definition erase_outcome {A : Type} (o : outcome A) : outcome A :=
  match o with
  | Raise e => Raise (erase e)
  | _ => o
  end.

(* ===================================================================== *)
(** * Declarative schemas *)
(* ===================================================================== *)

(** The instances of [SchemaNode] that class bodies hold, each under its
    [_order]: [SchemaNode.__new__] gives every instance the next value of a
    counter that all instances share, so that the [_order] tells the
    instances apart.  A reference to an instance is its [_order]. *)
Definition instances : Type := gmap nat SchemaNode.

(** The value of a class attribute: an instance of [SchemaNode] or anything
    else. *)
Inductive attribute : Type :=
  | Instance (order : nat)
  | NotInstance.

(** What [_SchemaMeta.__init__] sets on a class.  The pair
    [(value._order, value)] is given by the reference alone. *)
Record class : Type := mkClass {
  __schema_nodes__ : list nat;
  cls_nodes : list nat
}.

(** [value.name = name] *)
Definition set_name (name : string) (value : SchemaNode) : SchemaNode :=
  mkSchemaNode (typ value) (validator value) (default_ value) name (nodes value).

Module _SchemaMeta.

(** [for name, value in clsattrs.items(): ...]; [items] is the
    dictionary in the order Python enumerates it. *)
Fixpoint scan (items : list (string * attribute)) (store : instances)
    (nodes : list nat) : instances * list nat :=
  match items with
  | [] => (store, nodes)
  | (name, Instance order) :: rest =>
      scan rest (alter (set_name name) order store) (nodes ++ [order])
  | (_, NotInstance) :: rest => scan rest store nodes
  end.

(** [mro] is [cls.__mro__] after [cls] itself, a class without
    [__schema_nodes__] being one whose list is empty.  [extended.sort()]
    orders the pairs by [_order]; two pairs with the same [_order] are the
    same pair. *)
Definition __init__ (clsattrs : list (string * attribute)) (mro : list class)
    (store : instances) : class * instances :=
  let '(store, nodes) := scan clsattrs store [] in
  let extended := nodes ++ mjoin (__schema_nodes__ <$> mro) in
  (mkClass nodes (merge_sort le extended), store).

End _SchemaMeta.

Module Schema.

(** [typ] is what [cls.schema_type] makes of the arguments.  [None]: a
    reference without instance, which the program cannot hold. *)
Definition __new__ (cls : class) (typ : Typ) (store : instances)
  : option SchemaNode :=
  match mapM (fun order => store !! order) (cls_nodes cls) with
  | Some children =>
      Some (fold_left SchemaNode.add children (mkSchemaNode typ None None "" []))
  | None => None
  end.

End Schema.

(** The attributes of a class body that are instances of [SchemaNode]. *)
Definition declared (clsattrs : list (string * attribute)) : list (string * nat) :=
  omap (fun item =>
          match item with
          | (name, Instance order) => Some (name, order)
          | (_, NotInstance) => None
          end) clsattrs.

(** The references that a class inherits. *)
Definition inherited (mro : list class) : list nat :=
  mjoin (__schema_nodes__ <$> mro).

(** A class body and the instances it refers to: [b] and [a] were
    created in the order [a], [b]. *)
Definition a_b_body : list (string * attribute) :=
  [("b", Instance 1); ("__doc__", NotInstance); ("a", Instance 0)].

Definition a_b_instances : instances :=
  <[0 := mkSchemaNode Integer None None "" []]>
    (<[1 := mkSchemaNode Boolean None None "" []]> ∅).

(** A Sequence node without template, in a Mapping, and an input for
    it. *)
Definition untyped_list : SchemaNode :=
  mkSchemaNode (Mapping ignore) None None ""
    [mkSchemaNode (Sequence false) None None "s" []].

Definition untyped_list_input : object :=
  VDict (<["s" := VList [VInt 1]]> ∅).

(** A Mapping with two children named [x], the second one required. *)
Definition x_twice : SchemaNode :=
  mkSchemaNode (Mapping ignore) None None "" [x_child None []; x_child None []].

(** ** Induction on schema trees and on failure trees *)

Section tree_induction.
Variable P : SchemaNode -> Prop.
Hypothesis step :
  forall t v d nm ns, Forall P ns -> P (mkSchemaNode t v d nm ns).

Fixpoint SchemaNode_tree_ind (n : SchemaNode) : P n :=
  match n with
  | mkSchemaNode t v d nm ns =>
      step t v d nm ns
        ((fix all (l : list SchemaNode) : Forall P l :=
            match l with
            | [] => @List.Forall_nil _ P
            | x :: l' =>
                @List.Forall_cons _ P x l' (SchemaNode_tree_ind x) (all l')
            end) ns)
  end.
End tree_induction.

Section failure_induction.
Variable P : Invalid -> Prop.
Hypothesis step :
  forall n m p pa cs, Forall P cs -> P (mkInvalid n m p pa cs).

Fixpoint Invalid_tree_ind (e : Invalid) : P e :=
  match e with
  | mkInvalid n m p pa cs =>
      step n m p pa cs
        ((fix all (l : list Invalid) : Forall P l :=
            match l with
            | [] => @List.Forall_nil _ P
            | x :: l' =>
                @List.Forall_cons _ P x l' (Invalid_tree_ind x) (all l')
            end) cs)
  end.
End failure_induction.


(* ===================================================================== *)
(** * Properties *)
(* ===================================================================== *)

(** ** Unfolding the driver *)

Lemma deserialize_unfold self value :
  SchemaNode.deserialize self value =
  match
    match typ self with
    | Mapping unknown_keys =>
        Mapping.deserialize SchemaNode.deserialize unknown_keys self value
    | Tuple => Tuple.deserialize SchemaNode.deserialize self value
    | Sequence accept_scalar =>
        Sequence.deserialize SchemaNode.deserialize accept_scalar self value
    | Integer => Integer.deserialize self value
    | Boolean => Boolean.deserialize self value
    | Other t => Leaf.run self (leaf_deserialize t value)
    end
  with
  | Return value => SchemaNode.validate self value
  | Raise e => Raise e
  | Uncaught x => Uncaught x
  end.
Proof. destruct self; reflexivity. Qed.

Lemma serialize_unfold self value :
  SchemaNode.serialize self value =
  match typ self with
  | Mapping unknown_keys =>
      Mapping.serialize SchemaNode.serialize unknown_keys self value
  | Tuple => Tuple.serialize SchemaNode.serialize self value
  | Sequence accept_scalar =>
      Sequence.serialize SchemaNode.serialize accept_scalar self value
  | Integer => Integer.serialize self value
  | Boolean => Boolean.serialize self value
  | Other t => Leaf.run self (leaf_serialize t value)
  end.
Proof. destruct self; reflexivity. Qed.

(** A value without [__iter__], or with [get], is no tuple: [%r] shows it. *)
Lemma percent_r_not_sequence value :
  Py.has___iter__ value && negb (Py.has_get value) = false ->
  Py.percent_r value = Some (Py.repr value).
Proof. destruct value; simpl; intros; try reflexivity; discriminate. Qed.

(** ** The loop of [Mapping._impl] *)

Section Mapping_loop.
Variable callback : SchemaNode -> object -> outcome object.
Variable default_callback : SchemaNode -> object -> outcome object.
Variable node : SchemaNode.

Local Abbreviation loop := (Mapping.loop callback default_callback node).
Local Abbreviation outcomes := (MappingSpec.outcomes callback default_callback).

Lemma collect_error_of fs num e :
  collect node (Agg.error_of node fs) num e
  = Agg.error_of node (fs ++ [Agg.tag node num e]).
Proof. destruct fs; reflexivity. Qed.

Lemma error_of_snoc fs f :
  Agg.error_of node (fs ++ [f])
  = Some (Agg.aggregate node (fs ++ [f])).
Proof. destruct fs; reflexivity. Qed.

Lemma Mapping_loop_app l1 : forall l2 num st,
  loop num (l1 ++ l2) st
  = match loop num l1 st with
    | Return st1 => loop (num + length l1) l2 st1
    | Raise e => Raise e
    | Uncaught x => Uncaught x
    end.
Proof.
  induction l1 as [|c l1 IH]; intros l2 num st; simpl.
  - rewrite Nat.add_0_r. reflexivity.
  - replace (num + S (length l1)) with (S num + length l1) by lia.
    destruct (Mapping.attempt _ _ c _); try reflexivity; apply IH.
Qed.

(** The loop never raises [Invalid] itself: it returns or is cut short. *)
Lemma Mapping_loop_no_Raise cs : forall num st e, loop num cs st <> Raise e.
Proof.
  induction cs as [|c cs IH]; intros num st e; simpl; [discriminate |].
  destruct (Mapping.attempt _ _ c _); try apply IH. discriminate.
Qed.

(** What a loop that returned has computed: the entries left, and the
    failures collected, one for each child that failed. *)
Lemma Mapping_loop_Return cs : forall num st st' fs,
  loop num cs st = Return st' ->
  Mapping.l_error st = Agg.error_of node fs ->
  Mapping.l_value st' = MappingSpec.unmatched (Mapping.l_value st) cs
  /\ Mapping.l_error st'
     = Agg.error_of node
         (fs ++ Agg.failures node num (outcomes (Mapping.l_value st) cs))
  /\ Forall Agg.caught (outcomes (Mapping.l_value st) cs).
Proof.
  induction cs as [|c cs IH]; intros num st st' fs Hloop Herr; simpl in *.
  - injection Hloop as <-. rewrite app_nil_r. auto.
  - destruct (Mapping.attempt _ _ c _) as [r | e | x] eqn:Hatt; [| | discriminate].
    + destruct (IH _ _ _ fs Hloop Herr) as (Hv & He & Hc). simpl in *.
      repeat split; [exact Hv | exact He |]. constructor; [exact I | exact Hc].
    + destruct (IH _ _ _ (fs ++ [Agg.tag node num e]) Hloop)
        as (Hv & He & Hc); simpl in *.
      { rewrite Herr. apply collect_error_of. }
      rewrite <- app_assoc in He.
      repeat split; [exact Hv | exact He |]. constructor; [exact I | exact Hc].
Qed.

Lemma Mapping_loop_value cs : forall num st st',
  loop num cs st = Return st' ->
  Mapping.l_value st' = MappingSpec.unmatched (Mapping.l_value st) cs.
Proof.
  induction cs as [|c cs IH]; intros num st st' Hloop; simpl in *.
  - injection Hloop as <-. reflexivity.
  - destruct (Mapping.attempt _ _ c _); [| | discriminate];
      apply IH in Hloop; exact Hloop.
Qed.

(** Once a failure is collected, [error] stays set. *)
Lemma Mapping_loop_error_Some cs : forall num st st',
  loop num cs st = Return st' ->
  is_Some (Mapping.l_error st) -> is_Some (Mapping.l_error st').
Proof.
  induction cs as [|c cs IH]; intros num st st' Hloop Hsome; simpl in *.
  - injection Hloop as <-. exact Hsome.
  - destruct (Mapping.attempt _ _ c _); [| | discriminate];
      apply IH in Hloop; [exact Hloop | exact Hsome | exact Hloop |].
    simpl. unfold collect. eauto.
Qed.

(** The loop returns as soon as no child ends in an uncaught exception:
    every child is processed, whatever its predecessors did. *)
Lemma Mapping_loop_total cs : forall num st,
  Forall Agg.caught (outcomes (Mapping.l_value st) cs) ->
  exists st', loop num cs st = Return st'.
Proof.
  induction cs as [|c cs IH]; intros num st Hc; simpl in *; [eauto |].
  inversion Hc as [|o os Ho Hos]; subst.
  destruct (Mapping.attempt _ _ c _); [| | contradiction]; apply IH; exact Hos.
Qed.

(** A name that no child of the loop bears keeps its entry in [result]. *)
Lemma Mapping_loop_result_other cs : forall num st st' k,
  loop num cs st = Return st' ->
  k ∉ name <$> cs ->
  Mapping.l_result st' !! k = Mapping.l_result st !! k.
Proof.
  induction cs as [|c cs IH]; intros num st st' k Hloop Hk; simpl in *.
  - injection Hloop as <-. reflexivity.
  - apply not_elem_of_cons in Hk as [Hne Hk].
    destruct (Mapping.attempt _ _ c _); [| | discriminate].
    + rewrite (IH _ _ _ _ Hloop Hk). simpl. apply lookup_insert_ne. congruence.
    + rewrite (IH _ _ _ _ Hloop Hk). reflexivity.
Qed.
End Mapping_loop.

Lemma unmatched_lookup cs : forall (value : gmap string object) k,
  MappingSpec.unmatched value cs !! k
  = if decide (k ∈ name <$> cs) then None else value !! k.
Proof.
  unfold MappingSpec.unmatched.
  induction cs as [|c cs IH]; intros value k.
  - destruct (decide (k ∈ name <$> [])) as [Hk | _]; [| reflexivity].
    by apply elem_of_nil in Hk.
  - cbn [fold_left]. rewrite IH, fmap_cons.
    destruct (decide (k ∈ name <$> cs)) as [Hin | Hnin];
      destruct (decide (k ∈ name c :: (name <$> cs))) as [Hin' | Hnin'];
      try reflexivity.
    + exfalso. apply Hnin'. by right.
    + apply elem_of_cons in Hin' as [-> | Hin']; [| done].
      apply lookup_delete_eq.
    + apply lookup_delete_ne. intros <-. apply Hnin'. by left.
Qed.

Lemma outcomes_app cb dcb l1 : forall l2 value,
  MappingSpec.outcomes cb dcb value (l1 ++ l2)
  = MappingSpec.outcomes cb dcb value l1
      ++ MappingSpec.outcomes cb dcb (MappingSpec.unmatched value l1) l2.
Proof.
  induction l1 as [|c l1 IH]; intros l2 value; simpl; [reflexivity |].
  f_equal. apply IH.
Qed.

Lemma failures_app node os1 : forall os2 num,
  Agg.failures node num (os1 ++ os2)
  = Agg.failures node num os1
      ++ Agg.failures node (num + length os1) os2.
Proof.
  induction os1 as [|o os1 IH]; intros os2 num; simpl.
  - rewrite Nat.add_0_r. reflexivity.
  - replace (num + S (length os1)) with (S num + length os1) by lia.
    destruct o; simpl; rewrite IH; reflexivity.
Qed.

(** Every collected failure carries a position from [num] on. *)
Lemma failures_pos node os : forall num f,
  f ∈ Agg.failures node num os ->
  exists i e, os !! i = Some (Raise e) /\ f = Agg.tag node (num + i) e.
Proof.
  induction os as [|o os IH]; intros num f Hf; simpl in *.
  - by apply elem_of_nil in Hf.
  - assert (Hrest : f ∈ Agg.failures node (S num) os ->
                    exists i e, (o :: os) !! i = Some (Raise e)
                                /\ f = Agg.tag node (num + i) e).
    { intros H. destruct (IH _ _ H) as (i & e & Hi & ->).
      exists (S i), e. split; [exact Hi |]. f_equal. lia. }
    destruct o as [r | e | x]; [auto | | auto].
    apply elem_of_cons in Hf as [-> | Hf]; [| auto].
    exists 0, e. split; [reflexivity |]. f_equal. lia.
Qed.

Lemma failures_elem node os : forall num i e,
  os !! i = Some (Raise e) ->
  Agg.tag node (num + i) e ∈ Agg.failures node num os.
Proof.
  induction os as [|o os IH]; intros num i e Hi; [discriminate |].
  destruct i as [|i]; simpl in Hi.
  - injection Hi as ->. simpl. rewrite Nat.add_0_r. left.
  - replace (num + S i) with (S num + i) by lia.
    pose proof (IH (S num) i e Hi) as Hin.
    destruct o; simpl; [exact Hin | right; exact Hin | exact Hin].
Qed.

Lemma failures_nonempty node os : forall num,
  Exists Agg.failed os -> Agg.failures node num os <> [].
Proof.
  induction os as [|o os IH]; intros num H; inversion H; subst.
  - destruct o; try contradiction. discriminate.
  - destruct o; simpl; [apply IH | discriminate | apply IH]; assumption.
Qed.

(** ** The loops of [Sequence._impl] and [Tuple._impl] *)

Lemma error_of_app_cons node fs f fs' :
  Agg.error_of node (fs ++ f :: fs') = Some (Agg.aggregate node (fs ++ f :: fs')).
Proof. destruct fs; reflexivity. Qed.

Section Sequence_loop.
Variable callback : SchemaNode -> object -> outcome object.
Variable node template : SchemaNode.
Variable rest : list SchemaNode.
Hypothesis Hnodes : nodes node = template :: rest.

(** The loop applies [callback] with the first child to every element,
    keeps the values, collects the failures, and stops at the first
    exception that is not [Invalid]. *)
Lemma Sequence_loop_spec items : forall num result fs,
  let os := map (callback template) items in
  Sequence.loop callback node num items result (Agg.error_of node fs)
  = match Agg.cut os with
    | Some x => Uncaught x
    | None =>
        Return (result ++ Agg.returns os,
                Agg.error_of node (fs ++ Agg.failures node num os))
    end.
Proof.
  induction items as [|subval items IH]; intros num result fs; simpl.
  - rewrite !app_nil_r. reflexivity.
  - rewrite Hnodes. destruct (callback template subval) as [r | e | x]; simpl.
    + rewrite IH. destruct (Agg.cut _); [reflexivity |].
      rewrite <- app_assoc. reflexivity.
    + rewrite collect_error_of, IH. destruct (Agg.cut _); [reflexivity |].
      rewrite <- app_assoc. reflexivity.
    + reflexivity.
Qed.

Lemma Sequence_impl_spec accept_scalar value :
  Sequence._impl accept_scalar callback node value
  = match Sequence._validate accept_scalar node value with
    | Return items => Agg.positional node VList (map (callback template) items)
    | Raise e => Raise e
    | Uncaught x => Uncaught x
    end.
Proof.
  unfold Sequence._impl.
  destruct (Sequence._validate accept_scalar node value) as [items | |];
    try reflexivity.
  pose proof (Sequence_loop_spec items 0 [] []) as Hloop.
  change (Agg.error_of node []) with (@None Invalid) in Hloop.
  cbv zeta in Hloop. rewrite Hloop. unfold Agg.positional.
  destruct (Agg.cut _); [reflexivity |]. simpl.
  destruct (Agg.failures _ _ _); reflexivity.
Qed.
End Sequence_loop.

Section Tuple_loop.
Variable callback : SchemaNode -> object -> outcome object.
Variable node : SchemaNode.
Variable value : list object.

(** The loop pairs the declared children with the elements by position. *)
Lemma Tuple_loop_spec subnodes : forall num result fs,
  num + length subnodes <= length value ->
  let os := zip_with callback subnodes (drop num value) in
  Tuple.loop callback node value num subnodes result (Agg.error_of node fs)
  = match Agg.cut os with
    | Some x => Uncaught x
    | None =>
        Return (result ++ Agg.returns os,
                Agg.error_of node (fs ++ Agg.failures node num os))
    end.
Proof.
  induction subnodes as [|subnode subnodes IH]; intros num result fs Hlen; simpl.
  - rewrite !app_nil_r. reflexivity.
  - simpl in Hlen.
    destruct (lookup_lt_is_Some_2 value num) as [subval Hsub]; [lia |].
    rewrite Hsub, (drop_S _ _ _ Hsub). simpl.
    destruct (callback subnode subval) as [r | e | x]; simpl.
    + rewrite IH by lia. destruct (Agg.cut _); [reflexivity |].
      rewrite <- app_assoc. reflexivity.
    + rewrite collect_error_of, IH by lia. destruct (Agg.cut _); [reflexivity |].
      rewrite <- app_assoc. reflexivity.
    + reflexivity.
Qed.
End Tuple_loop.

(** [Tuple._validate] returns exactly on an input with [__iter__] whose
    length is the number of declared children, and then returns its
    elements. *)
Lemma Tuple_validate_Return node value items :
  Tuple._validate node value = Return items ->
  Py.to_list value = Some items /\ Py.has___iter__ value = true
  /\ Py.len value = Some (length (nodes node)).
Proof.
  unfold Tuple._validate.
  destruct (Py.has___iter__ value) eqn:Hiter; simpl.
  2: { unfold raise_r. destruct (Py.percent_r value); discriminate. }
  destruct (Py.len value) as [valuelen|]; [| discriminate].
  destruct (Nat.eqb_spec valuelen (length (nodes node))) as [-> | ?]; simpl.
  - destruct (Py.to_list value); [| discriminate]. intros [= <-]. auto.
  - destruct (Py.str value); discriminate.
Qed.

Lemma to_list_length value items n :
  Py.has___iter__ value = true ->
  Py.to_list value = Some items -> Py.len value = Some n -> length items = n.
Proof.
  destruct value; try discriminate; simpl; intros _ [= <-] [= <-];
    try reflexivity.
  rewrite length_map. apply length_map_to_list.
Qed.

Lemma Tuple_impl_spec callback node value :
  Tuple._impl callback node value
  = match Tuple._validate node value with
    | Return items =>
        Agg.positional node VTuple (zip_with callback (nodes node) items)
    | Raise e => Raise e
    | Uncaught x => Uncaught x
    end.
Proof.
  unfold Tuple._impl.
  destruct (Tuple._validate node value) as [items | |] eqn:Hv; try reflexivity.
  apply Tuple_validate_Return in Hv as (Hitems & Hiter & Hlen).
  pose proof (to_list_length _ _ _ Hiter Hitems Hlen) as Hlength.
  pose proof (Tuple_loop_spec callback node items (nodes node) 0 [] []) as Hloop.
  change (Agg.error_of node []) with (@None Invalid) in Hloop.
  cbv zeta in Hloop. rewrite Hloop by (simpl; lia).
  rewrite drop_0. unfold Agg.positional.
  destruct (Agg.cut _); [reflexivity |]. simpl.
  destruct (Agg.failures _ _ _); reflexivity.
Qed.

(** ** The conversions at work *)

(** [Integer] reads and renders decimal integers. *)
Example Integer_reads_and_renders :
  SchemaNode.deserialize item (VStr " -42 ") = Return (VInt (-42))
  /\ SchemaNode.serialize item (VInt 7) = Return (VStr "7")
  /\ SchemaNode.deserialize item VNone
     = Raise (Invalid.new item (Some "None is not a number")).
Proof. repeat split; vm_compute; reflexivity. Qed.

(** The message of [Integer] is formatted with [% value]: a tuple that
    does not hold exactly one value makes the formatting itself raise
    [TypeError], which is no [Invalid]. *)
Example Integer_on_a_pair :
  SchemaNode.deserialize item (VTuple [VInt 1; VInt 2]) = Uncaught TypeError
  /\ SchemaNode.deserialize item (VTuple [VStr "a"])
     = Raise (Invalid.new item (Some "'a' is not a number")).
Proof. split; reflexivity. Qed.

(** A Sequence node without children has no [nodes[0]]. *)
Example Sequence_without_template :
  let empty := mkSchemaNode (Sequence false) None None "" [] in
  SchemaNode.deserialize empty (VList []) = Return (VList [])
  /\ SchemaNode.deserialize empty (VList [VNone]) = Uncaught IndexError.
Proof. split; reflexivity. Qed.

(** [Boolean] ignores case. *)
Example Boolean_reads :
  SchemaNode.deserialize flag (VStr "FALSE") = Return (VBool false)
  /\ SchemaNode.deserialize flag (VInt 0) = Return (VBool false)
  /\ SchemaNode.deserialize flag (VStr "no") = Return (VBool true)
  /\ SchemaNode.deserialize flag (VList []) = Return (VBool true).
Proof. repeat split; vm_compute; reflexivity. Qed.

(** A required child that the input lacks is reported under its name, and
    a child that converts leaves no entry in the report. *)
Example required_but_missing :
  SchemaNode.deserialize a_b_c (VDict (<["a" := VStr "1"]> ∅))
  = Raise (Agg.aggregate a_b_c
             [Agg.tag a_b_c 1
                (Invalid.new (mkSchemaNode Integer None None "b" [])
                   (Some "'b' is required but missing"));
              Agg.tag a_b_c 2
                (Invalid.new (mkSchemaNode Integer None None "c" [])
                   (Some "'c' is required but missing"))])
  /\ Invalid.asdict
       (Agg.aggregate a_b_c
          [Agg.tag a_b_c 1
             (Invalid.new (mkSchemaNode Integer None None "b" [])
                (Some "'b' is required but missing"));
           Agg.tag a_b_c 2
             (Invalid.new (mkSchemaNode Integer None None "c" [])
                (Some "'c' is required but missing"))])
     = <["b" := "'b' is required but missing"]>
         (<["c" := "'c' is required but missing"]> ∅).
Proof. split; vm_compute; reflexivity. Qed.

(** [dict()] takes a sequence of pairs for a mapping, and a string for a
    sequence of characters. *)
Example Mapping_validate :
  Mapping._validate a_b_c (VList [VTuple [VStr "a"; VInt 1]])
  = Return (<["a" := VInt 1]> ∅)
  /\ Mapping._validate a_b_c (VInt 3)
     = Raise (Invalid.new a_b_c
                (Some "3 is not a mapping type: 'int' object is not iterable"))
  /\ Mapping._validate a_b_c (VStr "ab")
     = Raise (Invalid.new a_b_c
                (Some ("'ab' is not a mapping type: dictionary update "
                         +:+ "sequence element #0 has length 1; 2 is required"))).
Proof. repeat split; vm_compute; reflexivity. Qed.

(** ** Unknown keys: the three policies on one input *)

(** C4.  A Mapping node whose one declared child is an Integer named
    [x], given [{'x': '1', 'y': '2'}]: with [ignore] the result is
    [{'x': 1}]; with [raise] the conversion fails, its message naming the
    unrecognized entry [y]; with [preserve] the result is
    [{'x': 1, 'y': '2'}], the unknown entry copied as it came.  This holds
    whatever else the two nodes carry (a name or a default for the
    mapping; a default or subnodes, which [Integer] ignores, for the
    child), no validator being there to reject. *)
Theorem unknown_keys_policies mapping_default mapping_name child_default child_nodes :
  let schema := x_mapping mapping_default mapping_name child_default child_nodes in
  SchemaNode.deserialize (schema ignore) x_y_input
    = Return (VDict (<["x" := VInt 1]> ∅))
  /\ SchemaNode.deserialize (schema raise) x_y_input
    = Raise (Invalid.new (schema raise)
               (Some "Unrecognized keys in mapping: {'y': '2'}"))
  /\ SchemaNode.deserialize (schema preserve) x_y_input
    = Return (VDict (<["x" := VInt 1]> (<["y" := VStr "2"]> ∅))).
Proof. repeat split; vm_compute; reflexivity. Qed.

(** ** Boolean *)

Lemma encode_ascii_None u :
  Py.encode_ascii u = None <-> Exists (fun n => (128 <= n)%N) u.
Proof.
  induction u as [|n u IH]; simpl.
  - split; [discriminate | intros H; inversion H].
  - destruct (N.ltb_spec n 128) as [Hlt | Hge].
    + destruct (Py.encode_ascii u) eqn:E.
      * split; [discriminate |].
        intros H; inversion H; subst; [lia |].
        apply IH in H1. discriminate.
      * split; [| reflexivity].
        intros _. apply Exists_cons_tl. apply IH. reflexivity.
    + split; [| reflexivity]. intros _. apply Exists_cons_hd. exact Hge.
Qed.

(** [str(value)] raises on a [unicode] with a code point above 127 and on
    nothing else. *)
Lemma str_None value :
  Py.str value = None <->
  exists u, value = VUnicode u /\ Exists (fun n => (128 <= n)%N) u.
Proof.
  split.
  - destruct value as [| [] | | | u | | |]; simpl; try discriminate.
    intros H. exists u. split; [reflexivity |]. apply encode_ascii_None, H.
  - intros (u & -> & H). simpl. apply encode_ascii_None, H.
Qed.

(** Counterexample to C8: the [unicode] string [u'\xe9'] has no [str]
    form, and Boolean inbound conversion fails on it. *)
Lemma Boolean_deserialize_fails :
  let node := mkSchemaNode Boolean None None "" [] in
  SchemaNode.deserialize node (VUnicode [233%N])
    = Raise (Invalid.new node (Some "u'\xe9' is not a string")).
Proof. vm_compute. reflexivity. Qed.

(** C8, amended.  Boolean inbound conversion fails exactly on the values
    that have no [str] form (a [unicode] holding a code point above 127),
    with the message "... is not a string".  On every other value it
    returns: [False] when the [str] form, lowercased, is ["false"] or
    ["0"], and [True] otherwise.  Outbound conversion never fails and
    renders ["true"] for a true value and ["false"] for any other. *)
Theorem Boolean_conversions node value :
  match Py.str value with
  | None =>
      (exists u, value = VUnicode u /\ Exists (fun n => (128 <= n)%N) u)
      /\ Boolean.deserialize node value
         = Raise (Invalid.new node (Some (Py.repr value +:+ " is not a string")))
  | Some s =>
      Boolean.deserialize node value
      = Return (VBool (negb (bool_decide
                               (Py.lower s = "false" \/ Py.lower s = "0"))))
  end
  /\ Boolean.serialize node value
     = Return (VStr (if Py.truth value then "true" else "false")).
Proof.
  split; [| reflexivity].
  destruct (Py.str value) as [s|] eqn:Hstr.
  - unfold Boolean.deserialize. rewrite Hstr.
    destruct (String.eqb_spec (Py.lower s) "false") as [Ef | Hf].
    { rewrite bool_decide_eq_true_2 by (left; exact Ef). reflexivity. }
    destruct (String.eqb_spec (Py.lower s) "0") as [E0 | H0].
    { rewrite bool_decide_eq_true_2 by (right; exact E0). reflexivity. }
    rewrite bool_decide_eq_false_2 by (intros [? | ?]; done). reflexivity.
  - pose proof (proj1 (str_None value) Hstr) as (u & -> & Hu).
    split; [eauto |].
    unfold Boolean.deserialize. rewrite Hstr. reflexivity.
Qed.

(** ** Tuple: wrong number of elements *)

(** C6.  A Tuple node given an input that has elements ([__iter__] and a
    length) in a number other than that of the declared children fails
    with a message that states the expected and the actual count.  No
    child conversion takes place: the failure is the same whatever
    [callback] would do, it has no child failure, and it is what inbound
    and outbound conversion of the node raise. *)
Theorem Tuple_wrong_length callback node value valuelen :
  typ node = Tuple ->
  Py.has___iter__ value = true ->
  Py.len value = Some valuelen ->
  valuelen <> length (nodes node) ->
  let failure :=
    Invalid.new node
      (Some (Py.repr value +:+ " has an incorrect number of elements "
               +:+ "(expected " +:+ pretty (length (nodes node))
               +:+ ", was " +:+ pretty valuelen +:+ ")")) in
  Tuple._impl callback node value = Raise failure
  /\ SchemaNode.deserialize node value = Raise failure
  /\ SchemaNode.serialize node value = Raise failure.
Proof.
  intros Htyp Hiter Hlen Hne failure.
  assert (Hv : Tuple._validate node value = Raise failure).
  { unfold Tuple._validate. rewrite Hiter, Hlen. simpl.
    destruct (Nat.eqb_spec valuelen (length (nodes node))); [done |]. simpl.
    assert (Py.str value = Some (Py.repr value)) as ->
      by (destruct value; try discriminate; reflexivity).
    reflexivity. }
  assert (Himpl : forall cb, Tuple._impl cb node value = Raise failure).
  { intros cb. unfold Tuple._impl. rewrite Hv. reflexivity. }
  split; [apply Himpl |]. split.
  - rewrite deserialize_unfold, Htyp. unfold Tuple.deserialize.
    rewrite Himpl. reflexivity.
  - rewrite serialize_unfold, Htyp. unfold Tuple.serialize. apply Himpl.
Qed.

(** Three declared children, two elements. *)
Lemma Tuple_wrong_length_witness :
  SchemaNode.deserialize three_integers (VList [VStr "1"; VStr "2"])
  = Raise (Invalid.new three_integers
             (Some "['1', '2'] has an incorrect number of elements (expected 3, was 2)")).
Proof.
  refine (proj1 (proj2 (Tuple_wrong_length (fun _ _ => Uncaught TypeError)
                          three_integers (VList [VStr "1"; VStr "2"]) 2
                          _ _ _ _))).
  - reflexivity.
  - reflexivity.
  - reflexivity.
  - simpl. lia.
Defined.

(** ** Sequence: input that is no sequence *)

(** Counterexample to C5: with [accept_scalar] the string ['bad'] (no
    [__iter__] in Python 2) is wrapped into a one-element list, the Integer
    template fails on it, and so does the Sequence. *)
Lemma Sequence_accept_scalar_fails :
  SchemaNode.deserialize (integers true) (VStr "bad")
  = Raise (Invalid.add (Invalid.new (integers true) None)
             (Invalid.set_pos
                (Invalid.new item
                   (Some "'bad' is not a number")) 0)).
Proof. vm_compute. reflexivity. Qed.

(** C5, amended.  [value] is an input that [Sequence._validate] does not
    take for a sequence (it has no [__iter__], or it has [get]).  With
    [accept_scalar] off, inbound conversion fails with "... is not
    iterable", for every Sequence node.  With [accept_scalar] on, the
    input is converted as the one-element list [[value]]: when the template
    child's inbound conversion of [value] returns [r] the result is [[r]]
    (handed to the node's validator, if it has one); when it fails, the
    Sequence fails with an aggregate holding that failure at position 0. *)
Theorem Sequence_scalar_input accept_scalar node value :
  typ node = Sequence accept_scalar ->
  Py.has___iter__ value && negb (Py.has_get value) = false ->
  (accept_scalar = false ->
   SchemaNode.deserialize node value
   = Raise (Invalid.new node (Some (Py.repr value +:+ " is not iterable"))))
  /\ (accept_scalar = true ->
      forall template rest, nodes node = template :: rest ->
      SchemaNode.deserialize node value
      = match SchemaNode.deserialize template value with
        | Return r => SchemaNode.validate node (VList [r])
        | Raise e =>
            Raise (Invalid.add (Invalid.new node None) (Invalid.set_pos e 0))
        | Uncaught x => Uncaught x
        end).
Proof.
  intros Htyp Hscalar. split.
  - intros ->. rewrite deserialize_unfold, Htyp.
    unfold Sequence.deserialize, Sequence._impl, Sequence._validate.
    rewrite Hscalar. unfold raise_r.
    rewrite percent_r_not_sequence by exact Hscalar. reflexivity.
  - intros -> template rest Hnodes. rewrite deserialize_unfold, Htyp.
    unfold Sequence.deserialize, Sequence._impl, Sequence._validate.
    rewrite Hscalar. simpl. rewrite Hnodes.
    destruct (SchemaNode.deserialize template value); reflexivity.
Qed.

Lemma Sequence_scalar_input_witness :
  SchemaNode.deserialize (integers false) (VStr "7")
  = Raise (Invalid.new (integers false) (Some "'7' is not iterable"))
  /\ SchemaNode.deserialize (integers true) (VStr "7") = Return (VList [VInt 7]).
Proof.
  split.
  - refine (proj1 (Sequence_scalar_input false (integers false) (VStr "7") _ _) _);
      reflexivity.
  - refine (proj2 (Sequence_scalar_input true (integers true) (VStr "7") _ _) _
              item [] _);
      reflexivity.
Defined.

(** ** Mapping: every child failure is collected *)

Lemma Mapping_impl_raised unknown_keys callback default_callback node value d :
  Py.dict value = Py.DictOk d ->
  let os := MappingSpec.outcomes callback default_callback d (nodes node) in
  Forall Agg.caught os ->
  Exists Agg.failed os ->
  Mapping._impl unknown_keys callback default_callback node value
  = Raise (MappingSpec.raised unknown_keys node d os).
Proof.
  intros Hdict os Hcaught Hfailed.
  unfold Mapping._impl, Mapping._validate. rewrite Hdict.
  destruct (Mapping_loop_total callback default_callback node (nodes node) 0
              (Mapping.mkLocals d ∅ None) Hcaught) as [st Hloop].
  rewrite Hloop.
  destruct (Mapping_loop_Return _ _ _ _ _ _ _ [] Hloop eq_refl)
    as (Hvalue & Herror & _).
  simpl in Hvalue, Herror. fold os in Herror.
  pose proof (failures_nonempty node os 0 Hfailed) as Hne.
  unfold Mapping.finish, MappingSpec.raised. rewrite Hvalue, Herror.
  destruct (Agg.failures node 0 os) as [|f fs] eqn:Hfs; [done |].
  destruct unknown_keys; try reflexivity.
  destruct (Py.truth _); reflexivity.
Qed.

(** Counterexample to C1: under the policy [raise], with an entry no child
    declares, the failure raised is the one for the unrecognized keys.  The
    failure of the child [x] on ['bad'] is not in it: it has no child
    failure at all. *)
Lemma Mapping_raise_drops_child_failures :
  let schema := x_mapping None "" None [] raise in
  SchemaNode.deserialize (x_child None []) (VStr "bad")
  = Raise (Invalid.new (x_child None []) (Some "'bad' is not a number"))
  /\ SchemaNode.deserialize schema bad_x_y_input
     = Raise (Invalid.new schema (Some "Unrecognized keys in mapping: {'y': '2'}"))
  /\ e_children
       (Invalid.new schema (Some "Unrecognized keys in mapping: {'y': '2'}"))
     = [].
Proof. repeat split; vm_compute; reflexivity. Qed.

(** C1, amended.  A Mapping conversion, inbound or outbound, whose input
    [dict()] accepts, in which at least one declared child fails and no
    child ends in an exception other than [Invalid]: every declared child
    is processed, and the conversion raises
    - under the policy [raise], when entries are left that no child
      declares: the failure for the unrecognized keys, which holds no child
      failure;
    - in every other case: one aggregate on the Mapping node, without a
      message, whose children are the failures of all the children that
      failed, in declaration order, each with its child's index as
      position. *)
Theorem Mapping_aggregates_failures unknown_keys node value d :
  typ node = Mapping unknown_keys ->
  Py.dict value = Py.DictOk d ->
  (let os := MappingSpec.inbound_outcomes d (nodes node) in
   Forall Agg.caught os ->
   Exists Agg.failed os ->
   SchemaNode.deserialize node value
   = Raise (MappingSpec.raised unknown_keys node d os))
  /\ (let os := MappingSpec.outbound_outcomes d (nodes node) in
      Forall Agg.caught os ->
      Exists Agg.failed os ->
      SchemaNode.serialize node value
      = Raise (MappingSpec.raised unknown_keys node d os)).
Proof.
  intros Htyp Hdict. split; intros os Hcaught Hfailed.
  - rewrite deserialize_unfold, Htyp. unfold Mapping.deserialize.
    rewrite (Mapping_impl_raised _ _ _ _ _ _ Hdict Hcaught Hfailed).
    reflexivity.
  - rewrite serialize_unfold, Htyp. unfold Mapping.serialize.
    apply (Mapping_impl_raised _ _ _ _ _ _ Hdict Hcaught Hfailed).
Qed.

(** Two children fail, one returns; nothing is left unmatched. *)
Lemma Mapping_aggregates_failures_witness :
  SchemaNode.deserialize a_b_c
    (VDict (<["a" := VStr "no"]> (<["b" := VStr "2"]> ∅)))
  = Raise (Agg.aggregate a_b_c
             [Agg.tag a_b_c 0
                (Invalid.new (mkSchemaNode Integer None None "a" [])
                   (Some "'no' is not a number"));
              Agg.tag a_b_c 2
                (Invalid.new (mkSchemaNode Integer None None "c" [])
                   (Some "'c' is required but missing"))]).
Proof.
  refine (proj1 (Mapping_aggregates_failures raise a_b_c
                   (VDict (<["a" := VStr "no"]> (<["b" := VStr "2"]> ∅)))
                   (<["a" := VStr "no"]> (<["b" := VStr "2"]> ∅)) _ _) _ _).
  - reflexivity.
  - reflexivity.
  - vm_compute. repeat constructor.
  - vm_compute. constructor. exact I.
Defined.

(** ** Mapping: an optional child whose name is absent *)

Lemma outcomes_length cb dcb cs : forall value,
  length (MappingSpec.outcomes cb dcb value cs) = length cs.
Proof. induction cs; intros; simpl; [reflexivity | f_equal; auto]. Qed.

(** The turn of an optional child whose name the input lacks: its outcome
    is that of [default_callback] on its default. *)
Lemma outcomes_absent cb dcb d before child after default :
  default_ child = Some default ->
  d !! name child = None ->
  MappingSpec.outcomes cb dcb d (before ++ child :: after) !! length before
  = Some (dcb child default).
Proof.
  intros Hdefault Habsent. rewrite outcomes_app. simpl.
  rewrite <- (outcomes_length cb dcb before d) at 1.
  rewrite list_lookup_middle by reflexivity.
  rewrite unmatched_lookup, Habsent.
  destruct (decide _); unfold Mapping.attempt; rewrite Hdefault; reflexivity.
Qed.

(** What a Mapping conversion raises: a failure of its own, with a
    message and no child failure, or the aggregate of the collected
    failures. *)
Lemma Mapping_impl_Raise unknown_keys cb dcb node value d e :
  Py.dict value = Py.DictOk d ->
  Mapping._impl unknown_keys cb dcb node value = Raise e ->
  (exists msg, e = Invalid.new node msg)
  \/ e = Agg.aggregate node
           (Agg.failures node 0 (MappingSpec.outcomes cb dcb d (nodes node))).
Proof.
  intros Hdict. unfold Mapping._impl, Mapping._validate. rewrite Hdict.
  destruct (Mapping.loop _ _ _ _ _ _) as [st | e' | x] eqn:Hloop;
    [| by apply Mapping_loop_no_Raise in Hloop | discriminate].
  destruct (Mapping_loop_Return _ _ _ _ _ _ _ [] Hloop eq_refl)
    as (_ & Herror & _). simpl in Herror.
  unfold Mapping.finish. rewrite Herror.
  destruct (match unknown_keys with raise => _ | _ => false end).
  { intros [= <-]. left. eauto. }
  destruct (Agg.failures _ _ _) as [|f fs]; simpl; [discriminate |].
  intros [= <-]. right. reflexivity.
Qed.

Lemma validate_Return self value r :
  SchemaNode.validate self value = Return r -> r = value.
Proof.
  unfold SchemaNode.validate. destruct (validator self) as [check|]; [| congruence].
  destruct (check value); [discriminate | congruence].
Qed.

Lemma validate_Raise self value e :
  SchemaNode.validate self value = Raise e -> e_children e = [].
Proof.
  unfold SchemaNode.validate. destruct (validator self) as [check|]; [| discriminate].
  destruct (check value); [| discriminate]. intros [= <-]. reflexivity.
Qed.

(** A Mapping conversion that returns holds, under the name of an absent
    optional child that is the last of its name, what [default_callback]
    returned for it. *)
Lemma Mapping_impl_Return_absent unknown_keys cb dcb node value d
    before child after default r :
  Py.dict value = Py.DictOk d ->
  nodes node = before ++ child :: after ->
  default_ child = Some default ->
  d !! name child = None ->
  name child ∉ name <$> after ->
  Mapping._impl unknown_keys cb dcb node value = Return r ->
  exists result shown,
    r = VDict result /\ dcb child default = Return shown
    /\ result !! name child = Some shown.
Proof.
  intros Hdict Hnodes Hdefault Habsent Hlast.
  unfold Mapping._impl, Mapping._validate. rewrite Hdict, Hnodes.
  rewrite Mapping_loop_app.
  destruct (Mapping.loop _ _ _ 0 before _) as [st1 | |] eqn:Hbefore;
    [| discriminate | discriminate].
  destruct (Mapping_loop_Return _ _ _ _ _ _ _ [] Hbefore eq_refl) as (Hv1 & _ & _).
  simpl in Hv1. cbn [Mapping.loop].
  assert (Hlook : Mapping.l_value st1 !! name child = None).
  { rewrite Hv1, unmatched_lookup, Habsent. by destruct (decide _). }
  rewrite Hlook. unfold Mapping.attempt at 1. rewrite Hdefault.
  destruct (dcb child default) as [shown | e | x] eqn:Hshown.
  - destruct (Mapping.loop _ _ _ _ after _) as [st | |] eqn:Hafter;
      [| discriminate | discriminate].
    pose proof (Mapping_loop_result_other _ _ _ _ _ _ _ _ Hafter Hlast) as Hres.
    pose proof (Mapping_loop_value _ _ _ _ _ _ _ Hafter) as Hv.
    simpl in Hres, Hv. rewrite lookup_insert_eq in Hres.
    assert (Hrest : Mapping.l_value st !! name child = None).
    { rewrite Hv, unmatched_lookup. destruct (decide _); [reflexivity |].
      apply lookup_delete_eq. }
    unfold Mapping.finish.
    destruct (match unknown_keys with raise => _ | _ => false end);
      [discriminate |].
    destruct (Mapping.l_error st); [discriminate |]. intros [= <-].
    eexists _, shown. split; [reflexivity |]. split; [reflexivity |].
    destruct unknown_keys; try exact Hres.
    rewrite lookup_union_r by exact Hrest. exact Hres.
  - destruct (Mapping.loop _ _ _ _ after _) as [st | |] eqn:Hafter;
      [| discriminate | discriminate].
    apply Mapping_loop_error_Some in Hafter as [err Herr];
      [| simpl; unfold collect; eauto].
    unfold Mapping.finish. rewrite Herr.
    destruct (match unknown_keys with raise => _ | _ => false end); discriminate.
  - discriminate.
Qed.

(** Counterexample to C2: an optional Integer child whose default is the
    string ['abc'].  Outbound conversion of the empty dictionary hands the
    default to the child's converter, which fails on it, and the Mapping
    fails. *)
Lemma Mapping_serialize_default_fails :
  let child := x_child (Some (VStr "abc")) [] in
  let schema := x_mapping None "" (Some (VStr "abc")) [] ignore in
  SchemaNode.serialize schema (VDict ∅)
  = Raise (Agg.aggregate schema
             [Agg.tag schema 0
                (Invalid.new child (Some "'abc' is not a number"))]).
Proof. vm_compute. reflexivity. Qed.

(** C2, amended.  A Mapping node, an input that [dict()] accepts, and a
    declared child with a default whose name the input lacks.

    Inbound, the child's turn yields its default as it is, whatever the
    type and the validator of the child: the child contributes no failure,
    and a conversion that returns holds the default under the child's name
    (when no later child bears the same name).

    Outbound, the child's turn is the child's own outbound conversion of
    its default: a conversion that returns holds what that conversion
    returned, and when it fails the Mapping fails as well, with that
    failure collected at the child's index (as long as no child ends in
    an exception other than [Invalid]). *)
Theorem Mapping_optional_child_absent unknown_keys node value d
    before child after default :
  typ node = Mapping unknown_keys ->
  Py.dict value = Py.DictOk d ->
  nodes node = before ++ child :: after ->
  default_ child = Some default ->
  d !! name child = None ->
  (MappingSpec.inbound_outcomes d (nodes node) !! length before
   = Some (Return default)
   /\ (forall e f, SchemaNode.deserialize node value = Raise e ->
       f ∈ e_children e -> e_pos f <> Some (length before))
   /\ (forall r, SchemaNode.deserialize node value = Return r ->
       name child ∉ name <$> after ->
       exists result, r = VDict result /\ result !! name child = Some default))
  /\ (MappingSpec.outbound_outcomes d (nodes node) !! length before
      = Some (SchemaNode.serialize child default)
      /\ (forall r, SchemaNode.serialize node value = Return r ->
          name child ∉ name <$> after ->
          exists result shown,
            r = VDict result
            /\ SchemaNode.serialize child default = Return shown
            /\ result !! name child = Some shown)
      /\ (forall f, SchemaNode.serialize child default = Raise f ->
          let os := MappingSpec.outbound_outcomes d (nodes node) in
          Forall Agg.caught os ->
          SchemaNode.serialize node value
          = Raise (MappingSpec.raised unknown_keys node d os)
          /\ Agg.tag node (length before) f
               ∈ Agg.failures node 0 os)).
Proof.
  intros Htyp Hdict Hnodes Hdefault Habsent.
  assert (Hin : MappingSpec.inbound_outcomes d (nodes node) !! length before
                = Some (Return default)).
  { rewrite Hnodes.
    exact (outcomes_absent _ (fun _ default => Return default) _ _ _ _ _
             Hdefault Habsent). }
  assert (Hout : MappingSpec.outbound_outcomes d (nodes node) !! length before
                 = Some (SchemaNode.serialize child default)).
  { rewrite Hnodes.
    exact (outcomes_absent _ (fun subnode default =>
                                SchemaNode.serialize subnode default) _ _ _ _ _
             Hdefault Habsent). }
  split; split; try assumption; split.
  - intros e f Hraise Hf Hpos.
    rewrite deserialize_unfold, Htyp in Hraise. unfold Mapping.deserialize in Hraise.
    destruct (Mapping._impl _ _ _ _ _) as [r | e' | x] eqn:Himpl;
      [| | discriminate].
    { apply validate_Raise in Hraise. rewrite Hraise in Hf.
      by apply elem_of_nil in Hf. }
    injection Hraise as ->.
    destruct (Mapping_impl_Raise _ _ _ _ _ _ _ Hdict Himpl) as [[msg ->] | ->].
    { by apply elem_of_nil in Hf. }
    simpl in Hf. apply failures_pos in Hf as (i & e0 & Hi & ->).
    simpl in Hpos. injection Hpos as ->.
    unfold MappingSpec.inbound_outcomes in Hin. rewrite Hin in Hi. discriminate.
  - intros r Hreturn Hlast.
    rewrite deserialize_unfold, Htyp in Hreturn.
    unfold Mapping.deserialize in Hreturn.
    destruct (Mapping._impl _ _ _ _ _) as [r' | |] eqn:Himpl;
      [| discriminate | discriminate].
    apply validate_Return in Hreturn as ->.
    destruct (Mapping_impl_Return_absent _ _ _ _ _ _ _ _ _ _ _
                Hdict Hnodes Hdefault Habsent Hlast Himpl)
      as (result & shown & -> & [= <-] & Hres).
    eauto.
  - intros r Hreturn Hlast.
    rewrite serialize_unfold, Htyp in Hreturn. unfold Mapping.serialize in Hreturn.
    apply (Mapping_impl_Return_absent _ _ _ _ _ _ _ _ _ _ _
             Hdict Hnodes Hdefault Habsent Hlast Hreturn).
  - intros f Hf os Hcaught.
    assert (Hfailed : Exists Agg.failed os).
    { apply Exists_exists. exists (Raise f). split; [| exact I].
      apply list_elem_of_lookup. exists (length before).
      unfold os. rewrite Hout, Hf. reflexivity. }
    split.
    + rewrite serialize_unfold, Htyp. unfold Mapping.serialize.
      apply (Mapping_impl_raised _ _ _ _ _ _ Hdict Hcaught Hfailed).
    + apply (failures_elem node os 0 (length before) f).
      unfold os. rewrite Hout, Hf. reflexivity.
Qed.

(** The empty dictionary lacks [x]: inbound the default ['7'] is taken as
    it is, outbound it goes through [Integer.serialize]. *)
Lemma Mapping_optional_child_absent_witness :
  MappingSpec.inbound_outcomes ∅ (nodes optional_x_mapping) !! 0
  = Some (Return (VStr "7"))
  /\ MappingSpec.outbound_outcomes ∅ (nodes optional_x_mapping) !! 0
     = Some (SchemaNode.serialize optional_x (VStr "7")).
Proof.
  pose proof (Mapping_optional_child_absent ignore optional_x_mapping (VDict ∅) ∅
                [] optional_x [] (VStr "7")
                eq_refl eq_refl eq_refl eq_refl eq_refl) as [[Hin _] [Hout _]].
  split; [exact Hin | exact Hout].
Defined.

(** ** Sequence: only the first child is consulted *)

Lemma failures_renode node node' os : forall num,
  Agg.failures node' num os
  = map (fun child => Invalid.set_parent child (Invalid.new node' None))
        (Agg.failures node num os).
Proof.
  induction os as [|o os IH]; intros num; simpl; [reflexivity |].
  destruct o; simpl; rewrite IH; reflexivity.
Qed.

Lemma positional_renode node node' wrap os :
  Agg.positional node' wrap os = renode_outcome node' (Agg.positional node wrap os).
Proof.
  unfold Agg.positional. destruct (Agg.cut os); [reflexivity |].
  rewrite (failures_renode node node').
  destruct (Agg.failures node 0 os); reflexivity.
Qed.

Lemma Sequence_validate_renode accept_scalar node node' value :
  Sequence._validate accept_scalar node' value
  = renode_outcome node' (Sequence._validate accept_scalar node value).
Proof.
  unfold Sequence._validate.
  destruct (Py.has___iter__ value && negb (Py.has_get value)).
  { destruct (Py.to_list value); reflexivity. }
  destruct accept_scalar; [reflexivity |].
  unfold raise_r. destruct (Py.percent_r value); reflexivity.
Qed.

Lemma validate_renode self self' value :
  validator self' = validator self ->
  SchemaNode.validate self' value
  = renode_outcome self' (SchemaNode.validate self value).
Proof.
  unfold SchemaNode.validate. intros ->.
  destruct (validator self) as [check|]; [| reflexivity].
  destruct (check value); reflexivity.
Qed.

Lemma Sequence_impl_renode accept_scalar callback node node' template rest rest' value :
  nodes node = template :: rest ->
  nodes node' = template :: rest' ->
  Sequence._impl accept_scalar callback node' value
  = renode_outcome node' (Sequence._impl accept_scalar callback node value).
Proof.
  intros Hnodes Hnodes'.
  rewrite (Sequence_impl_spec callback node template rest Hnodes).
  rewrite (Sequence_impl_spec callback node' template rest' Hnodes').
  rewrite (Sequence_validate_renode accept_scalar node node').
  destruct (Sequence._validate accept_scalar node value); try reflexivity.
  apply positional_renode.
Qed.

(** C10.  A Sequence node whose first child is [template], with any
    further children [extra], converts like the node that has [template]
    as its only child: same result, same uncaught exception, and the same
    failure (messages, positions, child failures) up to the schema node
    the failure refers to, which is the node converted.  The result is
    computed from the first child alone: each element of the validated
    input goes through [template]'s conversion, the values are returned as
    a list and the failures aggregated by position. *)
Theorem Sequence_first_child_only accept_scalar validator default name
    template extra value :
  let only :=
    mkSchemaNode (Sequence accept_scalar) validator default name [template] in
  let more :=
    mkSchemaNode (Sequence accept_scalar) validator default name
      (template :: extra) in
  (SchemaNode.deserialize more value
   = renode_outcome more (SchemaNode.deserialize only value)
   /\ SchemaNode.serialize more value
      = renode_outcome more (SchemaNode.serialize only value))
  /\ (forall items,
      Sequence._validate accept_scalar more value = Return items ->
      SchemaNode.deserialize more value
      = match Agg.positional more VList
                (map (SchemaNode.deserialize template) items) with
        | Return r => SchemaNode.validate more r
        | Raise e => Raise e
        | Uncaught x => Uncaught x
        end
      /\ SchemaNode.serialize more value
         = Agg.positional more VList (map (SchemaNode.serialize template) items)).
Proof.
  intros only more. split; [split |].
  - rewrite !deserialize_unfold. cbn [typ only more].
    unfold Sequence.deserialize.
    rewrite (Sequence_impl_renode accept_scalar _ only more template [] extra)
      by reflexivity.
    destruct (Sequence._impl _ _ only value); try reflexivity.
    apply validate_renode. reflexivity.
  - rewrite !serialize_unfold. cbn [typ only more].
    unfold Sequence.serialize.
    apply (Sequence_impl_renode accept_scalar _ only more template [] extra);
      reflexivity.
  - intros items Hitems. split.
    + rewrite deserialize_unfold. cbn [typ more]. unfold Sequence.deserialize.
      rewrite (Sequence_impl_spec _ more template extra eq_refl), Hitems.
      reflexivity.
    + rewrite serialize_unfold. cbn [typ more]. unfold Sequence.serialize.
      rewrite (Sequence_impl_spec _ more template extra eq_refl), Hitems.
      reflexivity.
Qed.

(** A second child changes nothing for [['1', 'bad', '3']]. *)
Lemma Sequence_first_child_only_witness :
  SchemaNode.deserialize
    (mkSchemaNode (Sequence false) None None "" [item; flag]) one_bad_three
  = renode_outcome (mkSchemaNode (Sequence false) None None "" [item; flag])
      (SchemaNode.deserialize (integers false) one_bad_three).
Proof.
  exact (proj1 (proj1 (Sequence_first_child_only false None None "" item [flag]
                         one_bad_three))).
Defined.

(** ** The report: empty segments and empty messages *)

Lemma fold_left_ext_in {A B : Type} (f g : A -> B -> A) (l : list B) : forall a,
  (forall a b, b ∈ l -> f a b = g a b) -> fold_left f l a = fold_left g l a.
Proof.
  induction l as [|b l IH]; intros a Hfg; simpl; [reflexivity |].
  rewrite Hfg by left. apply IH. intros a' b' Hb'. apply Hfg. by right.
Qed.

Lemma nonempty_spec s : Invalid.nonempty s = true <-> s <> "".
Proof.
  unfold Invalid.nonempty. destruct (String.eqb_spec s ""); simpl; split;
    congruence.
Qed.

Lemma present_cons part parts :
  ReportSpec.present (part :: parts)
  = (if Invalid.nonempty part then [part] else []) ++ ReportSpec.present parts.
Proof.
  unfold ReportSpec.present. destruct (Invalid.nonempty part) eqn:E.
  - apply nonempty_spec in E. by rewrite filter_cons_True.
  - rewrite filter_cons_False; [reflexivity |].
    intros H. apply nonempty_spec in H. congruence.
Qed.

(** One step of the inner loop of [asdict]. *)
Lemma walk_step keyparts msgs exc :
  Invalid.walk (keyparts, msgs) exc
  = (keyparts ++ ReportSpec.present [Invalid._keyname exc],
     msgs ++ ReportSpec.present (omap e_msg [exc])).
Proof.
  unfold Invalid.walk. rewrite present_cons. cbn [omap list_omap].
  destruct (e_msg exc) as [m|]; [rewrite present_cons |];
    repeat match goal with
           | |- context [Invalid.nonempty ?s] => destruct (Invalid.nonempty s)
           end;
    cbn [ReportSpec.present filter list_filter app]; rewrite ?app_nil_r;
    reflexivity.
Qed.

(** The inner loop of [asdict] keeps the key names and the messages that
    are not empty, in the order of the path. *)
Lemma walk_spec path : forall keyparts msgs,
  fold_left Invalid.walk path (keyparts, msgs)
  = (keyparts ++ ReportSpec.present (Invalid._keyname <$> path),
     msgs ++ ReportSpec.present (omap e_msg path)).
Proof.
  induction path as [|exc path IH]; intros keyparts msgs.
  - cbn. rewrite !app_nil_r. reflexivity.
  - cbn [fold_left]. rewrite walk_step, IH, <- !app_assoc.
    change (exc :: path) with ([exc] ++ path).
    rewrite fmap_app, omap_app. unfold ReportSpec.present.
    rewrite !filter_app. reflexivity.
Qed.

Lemma asdict_spec e :
  Invalid.asdict e
  = ReportSpec.report
      (fun path => Py.join "." (ReportSpec.present (Invalid._keyname <$> path)))
      ReportSpec.text (Invalid.paths e).
Proof.
  unfold Invalid.asdict, ReportSpec.report, ReportSpec.text.
  apply fold_left_ext_in. intros errors path _. rewrite walk_spec. reflexivity.
Qed.

(** A key joined from parts that are not empty is empty when there is no
    part, and begins with its first part otherwise. *)
Lemma join_present_head sep parts :
  match ReportSpec.present parts with
  | [] => Py.join sep (ReportSpec.present parts) = ""
  | part :: _ =>
      part <> ""
      /\ exists tail, Py.join sep (ReportSpec.present parts) = part +:+ tail
  end.
Proof.
  destruct (ReportSpec.present parts) as [|part rest] eqn:E; [reflexivity |].
  split.
  - assert (Hin : part ∈ ReportSpec.present parts) by (rewrite E; left).
    unfold ReportSpec.present in Hin. apply list_elem_of_filter in Hin. tauto.
  - destruct rest as [|part' rest]; simpl.
    + exists "". clear. induction part as [|c part IH]; [reflexivity |].
      change (String c part +:+ "") with (String c (part +:+ "")).
      f_equal. exact IH.
    + eexists. reflexivity.
Qed.

(** C9.  In the report of any failure tree, the entry of a path has for
    key the key names along the path that are not empty, joined with ".",
    and for value the messages along the path that are present and not
    empty, joined with "; ": a failure whose key name is empty contributes
    no segment, a failure without message contributes no message.  So no
    segment of a key is empty, and a key is either empty (no failure of
    the path has a key name) or begins with its first segment, not with a
    separator. *)
Theorem asdict_skips_empty e :
  Invalid.asdict e
  = ReportSpec.report
      (fun path => Py.join "." (ReportSpec.present (Invalid._keyname <$> path)))
      (fun path => Py.join "; " (ReportSpec.present (omap e_msg path)))
      (Invalid.paths e)
  /\ forall path,
     let parts := ReportSpec.present (Invalid._keyname <$> path) in
     Forall (fun part => part <> "") parts
     /\ match parts with
        | [] => Py.join "." parts = ""
        | part :: _ => exists tail, Py.join "." parts = part +:+ tail
        end.
Proof.
  split; [apply asdict_spec |].
  intros path parts. split.
  - apply Forall_forall. intros part Hin. unfold parts, ReportSpec.present in Hin.
    apply list_elem_of_filter in Hin. tauto.
  - pose proof (join_present_head "." (Invalid._keyname <$> path)) as H.
    fold parts in H. destruct parts; [exact H | tauto].
Qed.

(** ** The report: positions under positional parents *)

Lemma linked_unfold parent_node e :
  ReportSpec.linked parent_node e
  <-> e_parent e = parent_node
      /\ Forall (ReportSpec.linked (Some (e_node e))) (e_children e).
Proof.
  destruct e as [n m p pa cs]. simpl.
  split; intros [Hparent Hall]; (split; [exact Hparent |]).
  - induction cs as [|c cs IH]; [constructor |].
    destruct Hall as [Hc Hcs]. constructor; [exact Hc | exact (IH Hcs)].
  - induction cs as [|c cs IH]; [exact I |].
    inversion Hall; subst. split; [assumption | apply IH; assumption].
Qed.

Lemma linked_new node msg : ReportSpec.linked None (Invalid.new node msg).
Proof. apply linked_unfold. split; [reflexivity | constructor]. Qed.

Lemma linked_tag node num e :
  ReportSpec.linked None e -> ReportSpec.linked (Some node) (Agg.tag node num e).
Proof.
  intros [_ Hall]%linked_unfold. apply linked_unfold.
  split; [reflexivity | exact Hall].
Qed.

Lemma failures_linked node os : forall num,
  Forall raises_linked os ->
  Forall (ReportSpec.linked (Some node)) (Agg.failures node num os).
Proof.
  induction os as [|o os IH]; intros num Hos; simpl; [constructor |].
  inversion Hos as [|? ? Ho Hos']; subst.
  destruct o as [r | e | x]; try (apply IH; assumption).
  constructor; [| apply IH; assumption].
  apply linked_tag, Ho. reflexivity.
Qed.

Lemma linked_aggregate node fs :
  Forall (ReportSpec.linked (Some node)) fs ->
  ReportSpec.linked None (Agg.aggregate node fs).
Proof. intros H. apply linked_unfold. split; [reflexivity | exact H]. Qed.

Lemma positional_linked node wrap os :
  Forall raises_linked os -> raises_linked (Agg.positional node wrap os).
Proof.
  intros Hos e. unfold Agg.positional.
  destruct (Agg.cut os); [discriminate |].
  pose proof (failures_linked node os 0 Hos) as Hfs.
  destruct (Agg.failures node 0 os); [discriminate |].
  intros [= <-]. apply linked_aggregate, Hfs.
Qed.

Lemma raise_r_linked {A : Type} node value rest e :
  @raise_r A node value rest = Raise e -> ReportSpec.linked None e.
Proof.
  unfold raise_r. destruct (Py.percent_r value); [| discriminate].
  intros [= <-]. apply linked_new.
Qed.

Lemma outcomes_Forall (Q : outcome object -> Prop) cb dcb cs : forall d,
  (forall c subval, c ∈ cs -> Q (Mapping.attempt cb dcb c subval)) ->
  Forall Q (MappingSpec.outcomes cb dcb d cs).
Proof.
  induction cs as [|c cs IH]; intros d H; simpl; constructor.
  - apply H. left.
  - apply IH. intros c' subval Hc'. apply H. by right.
Qed.

Lemma zip_with_Forall (Q : outcome object -> Prop)
    (cb : SchemaNode -> object -> outcome object) cs : forall items,
  (forall c x, c ∈ cs -> Q (cb c x)) -> Forall Q (zip_with cb cs items).
Proof.
  induction cs as [|c cs IH]; intros items H; simpl; [constructor |].
  destruct items as [|x items]; constructor.
  - apply H. left.
  - apply IH. intros c' x' Hc'. apply H. by right.
Qed.

Lemma Mapping_impl_linked unknown_keys cb dcb node value :
  (forall c x, c ∈ nodes node -> raises_linked (cb c x)) ->
  (forall c x, c ∈ nodes node -> raises_linked (dcb c x)) ->
  raises_linked (Mapping._impl unknown_keys cb dcb node value).
Proof.
  intros Hcb Hdcb e Himpl.
  destruct (Py.dict value) as [d | msg |] eqn:Hdict.
  - destruct (Mapping_impl_Raise _ _ _ _ _ _ _ Hdict Himpl) as [[msg ->] | ->].
    + apply linked_new.
    + apply linked_aggregate, failures_linked, outcomes_Forall.
      intros c subval Hc e'. unfold Mapping.attempt.
      destruct subval as [x|]; [apply Hcb, Hc |].
      destruct (default_ c); [apply Hdcb, Hc |].
      intros [= <-]. apply linked_new.
  - unfold Mapping._impl, Mapping._validate in Himpl. rewrite Hdict in Himpl.
    injection Himpl as <-. apply linked_new.
  - unfold Mapping._impl, Mapping._validate in Himpl. rewrite Hdict in Himpl.
    discriminate.
Qed.

Lemma Tuple_impl_linked cb node value :
  (forall c x, c ∈ nodes node -> raises_linked (cb c x)) ->
  raises_linked (Tuple._impl cb node value).
Proof.
  intros Hcb e. rewrite Tuple_impl_spec.
  destruct (Tuple._validate node value) as [items | e' |] eqn:Hv.
  - apply positional_linked, zip_with_Forall, Hcb.
  - intros [= <-]. revert Hv. unfold Tuple._validate.
    destruct (negb _); [apply raise_r_linked |].
    destruct (Py.len value); [| discriminate].
    destruct (negb _); [| destruct (Py.to_list value); discriminate].
    destruct (Py.str value); [| discriminate].
    intros [= <-]. apply linked_new.
  - discriminate.
Qed.

Lemma Sequence_impl_linked accept_scalar cb node value :
  (forall c x, c ∈ nodes node -> raises_linked (cb c x)) ->
  raises_linked (Sequence._impl accept_scalar cb node value).
Proof.
  intros Hcb e.
  assert (Hvalidate : forall e',
             Sequence._validate accept_scalar node value = Raise e' ->
             ReportSpec.linked None e').
  { intros e'. unfold Sequence._validate.
    destruct (Py.has___iter__ value && negb (Py.has_get value)).
    { destruct (Py.to_list value); discriminate. }
    destruct accept_scalar; [discriminate | apply raise_r_linked]. }
  destruct (nodes node) as [|template rest] eqn:Hnodes.
  - unfold Sequence._impl.
    destruct (Sequence._validate accept_scalar node value) as [items | e' |];
      [| intros [= <-]; apply Hvalidate; reflexivity | discriminate].
    destruct items; simpl; rewrite ?Hnodes; discriminate.
  - rewrite (Sequence_impl_spec cb node template rest Hnodes).
    destruct (Sequence._validate accept_scalar node value) as [items | e' |];
      [| intros [= <-]; apply Hvalidate; reflexivity | discriminate].
    apply positional_linked, List.Forall_map, Forall_forall.
    intros x _. apply Hcb. left.
Qed.

Lemma validate_linked self value : raises_linked (SchemaNode.validate self value).
Proof.
  intros e. unfold SchemaNode.validate.
  destruct (validator self) as [check|]; [| discriminate].
  destruct (check value); [| discriminate]. intros [= <-]. apply linked_new.
Qed.

Lemma Leaf_run_linked node converted : raises_linked (Leaf.run node converted).
Proof.
  intros e. destruct converted; simpl; [discriminate |].
  intros [= <-]. apply linked_new.
Qed.

(** Every failure a conversion raises is linked, and has no parent. *)
Lemma conversions_linked node : forall value,
  raises_linked (SchemaNode.deserialize node value)
  /\ raises_linked (SchemaNode.serialize node value).
Proof.
  induction node as [t v d nm ns IH] using SchemaNode_tree_ind.
  rewrite Forall_forall in IH.
  intros value. split.
  - rewrite deserialize_unfold. intros e.
    match goal with
    | |- match ?conv with _ => _ end = _ -> _ =>
        assert (Hconv : raises_linked conv); [| destruct conv as [r | e' | x] ]
    end.
    + destruct t; cbn [typ].
      * apply Mapping_impl_linked; cbn [nodes].
        -- intros c x Hc. apply (IH c Hc x).
        -- intros c x _ e' [=].
      * apply Tuple_impl_linked; cbn [nodes]. intros c x Hc. apply (IH c Hc x).
      * apply Sequence_impl_linked; cbn [nodes]. intros c x Hc. apply (IH c Hc x).
      * unfold Integer.deserialize. intros e'. destruct (Py.int value);
          [discriminate | apply raise_r_linked].
      * unfold Boolean.deserialize. intros e'. destruct (Py.str value);
          [| apply raise_r_linked].
        destruct (_ || _); discriminate.
      * apply Leaf_run_linked.
    + apply validate_linked.
    + intros [= <-]. apply Hconv. reflexivity.
    + discriminate.
  - rewrite serialize_unfold. destruct t; cbn [typ].
    + apply Mapping_impl_linked; cbn [nodes]; intros c x Hc; apply (IH c Hc x).
    + apply Tuple_impl_linked; cbn [nodes]. intros c x Hc. apply (IH c Hc x).
    + apply Sequence_impl_linked; cbn [nodes]. intros c x Hc. apply (IH c Hc x).
    + unfold Integer.serialize. intros e'. destruct (Py.int value);
        [discriminate | apply raise_r_linked].
    + discriminate.
    + apply Leaf_run_linked.
Qed.

Lemma keyname_segment e :
  Invalid._keyname e = ReportSpec.segment (e_parent e) e.
Proof. reflexivity. Qed.

(** Along every path of a linked tree, the key names are the segments
    read off the path itself. *)
Lemma traverse_linked e : forall parent_node stack path,
  ReportSpec.linked parent_node e ->
  path ∈ Invalid.traverse e stack ->
  exists chain,
    path = stack ++ chain
    /\ Invalid._keyname <$> chain = ReportSpec.segments parent_node chain.
Proof.
  induction e as [n m p pa cs IH] using Invalid_tree_ind.
  intros parent_node stack path [Hparent Hall]%linked_unfold Hpath.
  cbn [e_parent e_node e_children] in Hparent, Hall.
  cbn [Invalid.traverse e_children] in Hpath.
  apply elem_of_app in Hpath as [Hleaf | Hchild].
  - destruct cs; [| by apply elem_of_nil in Hleaf].
    apply list_elem_of_singleton in Hleaf as ->.
    eexists [_]. split; [reflexivity |].
    cbn. rewrite keyname_segment. cbn [e_parent]. rewrite Hparent. reflexivity.
  - apply list_elem_of_In, in_flat_map in Hchild as (child & Hin & Hchild).
    apply list_elem_of_In in Hin, Hchild.
    rewrite Forall_forall in IH, Hall.
    destruct (IH child Hin (Some n) _ _ (Hall child Hin) Hchild)
      as (chain & -> & Hkeys).
    eexists (_ :: chain). split; [rewrite <- app_assoc; reflexivity |].
    cbn. rewrite Hkeys, keyname_segment. cbn [e_parent]. rewrite Hparent.
    reflexivity.
Qed.

Lemma linked_report e :
  ReportSpec.linked None e ->
  Invalid.asdict e
  = ReportSpec.report ReportSpec.key ReportSpec.text (Invalid.paths e).
Proof.
  intros Hlinked. rewrite asdict_spec. unfold ReportSpec.report.
  apply fold_left_ext_in. intros errors path Hpath.
  destruct (traverse_linked e None [] path Hlinked Hpath) as (chain & -> & Hkeys).
  unfold ReportSpec.key. cbn [app]. rewrite Hkeys. reflexivity.
Qed.

(** C7.  In the report of a failure that a conversion raised, the key of
    each leaf path is built by walking the path: a failure under a parent
    whose schema node is positional (Sequence or Tuple) gives its position
    as a string, any other failure the name of its node; the segments that
    are not empty are joined with ".".  So a Sequence of Integer nodes
    given [['1', 'bad', '3']] fails with a report whose one key is ["1"],
    the position of the bad element, not the name of the template node. *)
Theorem report_keys_by_position :
  (forall node value e,
     SchemaNode.deserialize node value = Raise e
     \/ SchemaNode.serialize node value = Raise e ->
     Invalid.asdict e
     = ReportSpec.report ReportSpec.key ReportSpec.text (Invalid.paths e))
  /\ SchemaNode.deserialize (integers false) one_bad_three
     = Raise (bad_at_1 false)
  /\ Invalid.asdict (bad_at_1 false) = {["1" := "'bad' is not a number"]}
  /\ name item <> "1".
Proof.
  split; [| split; [| split]].
  - intros node value e Hraised. apply linked_report.
    destruct (conversions_linked node value) as [Hin Hout].
    destruct Hraised as [H | H]; [apply Hin | apply Hout]; exact H.
  - vm_compute. reflexivity.
  - vm_compute. reflexivity.
  - discriminate.
Qed.

Lemma report_keys_by_position_witness :
  Invalid.asdict (bad_at_1 true)
  = ReportSpec.report ReportSpec.key ReportSpec.text
      (Invalid.paths (bad_at_1 true)).
Proof.
  refine (proj1 report_keys_by_position (integers true) one_bad_three
            (bad_at_1 true) _).
  left. reflexivity.
Defined.

(** ** Round trip *)

Lemma valid_unfold node v :
  RoundTrip.valid node v
  <-> RoundTrip.accepted node v
      /\ match typ node, v with
         | Boolean, VBool _ => True
         | Mapping unknown_keys, VDict d =>
             RoundTrip.entries RoundTrip.valid unknown_keys (nodes node) d
         | Sequence _, VList l =>
             match nodes node with
             | [] => l = []
             | template :: _ => Forall (RoundTrip.valid template) l
             end
         | Tuple, VTuple l => RoundTrip.positions RoundTrip.valid (nodes node) l
         | _, _ => False
         end.
Proof. destruct node; reflexivity. Qed.

Lemma positional_Return node wrap os rs :
  Forall2 (fun o r => o = Return r) os rs ->
  Agg.positional node wrap os = Return (wrap rs).
Proof.
  intros H. unfold Agg.positional.
  assert (Hall : Agg.cut os = None /\ Agg.returns os = rs
                 /\ forall num, Agg.failures node num os = []).
  { induction H as [|o r os rs -> _ (Hcut & Hret & Hfail)]; simpl; [auto |].
    rewrite Hcut, Hret. auto. }
  destruct Hall as (-> & -> & ->). reflexivity.
Qed.

(** *** The elements of a Sequence and of a Tuple *)

Lemma round_trips_elements template l :
  Forall (RoundTrip.round_trips template) l ->
  exists externals,
    Forall2 (fun o r => o = Return r)
      (map (SchemaNode.serialize template) l) externals
    /\ Forall2 (fun o r => o = Return r)
         (map (SchemaNode.deserialize template) externals) l.
Proof.
  induction 1 as [|x l (external & Hser & Hde) _ (externals & Hsers & Hdes)].
  - exists []. split; constructor.
  - exists (external :: externals). split; constructor; assumption.
Qed.

Lemma round_trips_positions subnodes : forall l,
  Forall (fun subnode => forall x,
            RoundTrip.valid subnode x -> RoundTrip.round_trips subnode x)
         subnodes ->
  RoundTrip.positions RoundTrip.valid subnodes l ->
  exists externals,
    length externals = length subnodes
    /\ length l = length subnodes
    /\ Forall2 (fun o r => o = Return r)
         (zip_with SchemaNode.serialize subnodes l) externals
    /\ Forall2 (fun o r => o = Return r)
         (zip_with SchemaNode.deserialize subnodes externals) l.
Proof.
  induction subnodes as [|subnode subnodes IH]; intros l Hsub Hpos.
  - destruct l; [| contradiction]. exists []. repeat split; constructor.
  - destruct l as [|x l]; [contradiction |]. destruct Hpos as [Hx Hl].
    inversion Hsub as [|? ? Hhead Htail]; subst.
    destruct (Hhead x Hx) as (external & Hser & Hde).
    destruct (IH l Htail Hl) as (externals & Hlen & Hlen' & Hsers & Hdes).
    exists (external :: externals). simpl.
    repeat split; try (constructor; assumption); congruence.
Qed.

(** *** The entries of a Mapping *)

Lemma entries_facts valid unknown_keys cs : forall d,
  RoundTrip.entries valid unknown_keys cs d ->
  NoDup (name <$> cs)
  /\ (forall c, c ∈ cs -> exists x, d !! name c = Some x /\ valid c x)
  /\ (unknown_keys = preserve \/ MappingSpec.unmatched d cs = ∅).
Proof.
  induction cs as [|c cs IH]; intros d H; simpl in H.
  - split; [constructor |]. split; [| exact H].
    intros c Hc. by apply elem_of_nil in Hc.
  - destruct H as (x & Hx & Hvalid & Hrest).
    destruct (IH _ Hrest) as (Hnodup & Hall & Hleft).
    split; [| split].
    + rewrite fmap_cons. constructor; [| exact Hnodup].
      intros (c' & Hname & Hc')%list_elem_of_fmap.
      destruct (Hall c' Hc') as (x' & Hx' & _).
      rewrite <- Hname, lookup_delete_eq in Hx'. discriminate.
    + intros c' [-> | Hc']%elem_of_cons; [eauto |].
      destruct (Hall c' Hc') as (x' & Hx' & Hvalid').
      exists x'. split; [| exact Hvalid'].
      apply lookup_delete_Some in Hx'. tauto.
    + exact Hleft.
Qed.

(** The loop on an input that holds an entry for every child, when the
    conversion of every entry returns: [converted] maps the name of each
    child to what the conversion returned. *)
Lemma Mapping_loop_all_return cb dcb node (converted : gmap string object) cs :
  forall num value result error,
  NoDup (name <$> cs) ->
  (forall c, c ∈ cs ->
     exists x r, value !! name c = Some x /\ cb c x = Return r
                 /\ converted !! name c = Some r) ->
  exists result',
    Mapping.loop cb dcb node num cs (Mapping.mkLocals value result error)
    = Return (Mapping.mkLocals (MappingSpec.unmatched value cs) result' error)
    /\ forall k, result' !! k
                 = if decide (k ∈ name <$> cs) then converted !! k
                   else result !! k.
Proof.
  induction cs as [|c cs IH]; intros num value result error Hnodup Hall.
  - exists result. split; [reflexivity |]. intros k.
    destruct (decide _) as [Hk | _]; [by apply elem_of_nil in Hk | reflexivity].
  - rewrite fmap_cons in Hnodup. apply NoDup_cons in Hnodup as [Hfresh Hnodup].
    destruct (Hall c) as (x & r & Hx & Hr & Hconv); [left |].
    cbn [Mapping.loop Mapping.l_value Mapping.l_result Mapping.l_error].
    rewrite Hx. cbn [Mapping.attempt]. rewrite Hr.
    destruct (IH (S num) (delete (name c) value) (<[name c := r]> result) error
                Hnodup) as (result' & Hloop & Hlookup).
    { intros c' Hc'. destruct (Hall c') as (x' & r' & Hx' & Hr' & Hconv');
        [by right |].
      exists x', r'. split; [| auto].
      rewrite lookup_delete_ne; [exact Hx' |].
      intros Heq. apply Hfresh. rewrite Heq. apply list_elem_of_fmap. eauto. }
    exists result'. split; [exact Hloop |].
    intros k. rewrite Hlookup, fmap_cons.
    destruct (decide (k ∈ name <$> cs)) as [Hin | Hnin];
      destruct (decide (k ∈ name c :: (name <$> cs))) as [Hin' | Hnin'];
      try reflexivity.
    + exfalso. apply Hnin'. by right.
    + apply elem_of_cons in Hin' as [-> | ?]; [| done].
      rewrite lookup_insert_eq. congruence.
    + apply lookup_insert_ne. intros <-. apply Hnin'. left.
Qed.

(** For each child a converted entry, gathered in one dictionary. *)
Lemma gather_converted (d : gmap string object)
    (R : SchemaNode -> object -> object -> Prop) cs :
  NoDup (name <$> cs) ->
  (forall c, c ∈ cs -> exists x r, d !! name c = Some x /\ R c x r) ->
  exists converted : gmap string object,
    forall c, c ∈ cs ->
      exists x r, d !! name c = Some x /\ R c x r
                  /\ converted !! name c = Some r.
Proof.
  induction cs as [|c cs IH]; intros Hnodup Hall.
  - exists ∅. intros c Hc. by apply elem_of_nil in Hc.
  - rewrite fmap_cons in Hnodup. apply NoDup_cons in Hnodup as [Hfresh Hnodup].
    destruct IH as [converted Hconv]; [exact Hnodup | |].
    { intros c' Hc'. apply Hall. by right. }
    destruct (Hall c) as (x & r & Hx & HR); [left |].
    exists (<[name c := r]> converted).
    intros c' [-> | Hc']%elem_of_cons.
    + exists x, r. rewrite lookup_insert_eq. auto.
    + destruct (Hconv c' Hc') as (x' & r' & Hx' & HR' & Hr').
      exists x', r'. split; [exact Hx' |]. split; [exact HR' |].
      rewrite lookup_insert_ne; [exact Hr' |].
      intros Heq. apply Hfresh. rewrite Heq. apply list_elem_of_fmap. eauto.
Qed.

Lemma Mapping_finish_Return unknown_keys node value result :
  (unknown_keys = raise -> value = ∅) ->
  Mapping.finish unknown_keys node (Mapping.mkLocals value result None)
  = Return (VDict match unknown_keys with
                  | preserve => value ∪ result
                  | _ => result
                  end).
Proof.
  intros Hraise. unfold Mapping.finish. cbn [Mapping.l_value Mapping.l_result
                                              Mapping.l_error].
  destruct unknown_keys; try reflexivity.
  rewrite (Hraise eq_refl). reflexivity.
Qed.

Lemma Mapping_round_trip unknown_keys node d :
  (forall c, c ∈ nodes node ->
     forall x, RoundTrip.valid c x -> RoundTrip.round_trips c x) ->
  RoundTrip.entries RoundTrip.valid unknown_keys (nodes node) d ->
  exists external,
    Mapping.serialize SchemaNode.serialize unknown_keys node (VDict d)
    = Return (VDict external)
    /\ Mapping.deserialize SchemaNode.deserialize unknown_keys node
         (VDict external)
       = Return (VDict d).
Proof.
  intros IH Hentries.
  destruct (entries_facts _ _ _ _ Hentries) as (Hnodup & Hall & Hleft).
  set (cs := nodes node) in *.
  set (U := MappingSpec.unmatched d cs) in *.
  destruct (gather_converted d
              (fun c x r => SchemaNode.serialize c x = Return r
                            /\ SchemaNode.deserialize c r = Return x)
              cs Hnodup) as [X HX].
  { intros c Hc. destruct (Hall c Hc) as (x & Hx & Hvalid).
    destruct (IH c Hc x Hvalid) as (r & Hser & Hde). eauto. }
  (* outbound *)
  destruct (Mapping_loop_all_return
              (fun subnode subval => SchemaNode.serialize subnode subval)
              (fun subnode default => SchemaNode.serialize subnode default)
              node X cs 0 d ∅ None Hnodup) as (shown & Hout & Hshown).
  { intros c Hc. destruct (HX c Hc) as (x & r & Hx & [Hser _] & Hr). eauto. }
  set (external := match unknown_keys with
                   | preserve => U ∪ shown
                   | _ => shown
                   end).
  assert (Hraise : unknown_keys = raise -> U = ∅).
  { intros ->. destruct Hleft as [? | ?]; [discriminate | assumption]. }
  assert (HU : forall k, U !! k = if decide (k ∈ name <$> cs) then None else d !! k)
    by (intros k; apply unmatched_lookup).
  assert (Hexternal : forall k,
             external !! k
             = if decide (k ∈ name <$> cs) then X !! k
               else match unknown_keys with
                    | preserve => d !! k
                    | _ => None
                    end).
  { intros k. unfold external. specialize (Hshown k). specialize (HU k).
    rewrite lookup_empty in Hshown.
    destruct unknown_keys; try exact Hshown.
    destruct (decide (k ∈ name <$> cs)).
    - rewrite lookup_union_r by exact HU. exact Hshown.
    - rewrite lookup_union_l by exact Hshown. exact HU. }
  (* inbound *)
  destruct (Mapping_loop_all_return
              (fun subnode subval => SchemaNode.deserialize subnode subval)
              (fun subnode default => Return default)
              node d cs 0 external ∅ None Hnodup) as (back & Hin & Hback).
  { intros c Hc. destruct (HX c Hc) as (x & r & Hx & [_ Hde] & Hr).
    exists r, x. split; [| auto].
    rewrite Hexternal, decide_True; [exact Hr |].
    apply list_elem_of_fmap. eauto. }
  set (U' := MappingSpec.unmatched external cs) in *.
  assert (HU' : forall k, U' !! k
                          = if decide (k ∈ name <$> cs) then None
                            else external !! k)
    by (intros k; apply unmatched_lookup).
  assert (Hd_other : unknown_keys <> preserve ->
                     forall k, k ∉ name <$> cs -> d !! k = None).
  { intros Hne k Hk. destruct Hleft as [? | Hempty]; [done |].
    specialize (HU k). rewrite Hempty, lookup_empty, decide_False in HU by exact Hk.
    congruence. }
  exists external. split.
  - unfold Mapping.serialize, Mapping._impl, Mapping._validate.
    cbn [Py.dict]. fold cs. rewrite Hout.
    apply Mapping_finish_Return, Hraise.
  - unfold Mapping.deserialize, Mapping._impl, Mapping._validate.
    cbn [Py.dict]. fold cs. rewrite Hin.
    rewrite Mapping_finish_Return.
    + do 2 f_equal. apply map_eq. intros k.
      specialize (Hback k). specialize (HU' k). specialize (Hexternal k).
      rewrite lookup_empty in Hback.
      destruct (decide (k ∈ name <$> cs)) as [Hk | Hk].
      * destruct unknown_keys; try exact Hback.
        rewrite lookup_union_r by exact HU'. exact Hback.
      * destruct unknown_keys.
        -- rewrite Hback. symmetry. apply Hd_other; [discriminate | exact Hk].
        -- rewrite Hback. symmetry. apply Hd_other; [discriminate | exact Hk].
        -- rewrite lookup_union_l by exact Hback. congruence.
    + intros ->. apply map_eq. intros k. rewrite HU', Hexternal, lookup_empty.
      destruct (decide _); reflexivity.
Qed.

Lemma Boolean_round_trip node b :
  Boolean.serialize node (VBool b)
  = Return (VStr (if b then "true" else "false"))
  /\ Boolean.deserialize node (VStr (if b then "true" else "false"))
     = Return (VBool b).
Proof. destruct b; split; reflexivity. Qed.

(** C3.  For a tree of Mapping, Sequence and Tuple nodes whose leaves are
    Boolean nodes, and a valid internal value [v] of the tree: outbound
    conversion of [v] returns, and inbound conversion of what it returned
    returns [v]. *)
Theorem round_trip node : forall v,
  RoundTrip.valid node v ->
  exists external,
    SchemaNode.serialize node v = Return external
    /\ SchemaNode.deserialize node external = Return v.
Proof.
  induction node as [t check default nm ns IH] using SchemaNode_tree_ind.
  rewrite Forall_forall in IH.
  intros v [Haccepted Hshape]%valid_unfold.
  unfold RoundTrip.accepted in Haccepted.
  set (node := mkSchemaNode t check default nm ns) in *.
  rewrite serialize_unfold.
  setoid_rewrite deserialize_unfold.
  cbn [typ nodes node] in Hshape |- *.
  destruct t as [unknown_keys | | accept_scalar | | |]; try contradiction.
  - (* Mapping *)
    destruct v as [| | | | | | | d]; try contradiction.
    destruct (Mapping_round_trip unknown_keys node d) as (external & Hout & Hin);
      [exact IH | exact Hshape |].
    exists (VDict external). rewrite Hout, Hin. auto.
  - (* Tuple *)
    destruct v as [| | | | | | l |]; try contradiction.
    destruct (round_trips_positions ns l) as (externals & Hlen & Hlen' & Hout & Hin);
      [apply Forall_forall; exact IH | exact Hshape |].
    exists (VTuple externals).
    unfold Tuple.serialize, Tuple.deserialize. rewrite !Tuple_impl_spec.
    unfold Tuple._validate. cbn [Py.has___iter__ negb Py.len Py.str Py.to_list nodes node].
    rewrite Hlen, Hlen', Nat.eqb_refl. cbn [negb].
    rewrite (positional_Return _ _ _ _ Hout), (positional_Return _ _ _ _ Hin).
    auto.
  - (* Sequence *)
    destruct v as [| | | | | l | |]; try contradiction.
    unfold Sequence.serialize, Sequence.deserialize.
    destruct ns as [|template rest].
    + subst l. exists (VList []). split; [reflexivity |]. exact Haccepted.
    + destruct (round_trips_elements template l) as (externals & Hout & Hin).
      { eapply Forall_impl; [exact Hshape |]. apply IH. left. }
      exists (VList externals).
      rewrite !(Sequence_impl_spec _ node template rest eq_refl).
      unfold Sequence._validate.
      cbn [Py.has___iter__ Py.has_get negb andb Py.to_list].
      rewrite (positional_Return _ _ _ _ Hout), (positional_Return _ _ _ _ Hin).
      auto.
  - (* Boolean *)
    destruct v as [| b | | | | | |]; try contradiction.
    destruct (Boolean_round_trip node b) as [Hout Hin].
    eexists. split; [exact Hout |]. rewrite Hin. exact Haccepted.
Qed.

Lemma round_trip_witness :
  exists external,
    SchemaNode.serialize flags_schema flags_value = Return external
    /\ SchemaNode.deserialize flags_schema external = Return flags_value.
Proof.
  apply (round_trip flags_schema flags_value).
  apply valid_unfold. split; [reflexivity |].
  cbn. eexists. split; [reflexivity |]. split.
  { apply valid_unfold. split; [reflexivity | exact I]. }
  eexists. split; [reflexivity |]. split.
  { apply valid_unfold. split; [reflexivity |]. cbn.
    repeat constructor. }
  right. vm_compute. reflexivity.
Defined.

(* ===================================================================== *)
(** * Further properties of the conversions *)
(* ===================================================================== *)

(** ** Sequence and Tuple: what a conversion that returns holds *)

Lemma positional_Return_inv node wrap os r :
  Agg.positional node wrap os = Return r ->
  exists rs, r = wrap rs /\ Forall2 (fun o y => o = Return y) os rs.
Proof.
  unfold Agg.positional.
  destruct (Agg.cut os) eqn:Hcut; [discriminate |].
  destruct (Agg.failures node 0 os) eqn:Hfs; [| discriminate].
  intros [= <-]. exists (Agg.returns os). split; [reflexivity |].
  revert Hcut Hfs. generalize 0.
  induction os as [|o os IH]; intros num Hcut Hfs; simpl in *; [constructor |].
  destruct o as [y | e | x]; [| discriminate | discriminate].
  constructor; [reflexivity | exact (IH _ Hcut Hfs)].
Qed.

Lemma Forall2_map_Return {A : Type} (f : A -> outcome object) items rs :
  Forall2 (fun o y => o = Return y) (map f items) rs ->
  Forall2 (fun x y => f x = Return y) items rs.
Proof.
  revert rs. induction items as [|x items IH]; intros rs H; simpl in H;
    inversion H; subst; constructor; auto.
Qed.

(** X1.  A Sequence conversion that returns holds a list with one element for
    each element of the validated input, in the same order, the element at
    each position being what the first child's conversion returned for the
    input's element at that position. *)
Theorem Sequence_result_elementwise accept_scalar node template rest value :
  typ node = Sequence accept_scalar ->
  nodes node = template :: rest ->
  (forall r, SchemaNode.deserialize node value = Return r ->
     exists items results,
       Sequence._validate accept_scalar node value = Return items
       /\ r = VList results
       /\ Forall2 (fun x y => SchemaNode.deserialize template x = Return y)
            items results)
  /\ (forall r, SchemaNode.serialize node value = Return r ->
        exists items results,
          Sequence._validate accept_scalar node value = Return items
          /\ r = VList results
          /\ Forall2 (fun x y => SchemaNode.serialize template x = Return y)
               items results).
Proof.
  intros Htyp Hnodes. split; intros r.
  - rewrite deserialize_unfold, Htyp. unfold Sequence.deserialize.
    rewrite (Sequence_impl_spec _ node template rest Hnodes).
    destruct (Sequence._validate accept_scalar node value) as [items | |];
      [| discriminate | discriminate].
    destruct (Agg.positional _ _ _) as [r' | |] eqn:Hpos;
      [| discriminate | discriminate].
    intros ->%validate_Return.
    apply positional_Return_inv in Hpos as (rs & -> & Hall).
    exists items, rs. split; [reflexivity |]. split; [reflexivity |].
    apply Forall2_map_Return in Hall. exact Hall.
  - rewrite serialize_unfold, Htyp. unfold Sequence.serialize.
    rewrite (Sequence_impl_spec _ node template rest Hnodes).
    destruct (Sequence._validate accept_scalar node value) as [items | |];
      [| discriminate | discriminate].
    intros (rs & -> & Hall)%positional_Return_inv.
    exists items, rs. split; [reflexivity |]. split; [reflexivity |].
    apply Forall2_map_Return in Hall. exact Hall.
Qed.

Lemma Sequence_result_elementwise_witness :
  exists items results,
    Sequence._validate false (integers false) (VTuple [VStr "1"; VStr "2"])
    = Return items
    /\ VList [VInt 1; VInt 2] = VList results
    /\ Forall2 (fun x y => SchemaNode.deserialize item x = Return y)
         items results.
Proof.
  refine (proj1 (Sequence_result_elementwise false (integers false) item []
                   (VTuple [VStr "1"; VStr "2"]) _ _)
            (VList [VInt 1; VInt 2]) _); reflexivity.
Defined.

(** X2.  A Tuple conversion whose input validates converts every element with
    the child at its position, whatever happens to the others: it returns
    the tuple of the values when every child returns, and otherwise raises
    one aggregate on the Tuple node holding the failure of every child that
    failed, each at its position (or passes on the first exception that is
    not [Invalid]).  Inbound, the tuple then goes to the node's
    validator. *)
Theorem Tuple_collects_failures node value items :
  typ node = Tuple ->
  Tuple._validate node value = Return items ->
  SchemaNode.deserialize node value
  = match Agg.positional node VTuple
            (zip_with SchemaNode.deserialize (nodes node) items) with
    | Return r => SchemaNode.validate node r
    | Raise e => Raise e
    | Uncaught x => Uncaught x
    end
  /\ SchemaNode.serialize node value
     = Agg.positional node VTuple
         (zip_with SchemaNode.serialize (nodes node) items).
Proof.
  intros Htyp Hitems. split.
  - rewrite deserialize_unfold, Htyp. unfold Tuple.deserialize.
    rewrite Tuple_impl_spec, Hitems. reflexivity.
  - rewrite serialize_unfold, Htyp. unfold Tuple.serialize.
    rewrite Tuple_impl_spec, Hitems. reflexivity.
Qed.

Lemma Tuple_collects_failures_witness :
  SchemaNode.deserialize three_integers (VList [VStr "x"; VStr "2"; VStr "z"])
  = Raise (Agg.aggregate three_integers
             [Agg.tag three_integers 0
                (Invalid.new (mkSchemaNode Integer None None "a" [])
                   (Some "'x' is not a number"));
              Agg.tag three_integers 2
                (Invalid.new (mkSchemaNode Integer None None "c" [])
                   (Some "'z' is not a number"))]).
Proof.
  refine (proj1 (Tuple_collects_failures three_integers
                   (VList [VStr "x"; VStr "2"; VStr "z"])
                   [VStr "x"; VStr "2"; VStr "z"] _ _)); reflexivity.
Defined.

(** ** Mapping: unknown keys and the keys of the result *)

Lemma dom_unmatched (d : gmap string object) cs :
  dom (MappingSpec.unmatched d cs) = dom d ∖ list_to_set (name <$> cs).
Proof.
  apply set_eq. intros k.
  rewrite elem_of_difference, !elem_of_dom, unmatched_lookup, elem_of_list_to_set.
  destruct (decide (k ∈ name <$> cs)) as [Hk | Hk].
  - split; [intros [? [=]] | tauto].
  - tauto.
Qed.

Section Mapping_loop_more.
Variable callback : SchemaNode -> object -> outcome object.
Variable default_callback : SchemaNode -> object -> outcome object.
Variable node : SchemaNode.

Local Abbreviation loop := (Mapping.loop callback default_callback node).

(** A loop that ends without a failure collected has stored an entry for
    every child. *)
Lemma Mapping_loop_result_dom cs : forall num st st',
  loop num cs st = Return st' ->
  Mapping.l_error st' = None ->
  dom (Mapping.l_result st')
  = dom (Mapping.l_result st) ∪ list_to_set (name <$> cs).
Proof.
  induction cs as [|c cs IH]; intros num st st' Hloop Herr; simpl in *.
  - injection Hloop as <-. set_solver.
  - destruct (Mapping.attempt _ _ c _); [| | discriminate].
    + rewrite (IH _ _ _ Hloop Herr). simpl. rewrite dom_insert_L. set_solver.
    + apply Mapping_loop_error_Some in Hloop as [err Hsome];
        [congruence | simpl; unfold collect; eauto].
Qed.

(** The loop looks at the input under the names of the children only. *)
Lemma Mapping_loop_agree cs : forall num (value value' : gmap string object)
    result error,
  (forall c, c ∈ cs -> value !! name c = value' !! name c) ->
  match loop num cs (Mapping.mkLocals value result error),
        loop num cs (Mapping.mkLocals value' result error) with
  | Return st, Return st' =>
      Mapping.l_result st = Mapping.l_result st'
      /\ Mapping.l_error st = Mapping.l_error st'
  | Uncaught x, Uncaught x' => x = x'
  | _, _ => False
  end.
Proof.
  induction cs as [|c cs IH]; intros num value value' result error Hagree.
  - simpl. auto.
  - cbn [Mapping.loop Mapping.l_value Mapping.l_result Mapping.l_error].
    rewrite <- (Hagree c) by left.
    assert (Hrest : forall c', c' ∈ cs ->
               delete (name c) value !! name c'
               = delete (name c) value' !! name c').
    { intros c' Hc'. destruct (decide (name c = name c')) as [-> | Hne].
      - rewrite !lookup_delete_eq. reflexivity.
      - rewrite !lookup_delete_ne by exact Hne. apply Hagree. by right. }
    destruct (Mapping.attempt _ _ c _); [| | reflexivity]; apply IH, Hrest.
Qed.
End Mapping_loop_more.

Lemma Mapping_impl_ignore_agree cb dcb node (d d' : gmap string object) :
  (forall c, c ∈ nodes node -> d !! name c = d' !! name c) ->
  Mapping._impl ignore cb dcb node (VDict d)
  = Mapping._impl ignore cb dcb node (VDict d').
Proof.
  intros Hagree. unfold Mapping._impl, Mapping._validate. cbn [Py.dict].
  pose proof (Mapping_loop_agree cb dcb node (nodes node) 0 d d' ∅ None Hagree)
    as H.
  destruct (Mapping.loop _ _ _ _ _ (Mapping.mkLocals d _ _)) as [st | e | x];
    destruct (Mapping.loop _ _ _ _ _ (Mapping.mkLocals d' _ _)) as [st' | e' | x'];
    try contradiction.
  - destruct H as [Hres Herr]. unfold Mapping.finish. rewrite Hres, Herr.
    reflexivity.
  - congruence.
Qed.

(** X3.  Under the policy [ignore], the entries of the input under names that
    no child declares have no effect: two dictionaries that agree on the
    declared names are converted alike, inbound and outbound. *)
Theorem Mapping_ignore_unknown node (d d' : gmap string object) :
  typ node = Mapping ignore ->
  (forall c, c ∈ nodes node -> d !! name c = d' !! name c) ->
  SchemaNode.deserialize node (VDict d) = SchemaNode.deserialize node (VDict d')
  /\ SchemaNode.serialize node (VDict d) = SchemaNode.serialize node (VDict d').
Proof.
  intros Htyp Hagree. split.
  - rewrite !deserialize_unfold, Htyp. unfold Mapping.deserialize.
    rewrite (Mapping_impl_ignore_agree _ _ node d d' Hagree). reflexivity.
  - rewrite !serialize_unfold, Htyp. unfold Mapping.serialize.
    apply Mapping_impl_ignore_agree, Hagree.
Qed.

Lemma Mapping_ignore_unknown_witness :
  SchemaNode.deserialize (x_mapping None "" None [] ignore) x_y_input
  = SchemaNode.deserialize (x_mapping None "" None [] ignore)
      (VDict (<["x" := VStr "1"]> ∅)).
Proof.
  refine (proj1 (Mapping_ignore_unknown (x_mapping None "" None [] ignore)
                   (<["x" := VStr "1"]> (<["y" := VStr "2"]> ∅))
                   (<["x" := VStr "1"]> ∅) _ _)).
  - reflexivity.
  - intros c Hc. apply list_elem_of_singleton in Hc. subst c. reflexivity.
Defined.

Lemma Mapping_impl_raise_unknown cb dcb node value (d : gmap string object) k x :
  Py.dict value = Py.DictOk d ->
  d !! k = Some x ->
  k ∉ name <$> nodes node ->
  (Forall Agg.caught (MappingSpec.outcomes cb dcb d (nodes node)) ->
   Mapping._impl raise cb dcb node value
   = Raise (Invalid.new node
              (Some ("Unrecognized keys in mapping: "
                       +:+ Py.repr (VDict (MappingSpec.unmatched d (nodes node)))))))
  /\ forall r, Mapping._impl raise cb dcb node value <> Return r.
Proof.
  intros Hdict Hk Hunknown.
  assert (Htruth : forall st,
             Mapping.l_value st = MappingSpec.unmatched d (nodes node) ->
             Mapping.finish raise node st
             = Raise (Invalid.new node
                        (Some ("Unrecognized keys in mapping: "
                                 +:+ Py.repr (VDict (MappingSpec.unmatched d
                                                       (nodes node))))))).
  { intros st Hvalue. unfold Mapping.finish. rewrite Hvalue. cbn [Py.truth].
    rewrite bool_decide_eq_false_2; [reflexivity |].
    intros Hempty.
    pose proof (unmatched_lookup (nodes node) d k) as Hlook.
    rewrite Hempty, lookup_empty, decide_False, Hk in Hlook by exact Hunknown.
    discriminate. }
  unfold Mapping._impl, Mapping._validate. rewrite Hdict. split.
  - intros Hcaught.
    destruct (Mapping_loop_total cb dcb node (nodes node) 0
                (Mapping.mkLocals d ∅ None) Hcaught) as [st Hloop].
    rewrite Hloop. apply Htruth.
    apply (Mapping_loop_value _ _ _ _ _ _ _ Hloop).
  - intros r.
    destruct (Mapping.loop _ _ _ _ _ _) as [st | |] eqn:Hloop; try discriminate.
    rewrite Htruth; [discriminate |].
    apply (Mapping_loop_value _ _ _ _ _ _ _ Hloop).
Qed.

(** X4.  Under the policy [raise], an input with an entry under a name that no
    child declares is never converted: the conversion does not return, and
    when no child ends in an exception other than [Invalid] it raises the
    failure that lists the unrecognized entries, whether or not children
    failed. *)
Theorem Mapping_raise_rejects_unknown node value (d : gmap string object) k x :
  typ node = Mapping raise ->
  Py.dict value = Py.DictOk d ->
  d !! k = Some x ->
  k ∉ name <$> nodes node ->
  let unrecognized :=
    Invalid.new node
      (Some ("Unrecognized keys in mapping: "
               +:+ Py.repr (VDict (MappingSpec.unmatched d (nodes node))))) in
  (forall r, SchemaNode.deserialize node value <> Return r)
  /\ (forall r, SchemaNode.serialize node value <> Return r)
  /\ (Forall Agg.caught (MappingSpec.inbound_outcomes d (nodes node)) ->
      SchemaNode.deserialize node value = Raise unrecognized)
  /\ (Forall Agg.caught (MappingSpec.outbound_outcomes d (nodes node)) ->
      SchemaNode.serialize node value = Raise unrecognized).
Proof.
  intros Htyp Hdict Hk Hunknown unrecognized.
  pose proof (fun cb dcb =>
                Mapping_impl_raise_unknown cb dcb node value d k x
                  Hdict Hk Hunknown) as Himpl.
  repeat split.
  - intros r. rewrite deserialize_unfold, Htyp. unfold Mapping.deserialize.
    destruct (Mapping._impl _ _ _ _ _) as [r' | |] eqn:E; try discriminate.
    exfalso. exact (proj2 (Himpl _ _) r' E).
  - intros r. rewrite serialize_unfold, Htyp. unfold Mapping.serialize.
    apply (proj2 (Himpl _ _)).
  - intros Hcaught. rewrite deserialize_unfold, Htyp. unfold Mapping.deserialize.
    rewrite (proj1 (Himpl _ _) Hcaught). reflexivity.
  - intros Hcaught. rewrite serialize_unfold, Htyp. unfold Mapping.serialize.
    apply (proj1 (Himpl _ _) Hcaught).
Qed.

Lemma Mapping_raise_rejects_unknown_witness :
  (forall r,
     SchemaNode.deserialize (x_mapping None "" None [] raise) x_y_input <> Return r)
  /\ (forall r,
        SchemaNode.serialize (x_mapping None "" None [] raise) x_y_input <> Return r).
Proof.
  refine (let H := Mapping_raise_rejects_unknown
                     (x_mapping None "" None [] raise) x_y_input
                     (<["x" := VStr "1"]> (<["y" := VStr "2"]> ∅))
                     "y" (VStr "2") _ _ _ _ in
          conj (proj1 H) (proj1 (proj2 H))).
  - reflexivity.
  - reflexivity.
  - reflexivity.
  - intros Hin. apply list_elem_of_singleton in Hin. discriminate.
Defined.

Lemma Mapping_impl_Return_dom unknown_keys cb dcb node value
    (d : gmap string object) r :
  Py.dict value = Py.DictOk d ->
  Mapping._impl unknown_keys cb dcb node value = Return r ->
  exists result : gmap string object,
    r = VDict result
    /\ dom result
       = list_to_set (name <$> nodes node)
           ∪ match unknown_keys with
             | preserve => dom d
             | _ => ∅
             end.
Proof.
  intros Hdict. unfold Mapping._impl, Mapping._validate. rewrite Hdict.
  destruct (Mapping.loop _ _ _ _ _ _) as [st | |] eqn:Hloop; try discriminate.
  unfold Mapping.finish.
  destruct (match unknown_keys with raise => _ | _ => false end);
    [discriminate |].
  destruct (Mapping.l_error st) eqn:Herr; [discriminate |].
  intros [= <-]. eexists. split; [reflexivity |].
  pose proof (Mapping_loop_result_dom _ _ _ _ _ _ _ Hloop Herr) as Hdom.
  pose proof (Mapping_loop_value _ _ _ _ _ _ _ Hloop) as Hvalue.
  simpl in Hdom, Hvalue. rewrite dom_empty_L in Hdom.
  destruct unknown_keys; try (rewrite Hdom; set_solver).
  rewrite dom_union_L, Hdom, Hvalue, dom_unmatched.
  apply set_eq. intros k. rewrite !elem_of_union, elem_of_difference.
  destruct (decide (k ∈ (list_to_set (name <$> nodes node) : gset string)));
    set_solver.
Qed.

(** X5.  The keys of the dictionary a Mapping conversion returns are the names
    of the declared children, all of them, together with the keys of the
    input under the policy [preserve] and with nothing else under the other
    two policies. *)
Theorem Mapping_result_keys unknown_keys node value (d : gmap string object) :
  typ node = Mapping unknown_keys ->
  Py.dict value = Py.DictOk d ->
  let keys : gset string :=
    list_to_set (name <$> nodes node)
      ∪ match unknown_keys with
        | preserve => dom d
        | _ => ∅
        end in
  (forall r, SchemaNode.deserialize node value = Return r ->
     exists result : gmap string object, r = VDict result /\ dom result = keys)
  /\ (forall r, SchemaNode.serialize node value = Return r ->
        exists result : gmap string object, r = VDict result /\ dom result = keys).
Proof.
  intros Htyp Hdict keys. split; intros r.
  - rewrite deserialize_unfold, Htyp. unfold Mapping.deserialize.
    destruct (Mapping._impl _ _ _ _ _) as [r' | |] eqn:Himpl; try discriminate.
    intros ->%validate_Return.
    exact (Mapping_impl_Return_dom _ _ _ _ _ _ _ Hdict Himpl).
  - rewrite serialize_unfold, Htyp. unfold Mapping.serialize.
    apply Mapping_impl_Return_dom, Hdict.
Qed.

Lemma Mapping_result_keys_witness :
  exists result : gmap string object,
    VDict (<["x" := VInt 1]> (<["y" := VStr "2"]> ∅)) = VDict result
    /\ dom result
       = list_to_set (name <$> nodes (x_mapping None "" None [] preserve))
           ∪ dom (<["x" := VStr "1"]> (<["y" := VStr "2"]> (∅ : gmap string object))).
Proof.
  refine (proj1 (Mapping_result_keys preserve (x_mapping None "" None [] preserve)
                   x_y_input (<["x" := VStr "1"]> (<["y" := VStr "2"]> ∅)) _ _)
            (VDict (<["x" := VInt 1]> (<["y" := VStr "2"]> ∅))) _).
  - reflexivity.
  - reflexivity.
  - vm_compute. reflexivity.
Defined.

(** ** Integer: reading back what was rendered *)

Lemma append_assoc (a b c : string) : (a +:+ b) +:+ c = a +:+ (b +:+ c).
Proof.
  induction a as [|x a IH]; [reflexivity |].
  change (String x ((a +:+ b) +:+ c) = String x (a +:+ (b +:+ c))).
  f_equal. exact IH.
Qed.

Lemma pretty_N_go_append x : forall s,
  pretty_N_go x s = pretty_N_go x "" +:+ s.
Proof.
  induction (N.lt_wf_0 x) as [x _ IH]. intros s.
  destruct (decide (x = 0)%N) as [-> | Hx]; [reflexivity |].
  rewrite (pretty_N_go_step x s), (pretty_N_go_step x "") by lia.
  rewrite (IH (x `div` 10)%N) by (apply N.div_lt; lia).
  rewrite (IH (x `div` 10)%N ltac:(apply N.div_lt; lia) (String _ "")).
  rewrite append_assoc. reflexivity.
Qed.

Lemma digits_append a : forall acc b,
  Py.digits acc (a +:+ b)
  = match Py.digits acc a with
    | Some v => Py.digits v b
    | None => None
    end.
Proof.
  induction a as [|c a IH]; intros acc b; [reflexivity |].
  change (String c a +:+ b) with (String c (a +:+ b)). simpl.
  destruct (Ascii.is_nat c); [apply IH | reflexivity].
Qed.

Lemma is_nat_pretty_N_char d :
  (d < 10)%N -> Ascii.is_nat (pretty_N_char d) = Some (N.to_nat d).
Proof.
  intros Hd.
  assert (d = 0 \/ d = 1 \/ d = 2 \/ d = 3 \/ d = 4 \/ d = 5 \/ d = 6
          \/ d = 7 \/ d = 8 \/ d = 9)%N as H by lia.
  repeat (destruct H as [-> | H]; [reflexivity |]). subst. reflexivity.
Qed.

(** The digits that [pretty] writes for a natural number read back as that
    number. *)
Lemma digits_pretty_N_go x :
  Py.digits 0 (pretty_N_go x "") = Some (Z.of_N x).
Proof.
  induction (N.lt_wf_0 x) as [x _ IH].
  destruct (decide (x = 0)%N) as [-> | Hx]; [reflexivity |].
  rewrite pretty_N_go_step, pretty_N_go_append, digits_append by lia.
  rewrite IH by (apply N.div_lt; lia). simpl.
  rewrite is_nat_pretty_N_char by (apply N.mod_lt; lia).
  f_equal. pose proof (N.div_mod x 10 ltac:(lia)). lia.
Qed.

Lemma digit_plain c d :
  Ascii.is_nat c = Some d ->
  Ascii.is_space c = false /\ c <> "+"%char /\ c <> "-"%char.
Proof.
  destruct c as [[] [] [] [] [] [] [] []]; try discriminate;
    intros _; repeat split; discriminate.
Qed.

Lemma chars_append a b : Py.chars (a +:+ b) = Py.chars a ++ Py.chars b.
Proof.
  induction a as [|c a IH]; [reflexivity |].
  change (String c a +:+ b) with (String c (a +:+ b)). simpl. by rewrite IH.
Qed.

(** What [pretty] writes for a positive number: digits, at least one. *)
Lemma pretty_N_go_digits x :
  (0 < x)%N ->
  pretty_N_go x "" <> ""
  /\ Forall (fun c => is_Some (Ascii.is_nat c)) (Py.chars (pretty_N_go x "")).
Proof.
  induction (N.lt_wf_0 x) as [x _ IH]. intros Hx.
  rewrite pretty_N_go_step, pretty_N_go_append by lia. split.
  - destruct (pretty_N_go (x `div` 10) ""); discriminate.
  - rewrite chars_append. apply Forall_app. split.
    + destruct (decide (x `div` 10 = 0)%N) as [-> | Hdiv]; [constructor |].
      apply IH; [apply N.div_lt; lia | apply N.neq_0_lt_0, Hdiv].
    + constructor; [| constructor].
      rewrite is_nat_pretty_N_char by (apply N.mod_lt; lia). eauto.
Qed.

Lemma chars_rev_app s : forall t,
  Py.chars (String.rev_app s t) = rev (Py.chars s) ++ Py.chars t.
Proof.
  induction s as [|c s IH]; intros t; simpl; [reflexivity |].
  rewrite IH. simpl. rewrite <- app_assoc. reflexivity.
Qed.

Lemma chars_inj s t : Py.chars s = Py.chars t -> s = t.
Proof.
  revert t. induction s as [|c s IH]; intros [|c' t]; simpl; try discriminate;
    [reflexivity |].
  intros [= -> H]. f_equal. apply IH, H.
Qed.

Lemma lstrip_plain s :
  Forall (fun c => Ascii.is_space c = false) (Py.chars s) -> Py.lstrip s = s.
Proof.
  destruct s as [|c s]; [reflexivity |]. simpl.
  intros H. inversion H as [|? ? Hc _]; subst. rewrite Hc. reflexivity.
Qed.

(** [strip] leaves a string without white space as it is. *)
Lemma strip_plain s :
  Forall (fun c => Ascii.is_space c = false) (Py.chars s) -> Py.strip s = s.
Proof.
  intros H. unfold Py.strip. rewrite (lstrip_plain s H).
  assert (Hrev : Forall (fun c => Ascii.is_space c = false)
                   (Py.chars (String.rev s))).
  { unfold String.rev. rewrite chars_rev_app, app_nil_r.
    apply Forall_rev, H. }
  rewrite (lstrip_plain _ Hrev). apply chars_inj.
  unfold String.rev. rewrite !chars_rev_app, !app_nil_r. apply rev_involutive.
Qed.

Lemma int_literal_pretty z : Py.int_literal (pretty z) = Some z.
Proof.
  assert (Hpos : forall p,
             let s := pretty_N_go (N.pos p) "" in
             Py.strip s = s /\ Py.number s = Some (Z.pos p)
             /\ exists c s', s = String c s' /\ c <> "+"%char /\ c <> "-"%char).
  { intros p s.
    destruct (pretty_N_go_digits (N.pos p)) as [Hne Hall]; [lia |].
    fold s in Hne, Hall. split; [| split].
    - apply strip_plain. eapply Forall_impl; [exact Hall |].
      intros c [d Hd]. apply (digit_plain c d Hd).
    - unfold Py.number. destruct s eqn:Hs; [done |]. rewrite <- Hs.
      unfold s. rewrite digits_pretty_N_go. reflexivity.
    - destruct s as [|c s'] eqn:Hs; [done |]. exists c, s'.
      split; [reflexivity |].
      inversion Hall as [|? ? [d Hd] _]; subst.
      destruct (digit_plain c d Hd) as (_ & ? & ?). auto. }
  destruct z as [|p|p].
  - reflexivity.
  - destruct (Hpos p) as (Hstrip & Hnumber & c & s' & Hs & Hplus & Hminus).
    change (pretty (Z.pos p)) with (pretty_N_go (N.pos p) "").
    unfold Py.int_literal. rewrite Hstrip. rewrite Hs in Hnumber |- *.
    destruct c as [[] [] [] [] [] [] [] []]; try exact Hnumber; done.
  - destruct (Hpos p) as (Hstrip & Hnumber & c & s' & Hs & Hplus & Hminus).
    change (pretty (Z.neg p)) with (String "-" (pretty_N_go (N.pos p) "")).
    unfold Py.int_literal.
    assert (Py.strip (String "-" (pretty_N_go (N.pos p) ""))
            = String "-" (pretty_N_go (N.pos p) "")) as ->.
    { apply strip_plain. simpl. constructor; [reflexivity |].
      destruct (pretty_N_go_digits (N.pos p)) as [_ Hall]; [lia |].
      eapply Forall_impl; [exact Hall |].
      intros c' [d Hd]. apply (digit_plain c' d Hd). }
    rewrite Hnumber. reflexivity.
Qed.

(** X6.  An Integer node reads back every integer it renders: outbound
    conversion of an integer returns its decimal form, and inbound
    conversion of that form returns the integer (when the node's validator,
    if it has one, accepts it). *)
Theorem Integer_round_trip node z :
  typ node = Integer ->
  RoundTrip.accepted node (VInt z) ->
  SchemaNode.serialize node (VInt z) = Return (VStr (pretty z))
  /\ SchemaNode.deserialize node (VStr (pretty z)) = Return (VInt z).
Proof.
  intros Htyp Haccepted. split.
  - rewrite serialize_unfold, Htyp. reflexivity.
  - rewrite deserialize_unfold, Htyp. unfold Integer.deserialize.
    cbn [Py.int]. rewrite int_literal_pretty. exact Haccepted.
Qed.

Lemma Integer_round_trip_witness :
  SchemaNode.serialize item (VInt (-120)) = Return (VStr "-120")
  /\ SchemaNode.deserialize item (VStr "-120") = Return (VInt (-120)).
Proof.
  refine (Integer_round_trip item (-120) _ _); reflexivity.
Defined.

(** ** Adding a child to a node *)

Lemma raise_r_renode {A : Type} node node' value rest :
  @raise_r A node' value rest = renode_outcome node' (raise_r node value rest).
Proof. unfold raise_r. destruct (Py.percent_r value); reflexivity. Qed.

(** X7.  A scalar node ignores the children attached to it: after [add], a
    node of type Integer, Boolean or of a leaf type converts every value as
    before, inbound and outbound (a failure refers to the node
    converted). *)
Theorem scalar_ignores_added_child self child value :
  scalar (typ self) = true ->
  SchemaNode.deserialize (SchemaNode.add self child) value
  = renode_outcome (SchemaNode.add self child)
      (SchemaNode.deserialize self value)
  /\ SchemaNode.serialize (SchemaNode.add self child) value
     = renode_outcome (SchemaNode.add self child)
         (SchemaNode.serialize self value).
Proof.
  intros Hscalar. set (self' := SchemaNode.add self child).
  assert (Htyp : typ self' = typ self) by reflexivity.
  split.
  - rewrite !deserialize_unfold, Htyp.
    destruct (typ self) as [| | | | | t]; try discriminate.
    + unfold Integer.deserialize. destruct (Py.int value).
      * apply validate_renode. reflexivity.
      * rewrite (raise_r_renode self self').
        destruct (raise_r self value _); reflexivity || apply validate_renode;
          reflexivity.
    + unfold Boolean.deserialize. destruct (Py.str value).
      * destruct (_ || _); apply validate_renode; reflexivity.
      * rewrite (raise_r_renode self self').
        destruct (raise_r self value _); reflexivity || apply validate_renode;
          reflexivity.
    + destruct (leaf_deserialize t value); simpl; [| reflexivity].
      apply validate_renode. reflexivity.
  - rewrite !serialize_unfold, Htyp.
    destruct (typ self) as [| | | | | t]; try discriminate.
    + unfold Integer.serialize. destruct (Py.int value); [reflexivity |].
      apply raise_r_renode.
    + reflexivity.
    + destruct (leaf_serialize t value); reflexivity.
Qed.

Lemma scalar_ignores_added_child_witness :
  SchemaNode.deserialize (SchemaNode.add item flag) (VStr "12")
  = renode_outcome (SchemaNode.add item flag)
      (SchemaNode.deserialize item (VStr "12")).
Proof.
  refine (proj1 (scalar_ignores_added_child item flag (VStr "12") _)).
  reflexivity.
Defined.

Lemma Tuple_validate_Return_iff node value items :
  Tuple._validate node value = Return items
  <-> Py.has___iter__ value = true
      /\ Py.len value = Some (length (nodes node))
      /\ Py.to_list value = Some items.
Proof.
  split.
  - intros H. apply Tuple_validate_Return in H. tauto.
  - intros (Hiter & Hlen & Hitems). unfold Tuple._validate.
    rewrite Hiter, Hlen, Nat.eqb_refl, Hitems. reflexivity.
Qed.

(** X8.  A Tuple node takes exactly as many elements as it has children, so an
    added child turns every input the node converted into a failure: what
    returned before [add] fails after it with the message on the number of
    elements, one more being expected. *)
Theorem Tuple_add_changes_arity self child value :
  typ self = Tuple ->
  (exists r, SchemaNode.deserialize self value = Return r
             \/ SchemaNode.serialize self value = Return r) ->
  let self' := SchemaNode.add self child in
  let failure :=
    Invalid.new self'
      (Some (Py.repr value +:+ " has an incorrect number of elements "
               +:+ "(expected " +:+ pretty (S (length (nodes self)))
               +:+ ", was " +:+ pretty (length (nodes self)) +:+ ")")) in
  SchemaNode.deserialize self' value = Raise failure
  /\ SchemaNode.serialize self' value = Raise failure.
Proof.
  intros Htyp [r Hr] self' failure.
  assert (Hvalid : exists items, Tuple._validate self value = Return items).
  { destruct Hr as [Hr | Hr].
    - rewrite deserialize_unfold, Htyp in Hr. unfold Tuple.deserialize in Hr.
      rewrite Tuple_impl_spec in Hr.
      destruct (Tuple._validate self value); [eauto | discriminate..].
    - rewrite serialize_unfold, Htyp in Hr. unfold Tuple.serialize in Hr.
      rewrite Tuple_impl_spec in Hr.
      destruct (Tuple._validate self value); [eauto | discriminate..]. }
  destruct Hvalid as [items (Hiter & Hlen & Hitems)%Tuple_validate_Return_iff].
  assert (Hv : Tuple._validate self' value = Raise failure).
  { unfold Tuple._validate. rewrite Hiter, Hlen. cbn [negb].
    assert (Hnodes : length (nodes self') = S (length (nodes self))).
    { unfold self', SchemaNode.add. cbn [nodes]. rewrite length_app. simpl. lia. }
    rewrite Hnodes.
    destruct (Nat.eqb_spec (length (nodes self)) (S (length (nodes self))));
      [lia |]. cbn [negb].
    assert (Py.str value = Some (Py.repr value)) as ->
      by (destruct value; try discriminate; reflexivity).
    reflexivity. }
  assert (Htyp' : typ self' = Tuple) by exact Htyp.
  split.
  - rewrite deserialize_unfold, Htyp'. unfold Tuple.deserialize.
    rewrite Tuple_impl_spec, Hv. reflexivity.
  - rewrite serialize_unfold, Htyp'. unfold Tuple.serialize.
    rewrite Tuple_impl_spec, Hv. reflexivity.
Qed.

Lemma Tuple_add_changes_arity_witness :
  SchemaNode.deserialize (SchemaNode.add three_integers item)
    (VList [VStr "1"; VStr "2"; VStr "3"])
  = Raise (Invalid.new (SchemaNode.add three_integers item)
             (Some "['1', '2', '3'] has an incorrect number of elements (expected 4, was 3)")).
Proof.
  refine (proj1 (Tuple_add_changes_arity three_integers item
                   (VList [VStr "1"; VStr "2"; VStr "3"]) _ _)).
  - reflexivity.
  - exists (VTuple [VInt 1; VInt 2; VInt 3]). left. reflexivity.
Defined.

(** ** Paths, and the entries of the report *)

Lemma descends_snoc stack parent child :
  descends (stack ++ [parent]) -> child ∈ e_children parent ->
  descends ((stack ++ [parent]) ++ [child]).
Proof.
  induction stack as [|x stack IH]; intros Hd Hc.
  - simpl. auto.
  - destruct stack as [|y stack].
    + simpl in *. tauto.
    + simpl in *. destruct Hd as [Hy Hd]. split; [exact Hy |]. apply IH; assumption.
Qed.

(** What [traverse] yields below a stack that ends at the parent. *)
Lemma traverse_paths e : forall stack,
  descends (stack ++ [e]) ->
  length (Invalid.traverse e stack) = leaves e
  /\ forall path, path ∈ Invalid.traverse e stack ->
       descends path
       /\ exists rest leaf,
            path = stack ++ e :: rest /\ last path = Some leaf
            /\ e_children leaf = [].
Proof.
  induction e as [n m p pa cs IH] using Invalid_tree_ind.
  intros stack Hd. set (e := mkInvalid n m p pa cs) in *.
  cbn [Invalid.traverse e_children e leaves].
  destruct cs as [|c cs].
  - simpl. split; [reflexivity |].
    intros path Hpath. apply list_elem_of_singleton in Hpath as ->.
    split; [exact Hd |]. exists [], e. split; [reflexivity |].
    split; [apply last_snoc | reflexivity].
  - cbn [app]. set (children := c :: cs) in *.
    assert (Hsub : forall child, child ∈ children ->
               descends ((stack ++ [e]) ++ [child])).
    { intros child Hc. apply descends_snoc; [exact Hd | exact Hc]. }
    split.
    + assert (Hlen : forall l, (forall child, child ∈ l -> child ∈ children) ->
                 length (flat_map (fun child => Invalid.traverse child (stack ++ [e])) l)
                 = foldr (fun child k => leaves child + k) 0 l).
      { induction l as [|x l IHl]; intros Hl; [reflexivity |].
        simpl. rewrite length_app, IHl by (intros; apply Hl; by right).
        f_equal. rewrite Forall_forall in IH.
        apply (IH x (Hl x ltac:(left)) (stack ++ [e])), Hsub, Hl. left. }
      apply Hlen. auto.
    + intros path Hpath.
      apply list_elem_of_In, in_flat_map in Hpath as (child & Hin & Hpath).
      apply list_elem_of_In in Hin, Hpath.
      rewrite Forall_forall in IH.
      destruct (IH child Hin (stack ++ [e]) (Hsub child Hin)) as [_ Hall].
      destruct (Hall path Hpath) as (Hdesc & rest & leaf & -> & Hlast & Hleaf).
      split; [exact Hdesc |].
      exists (child :: rest), leaf. rewrite <- app_assoc in *.
      split; [reflexivity |]. split; [exact Hlast | exact Hleaf].
Qed.

Lemma leaves_positive e : 0 < leaves e.
Proof.
  induction e as [n m p pa cs IH] using Invalid_tree_ind.
  cbn [leaves e_children]. destruct cs as [|c cs]; [lia |].
  inversion IH; subst. simpl. lia.
Qed.

Lemma paths_nonempty e : Invalid.paths e <> [].
Proof.
  intros Hnil. destruct (traverse_paths e [] I) as [Hlen _].
  unfold Invalid.paths in Hnil. rewrite Hnil in Hlen.
  pose proof (leaves_positive e). simpl in Hlen. lia.
Qed.

(** X9.  [paths] yields one path for each failure without children, and every
    path runs from the failure itself down to such a leaf, each failure on
    it a child of the one before; so there is always at least one path. *)
Theorem paths_root_to_leaf e :
  length (Invalid.paths e) = leaves e
  /\ Invalid.paths e <> []
  /\ forall path, path ∈ Invalid.paths e ->
       descends path
       /\ exists rest leaf,
            path = e :: rest /\ last path = Some leaf /\ e_children leaf = [].
Proof.
  destruct (traverse_paths e [] I) as [Hlen Hall].
  split; [exact Hlen |]. split; [apply paths_nonempty | exact Hall].
Qed.

Lemma report_snoc key text paths path :
  ReportSpec.report key text (paths ++ [path])
  = <[key path := text path]> (ReportSpec.report key text paths).
Proof. unfold ReportSpec.report. rewrite fold_left_app. reflexivity. Qed.

(** The entry of a key in a report is that of the last path with the
    key. *)
Lemma report_lookup key text paths k :
  ReportSpec.report key text paths !! k
  = text <$> last (filter (fun path => key path = k) paths).
Proof.
  induction paths as [|path paths IH] using rev_ind; [reflexivity |].
  rewrite report_snoc, filter_app.
  destruct (decide (key path = k)) as [<- | Hne].
  - rewrite lookup_insert_eq, filter_cons_True by reflexivity.
    rewrite filter_nil, last_snoc. reflexivity.
  - rewrite lookup_insert_ne by exact Hne.
    rewrite filter_cons_False by exact Hne. rewrite filter_nil, app_nil_r.
    exact IH.
Qed.

(** X10.  The report has one entry for each key that a leaf path yields, and
    when several paths yield the same key the last one in the order of
    [paths] gives the entry: later paths overwrite earlier ones.  A report
    is never empty. *)
Theorem asdict_last_path_wins e :
  (forall k,
     Invalid.asdict e !! k
     = ReportSpec.text
         <$> last (filter (fun path => path_key path = k) (Invalid.paths e)))
  /\ Invalid.asdict e <> ∅.
Proof.
  assert (Hlookup : forall k,
             Invalid.asdict e !! k
             = ReportSpec.text
                 <$> last (filter (fun path => path_key path = k)
                             (Invalid.paths e))).
  { intros k. rewrite asdict_spec. apply report_lookup. }
  split; [exact Hlookup |].
  rewrite asdict_spec.
  destruct (exists_last (paths_nonempty e)) as (paths & path & ->).
  rewrite report_snoc. apply insert_non_empty.
Qed.

(** ** How the failures are built *)

Lemma outcomes_lookup cb dcb cs : forall (d : gmap string object) i o,
  MappingSpec.outcomes cb dcb d cs !! i = Some o ->
  exists c subval, cs !! i = Some c /\ o = Mapping.attempt cb dcb c subval.
Proof.
  induction cs as [|c cs IH]; intros d i o Hi; [discriminate |].
  destruct i as [|i]; simpl in Hi.
  - injection Hi as <-. eauto.
  - apply IH in Hi as (c' & subval & Hc' & ->). eauto.
Qed.

Lemma Mapping_impl_Raise_shape unknown_keys cb dcb node value e :
  Mapping._impl unknown_keys cb dcb node value = Raise e ->
  (exists msg, e = Invalid.new node (Some msg))
  \/ exists d,
       Py.dict value = Py.DictOk d
       /\ Agg.failures node 0 (MappingSpec.outcomes cb dcb d (nodes node)) <> []
       /\ e = Agg.aggregate node
                (Agg.failures node 0 (MappingSpec.outcomes cb dcb d (nodes node))).
Proof.
  unfold Mapping._impl, Mapping._validate.
  destruct (Py.dict value) as [d | msg |] eqn:Hdict;
    [| intros [= <-]; left; eauto | discriminate].
  destruct (Mapping.loop _ _ _ _ _ _) as [st | e' | x] eqn:Hloop;
    [| by apply Mapping_loop_no_Raise in Hloop | discriminate].
  destruct (Mapping_loop_Return _ _ _ _ _ _ _ [] Hloop eq_refl)
    as (_ & Herror & _). simpl in Herror.
  unfold Mapping.finish. rewrite Herror.
  destruct (match unknown_keys with raise => _ | _ => false end).
  { intros [= <-]. left. eauto. }
  destruct (Agg.failures _ _ _) as [|f fs] eqn:Hfs; simpl; [discriminate |].
  intros [= <-]. right. exists d. rewrite Hfs. auto.
Qed.

Lemma positional_Raise_shape node wrap os e :
  Agg.positional node wrap os = Raise e ->
  Agg.failures node 0 os <> []
  /\ e = Agg.aggregate node (Agg.failures node 0 os).
Proof.
  unfold Agg.positional. destruct (Agg.cut os); [discriminate |].
  destruct (Agg.failures node 0 os); [discriminate |].
  intros [= <-]. split; [discriminate | reflexivity].
Qed.

Lemma raise_r_shape {A : Type} node value rest e :
  @raise_r A node value rest = Raise e ->
  exists msg, e = Invalid.new node (Some msg).
Proof.
  unfold raise_r. destruct (Py.percent_r value); [| discriminate].
  intros [= <-]. eauto.
Qed.

Lemma validate_Raise_shape self value e :
  SchemaNode.validate self value = Raise e ->
  exists msg, e = Invalid.new self (Some msg).
Proof.
  unfold SchemaNode.validate. destruct (validator self) as [check|]; [| discriminate].
  destruct (check value); [| discriminate]. intros [= <-]. eauto.
Qed.

Lemma Tuple_validate_Raise_shape node value e :
  Tuple._validate node value = Raise e ->
  exists msg, e = Invalid.new node (Some msg).
Proof.
  unfold Tuple._validate. destruct (negb _); [apply raise_r_shape |].
  destruct (Py.len value); [| discriminate].
  destruct (negb _); [| destruct (Py.to_list value); discriminate].
  destruct (Py.str value); [| discriminate]. intros [= <-]. eauto.
Qed.

Lemma Sequence_validate_Raise_shape accept_scalar node value e :
  Sequence._validate accept_scalar node value = Raise e ->
  exists msg, e = Invalid.new node (Some msg).
Proof.
  unfold Sequence._validate.
  destruct (Py.has___iter__ value && negb (Py.has_get value)).
  { destruct (Py.to_list value); discriminate. }
  destruct accept_scalar; [discriminate | apply raise_r_shape].
Qed.

(** Induction on the failures that conversions raise: a property of a
    schema node and a failure that holds of every leaf with a message on
    the node, and of every aggregate on a composite node as soon as it
    holds of the failures collected (each with the node at its position),
    holds of all of them. *)
Lemma raised_ind (Q : SchemaNode -> Invalid -> Prop) :
  (forall node msg, Q node (Invalid.new node (Some msg))) ->
  (forall node os,
     scalar (typ node) = false ->
     Agg.failures node 0 os <> [] ->
     (forall i e0, os !! i = Some (Raise e0) ->
        exists c, child_node node i = Some c /\ Q c e0) ->
     Q node (Agg.aggregate node (Agg.failures node 0 os))) ->
  forall node value e,
    SchemaNode.deserialize node value = Raise e
    \/ SchemaNode.serialize node value = Raise e ->
    Q node e.
Proof.
  intros Hleaf Hagg.
  induction node as [t check default nm ns IH] using SchemaNode_tree_ind.
  rewrite Forall_forall in IH.
  set (node := mkSchemaNode t check default nm ns) in *.
  assert (Hmapping : forall unknown_keys cb dcb value e,
             t = Mapping unknown_keys ->
             (forall c x e0, c ∈ ns -> cb c x = Raise e0 -> Q c e0) ->
             (forall c x e0, c ∈ ns -> dcb c x = Raise e0 -> Q c e0) ->
             Mapping._impl unknown_keys cb dcb node value = Raise e -> Q node e).
  { intros unknown_keys cb dcb value e -> Hcb Hdcb Himpl.
    apply Mapping_impl_Raise_shape in Himpl
      as [[msg ->] | (d & _ & Hne & ->)]; [apply Hleaf |].
    apply Hagg; [reflexivity | exact Hne |].
    intros i e0 (c & subval & Hc & Hatt)%outcomes_lookup.
    exists c. split; [exact Hc |].
    assert (Hin : c ∈ ns) by (eapply list_elem_of_lookup_2; exact Hc).
    unfold Mapping.attempt in Hatt.
    destruct subval as [x|]; [by eapply Hcb |].
    destruct (default_ c); [by eapply Hdcb |].
    injection Hatt as ->. apply Hleaf. }
  assert (Hpositional : forall wrap os e,
             Positional t = true ->
             (forall i e0, os !! i = Some (Raise e0) ->
                exists c, child_node node i = Some c /\ Q c e0) ->
             Agg.positional node wrap os = Raise e -> Q node e).
  { intros wrap os e Ht Hos (Hne & ->)%positional_Raise_shape.
    apply Hagg; [by destruct t | exact Hne | exact Hos]. }
  assert (Htuple : forall cb value e,
             t = Tuple ->
             (forall c x e0, c ∈ ns -> cb c x = Raise e0 -> Q c e0) ->
             Tuple._impl cb node value = Raise e -> Q node e).
  { intros cb value e -> Hcb. rewrite Tuple_impl_spec.
    destruct (Tuple._validate node value) as [items | e' |] eqn:Hv;
      [| intros [= <-]; apply Tuple_validate_Raise_shape in Hv as [msg ->];
         apply Hleaf | discriminate].
    apply Hpositional; [reflexivity |].
    intros i e0 Hi. apply lookup_zip_with_Some in Hi as (c & x & Hcx & Hc & Hx).
    exists c. split; [exact Hc |].
    eapply Hcb; [| symmetry; exact Hcx].
    eapply list_elem_of_lookup_2. exact Hc. }
  assert (Hsequence : forall accept_scalar cb value e,
             t = Sequence accept_scalar ->
             (forall c x e0, c ∈ ns -> cb c x = Raise e0 -> Q c e0) ->
             Sequence._impl accept_scalar cb node value = Raise e -> Q node e).
  { intros accept_scalar cb value e -> Hcb.
    destruct ns as [|template rest] eqn:Hns.
    - unfold Sequence._impl.
      destruct (Sequence._validate accept_scalar node value) as [items | e' |] eqn:Hv;
        [| intros [= <-]; apply Sequence_validate_Raise_shape in Hv as [msg ->];
           apply Hleaf | discriminate].
      destruct items; simpl; discriminate.
    - rewrite (Sequence_impl_spec cb node template rest eq_refl).
      destruct (Sequence._validate accept_scalar node value) as [items | e' |] eqn:Hv;
        [| intros [= <-]; apply Sequence_validate_Raise_shape in Hv as [msg ->];
           apply Hleaf | discriminate].
      apply Hpositional; [reflexivity |].
      intros i e0 Hi. exists template. split; [reflexivity |].
      change (map (cb template) items) with (cb template <$> items) in Hi.
      apply list_lookup_fmap_Some in Hi as (x & Hx & _).
      eapply Hcb; [left | symmetry; exact Hx]. }
  assert (Hin : forall c x e0, c ∈ ns -> SchemaNode.deserialize c x = Raise e0 -> Q c e0)
    by (intros c x e0 Hc H; apply (IH c Hc x e0); by left).
  assert (Hout : forall c x e0, c ∈ ns -> SchemaNode.serialize c x = Raise e0 -> Q c e0)
    by (intros c x e0 Hc H; apply (IH c Hc x e0); by right).
  intros value e [Hraise | Hraise].
  - rewrite deserialize_unfold in Hraise. cbn [typ node] in Hraise.
    match type of Hraise with
    | match ?conv with _ => _ end = _ =>
        destruct conv as [r | e' | x] eqn:Hconv
    end; [apply validate_Raise_shape in Hraise as [msg ->]; apply Hleaf
         | injection Hraise as -> | discriminate].
    destruct t as [unknown_keys | | accept_scalar | | | leaf].
    + eapply Hmapping; [reflexivity | exact Hin | | exact Hconv].
      intros c x e0 _ [=].
    + eapply Htuple; [reflexivity | exact Hin | exact Hconv].
    + eapply Hsequence; [reflexivity | exact Hin | exact Hconv].
    + unfold Integer.deserialize in Hconv. destruct (Py.int value); [discriminate |].
      apply raise_r_shape in Hconv as [msg ->]. apply Hleaf.
    + unfold Boolean.deserialize in Hconv.
      destruct (Py.str value); [destruct (_ || _); discriminate |].
      apply raise_r_shape in Hconv as [msg ->]. apply Hleaf.
    + destruct (leaf_deserialize leaf value); [discriminate |].
      injection Hconv as <-. apply Hleaf.
  - rewrite serialize_unfold in Hraise. cbn [typ node] in Hraise.
    destruct t as [unknown_keys | | accept_scalar | | | leaf].
    + eapply Hmapping; [reflexivity | exact Hout | exact Hout | exact Hraise].
    + eapply Htuple; [reflexivity | exact Hout | exact Hraise].
    + eapply Hsequence; [reflexivity | exact Hout | exact Hraise].
    + unfold Integer.serialize in Hraise. destruct (Py.int value); [discriminate |].
      apply raise_r_shape in Hraise as [msg ->]. apply Hleaf.
    + discriminate.
    + destruct (leaf_serialize leaf value); [discriminate |].
      injection Hraise as <-. apply Hleaf.
Qed.

(** ** The failure tree has the shape of the schema tree *)

Lemma mirrors_unfold node e :
  mirrors node e
  <-> e_node e = node
      /\ match e_children e with
         | [] => is_Some (e_msg e)
         | children =>
             e_msg e = None /\ scalar (typ node) = false
             /\ children_mirror mirrors node children
         end.
Proof. destruct e; reflexivity. Qed.

Lemma mirrors_tag parent num c e : mirrors c e -> mirrors c (Agg.tag parent num e).
Proof. rewrite !mirrors_unfold. destruct e; exact id. Qed.

Lemma failures_mirror node os : forall num,
  (forall i e0, os !! i = Some (Raise e0) ->
     exists c, child_node node (num + i) = Some c /\ mirrors c e0) ->
  children_mirror mirrors node (Agg.failures node num os).
Proof.
  induction os as [|o os IH]; intros num Hos; [exact I |].
  assert (Hrest : children_mirror mirrors node (Agg.failures node (S num) os)).
  { apply IH. intros i e0 Hi. destruct (Hos (S i) e0 Hi) as (c & Hc & Hm).
    exists c. split; [| exact Hm]. rewrite <- Hc. f_equal. lia. }
  destruct o as [r | e | x]; try exact Hrest.
  destruct (Hos 0 e eq_refl) as (c & Hc & Hm). rewrite Nat.add_0_r in Hc.
  assert (Hnode : e_node (Agg.tag node num e) = c).
  { apply mirrors_unfold in Hm as [Hnode _]. exact Hnode. }
  change (Agg.failures node num (Raise e :: os))
    with (Agg.tag node num e :: Agg.failures node (S num) os).
  cbn [children_mirror]. rewrite Hnode. split; [| split; [| exact Hrest]].
  - exists num. split; [reflexivity | exact Hc].
  - apply mirrors_tag, Hm.
Qed.

(** X11.  The failure that a conversion of [node] raises mirrors the schema tree
    of [node]: it concerns [node], and it is either a leaf with a message
    or an aggregate, without message and on a composite node, of failures
    that each have a position, concern the child at that position (the
    first child for a Sequence) and mirror it in turn. *)
Theorem failure_mirrors_schema node value e :
  SchemaNode.deserialize node value = Raise e
  \/ SchemaNode.serialize node value = Raise e ->
  mirrors node e.
Proof.
  apply (raised_ind mirrors).
  - intros n msg. apply mirrors_unfold. split; [reflexivity |]. simpl. eauto.
  - intros n os Hscalar Hne Hos. apply mirrors_unfold. split; [reflexivity |].
    cbn [e_children Agg.aggregate e_msg].
    pose proof (failures_mirror n os 0 Hos) as Hall.
    destruct (Agg.failures n 0 os); [done |]. auto.
Qed.

Lemma failure_mirrors_schema_witness : mirrors (integers false) (bad_at_1 false).
Proof.
  refine (failure_mirrors_schema (integers false) one_bad_three _ _).
  left. reflexivity.
Defined.

Lemma ordered_unfold e :
  ordered e
  <-> (exists positions,
         e_pos <$> e_children e = Some <$> positions
         /\ StronglySorted lt positions)
      /\ Forall ordered (e_children e).
Proof.
  destruct e as [n m p pa cs]. cbn [ordered e_children].
  split; intros [Hpos Hall]; (split; [exact Hpos |]).
  - clear Hpos. induction cs as [|c cs IH]; [constructor |].
    destruct Hall as [Hc Hcs]. constructor; [exact Hc | exact (IH Hcs)].
  - clear Hpos. induction cs as [|c cs IH]; [exact I |].
    inversion Hall; subst. split; [assumption | apply IH; assumption].
Qed.

Lemma ordered_tag node num e : ordered e -> ordered (Agg.tag node num e).
Proof. rewrite !ordered_unfold. destruct e; exact id. Qed.

(** The positions of collected failures: from [num] on, increasing. *)
Lemma failures_positions node os : forall num,
  exists positions,
    e_pos <$> Agg.failures node num os = Some <$> positions
    /\ StronglySorted lt positions
    /\ Forall (fun p => num <= p) positions.
Proof.
  induction os as [|o os IH]; intros num.
  - exists []. repeat split; constructor.
  - destruct (IH (S num)) as (ps & Hps & Hsorted & Hge).
    assert (Hge' : Forall (fun p => num <= p) ps)
      by (eapply Forall_impl; [exact Hge | intros; simpl in *; lia]).
    destruct o as [r | e | x];
      [exists ps; auto | | exists ps; auto].
    change (Agg.failures node num (Raise e :: os))
      with (Agg.tag node num e :: Agg.failures node (S num) os).
    exists (num :: ps). split; [| split].
    + rewrite !fmap_cons, Hps. reflexivity.
    + constructor; [exact Hsorted |].
      eapply Forall_impl; [exact Hge | intros; simpl in *; lia].
    + constructor; [lia | exact Hge'].
Qed.

Lemma failures_ordered node os : forall num,
  (forall i e0, os !! i = Some (Raise e0) -> ordered e0) ->
  Forall ordered (Agg.failures node num os).
Proof.
  induction os as [|o os IH]; intros num Hos; simpl; [constructor |].
  assert (Hrest : Forall ordered (Agg.failures node (S num) os))
    by (apply IH; intros i e0 Hi; apply (Hos (S i) e0 Hi)).
  destruct o as [r | e | x]; try exact Hrest.
  constructor; [| exact Hrest]. apply ordered_tag, (Hos 0 e eq_refl).
Qed.

(** X12.  In the failure that a conversion raises, at every level, the child
    failures carry positions that increase strictly: a composite collects
    at most one failure for each position, in the order of the
    positions. *)
Theorem failure_positions_increase node value e :
  SchemaNode.deserialize node value = Raise e
  \/ SchemaNode.serialize node value = Raise e ->
  ordered e.
Proof.
  apply (raised_ind (fun _ e => ordered e)).
  - intros n msg. apply ordered_unfold. split; [| constructor].
    exists []. split; [reflexivity | constructor].
  - intros n os _ _ Hos. apply ordered_unfold. cbn [e_children Agg.aggregate].
    split.
    + destruct (failures_positions n os 0) as (ps & Hps & Hsorted & _). eauto.
    + apply failures_ordered. intros i e0 Hi.
      destruct (Hos i e0 Hi) as (_ & _ & H). exact H.
Qed.

Lemma failure_positions_increase_witness : ordered (bad_at_1 true).
Proof.
  refine (failure_positions_increase (integers true) one_bad_three _ _).
  left. reflexivity.
Defined.

(** ** The report of a composite whose children are scalars *)

(** A scalar node raises leaves only. *)
Lemma scalar_Raise_shape node value e :
  SchemaNode.deserialize node value = Raise e
  \/ SchemaNode.serialize node value = Raise e ->
  scalar (typ node) = true ->
  exists msg, e = Invalid.new node (Some msg).
Proof.
  apply (raised_ind (fun node e =>
           scalar (typ node) = true -> exists msg, e = Invalid.new node (Some msg))).
  - eauto.
  - intros n os Hscalar _ _ Hscalar'. congruence.
Qed.

Lemma traverse_unfold e stack :
  Invalid.traverse e stack
  = (match e_children e with [] => [stack ++ [e]] | _ => [] end)
    ++ flat_map (fun child => Invalid.traverse child (stack ++ [e])) (e_children e).
Proof. destruct e; reflexivity. Qed.

Lemma traverse_leaf f stack :
  e_children f = [] -> Invalid.traverse f stack = [stack ++ [f]].
Proof. intros Hleaf. rewrite traverse_unfold, Hleaf. reflexivity. Qed.

Lemma paths_leaf_child e f :
  f ∈ e_children e -> e_children f = [] -> [e; f] ∈ Invalid.paths e.
Proof.
  intros Hin Hleaf. unfold Invalid.paths. rewrite traverse_unfold.
  apply elem_of_app. right. apply list_elem_of_In, in_flat_map.
  exists f. split; [by apply list_elem_of_In |].
  rewrite traverse_leaf by exact Hleaf. left. reflexivity.
Qed.

Lemma paths_of_leaves e :
  e_children e <> [] ->
  Forall (fun f => e_children f = []) (e_children e) ->
  Invalid.paths e = (fun f => [e; f]) <$> e_children e.
Proof.
  intros Hne Hall. unfold Invalid.paths. rewrite traverse_unfold.
  destruct (e_children e) as [|f fs] eqn:E; [done |]. clear Hne E.
  change ([] ++ [e]) with [e]. rewrite app_nil_l.
  induction Hall as [|g gs Hg _ IH]; [reflexivity |].
  cbn [flat_map]. rewrite traverse_leaf by exact Hg. rewrite IH. reflexivity.
Qed.

Lemma last_elem_of {A : Type} (l : list A) x : last l = Some x -> x ∈ l.
Proof.
  intros [l' ->]%last_Some. apply elem_of_app. right. left.
Qed.

(** The report of an aggregate of leaves whose keys differ: one entry for
    each leaf. *)
Lemma leaves_report node fs :
  fs <> [] ->
  Forall (fun f => e_children f = []) fs ->
  (forall f f', f ∈ fs -> f' ∈ fs ->
     path_key [Agg.aggregate node fs; f] = path_key [Agg.aggregate node fs; f'] ->
     f = f') ->
  forall k m,
    Invalid.asdict (Agg.aggregate node fs) !! k = Some m
    <-> exists f, f ∈ fs
          /\ path_key [Agg.aggregate node fs; f] = k
          /\ ReportSpec.text [Agg.aggregate node fs; f] = m.
Proof.
  intros Hne Hleaves Huniq k m. set (agg := Agg.aggregate node fs) in *.
  rewrite asdict_spec, report_lookup, (paths_of_leaves agg Hne Hleaves).
  change (e_children agg) with fs. fold path_key.
  rewrite fmap_Some. split.
  - intros (path & Hlast%last_elem_of & ->).
    apply list_elem_of_filter in Hlast as [Hk Hin].
    apply list_elem_of_fmap in Hin as (f & -> & Hf). eauto.
  - intros (f & Hf & Hk & Hm).
    destruct (last (filter _ _)) as [path|] eqn:Hlast.
    + exists path. split; [reflexivity |]. rewrite <- Hm. f_equal.
      apply last_elem_of, list_elem_of_filter in Hlast as [Hk' Hpath].
      apply list_elem_of_fmap in Hpath as (f' & -> & Hf').
      f_equal. f_equal. apply Huniq; [exact Hf | exact Hf' |].
      rewrite Hk. symmetry. exact Hk'.
    + apply last_None in Hlast.
      assert (Hin : [agg; f] ∈ @nil (list Invalid)); [| by apply elem_of_nil in Hin].
      rewrite <- Hlast. apply list_elem_of_filter. split; [exact Hk |].
      apply list_elem_of_fmap. eauto.
Qed.

Lemma pretty_nat_nonempty (n : nat) : pretty n <> "".
Proof.
  unfold pretty, pretty_nat, pretty, pretty_N.
  destruct (decide (N.of_nat n = 0)%N); [discriminate |].
  apply pretty_N_go_digits. lia.
Qed.

Lemma key_pair a b :
  b <> "" ->
  Py.join "." (ReportSpec.present [a; b])
  = if decide (a = "") then b else a +:+ "." +:+ b.
Proof.
  intros Hb. unfold ReportSpec.present. rewrite !filter_cons, filter_nil.
  repeat case_decide; done.
Qed.

Lemma position_key_inj node : Inj (=) (=) (position_key node).
Proof.
  intros i j. unfold position_key.
  rewrite !key_pair by apply pretty_nat_nonempty.
  destruct (decide (name node = "")); intros H.
  - by apply (inj pretty) in H.
  - apply (inj (String.app _)), (inj (String.app _)) in H.
    by apply (inj pretty) in H.
Qed.

Lemma text_leaf node fs f m :
  e_msg f = Some m -> ReportSpec.text [Agg.aggregate node fs; f] = m.
Proof.
  intros Hm. unfold ReportSpec.text.
  assert (omap e_msg [Agg.aggregate node fs; f] = [m]) as ->
    by (cbn; rewrite Hm; reflexivity).
  unfold ReportSpec.present. rewrite filter_cons, filter_nil.
  case_decide as Hempty; [reflexivity |].
  destruct (decide (m = "")) as [-> | Hm']; [reflexivity | by destruct Hempty].
Qed.

Lemma path_key_positional node fs num e :
  Positional (typ node) = true ->
  path_key [Agg.aggregate node fs; Agg.tag node num e] = position_key node num.
Proof.
  intros Hpos. unfold path_key, position_key.
  cbn [fmap list_fmap]. unfold Invalid._keyname at 2.
  cbn [e_parent Agg.tag Invalid.set_parent Invalid.set_pos Invalid.new e_node e_pos].
  rewrite Hpos. reflexivity.
Qed.

Lemma path_key_named node fs num e :
  Positional (typ node) = false ->
  path_key [Agg.aggregate node fs; Agg.tag node num e]
  = Py.join "." (ReportSpec.present [name node; name (e_node e)]).
Proof.
  intros Hpos. unfold path_key.
  cbn [fmap list_fmap]. unfold Invalid._keyname at 2.
  cbn [e_parent Agg.tag Invalid.set_parent Invalid.set_pos Invalid.new e_node e_pos].
  rewrite Hpos. reflexivity.
Qed.

(** The report of a positional composite whose failures are leaves with a
    message: the message of every failure, under its position. *)
Lemma positional_report node wrap os e :
  Positional (typ node) = true ->
  (forall i e0, os !! i = Some (Raise e0) ->
     e_children e0 = [] /\ is_Some (e_msg e0)) ->
  Agg.positional node wrap os = Raise e ->
  forall k m,
    Invalid.asdict e !! k = Some m
    <-> exists i e0,
          os !! i = Some (Raise e0) /\ k = position_key node i
          /\ e_msg e0 = Some m.
Proof.
  intros Hpos Hos (Hne & ->)%positional_Raise_shape k m.
  rewrite leaves_report; [| exact Hne | |].
  - split.
    + intros (f & (i & e0 & Hi & ->)%failures_pos & Hk & Hm).
      exists i, e0. split; [exact Hi |].
      rewrite path_key_positional in Hk by exact Hpos. split; [done |].
      destruct (Hos i e0 Hi) as [_ [m' Hm']].
      rewrite (text_leaf _ _ _ m') in Hm by exact Hm'. congruence.
    + intros (i & e0 & Hi & -> & Hm). exists (Agg.tag node i e0).
      split; [exact (failures_elem node os 0 i e0 Hi) |].
      split; [by apply path_key_positional | by apply text_leaf].
  - apply Forall_forall. intros f (i & e0 & Hi & ->)%failures_pos.
    apply (Hos i e0 Hi).
  - intros f f' (i & e0 & Hi & ->)%failures_pos (j & e0' & Hj & ->)%failures_pos.
    rewrite !path_key_positional by exact Hpos.
    intros Hij%position_key_inj%(inj (Nat.add 0)). subst j. congruence.
Qed.

Lemma Sequence_impl_report accept_scalar cb node template rest value items e :
  typ node = Sequence accept_scalar ->
  nodes node = template :: rest ->
  (forall x e0, cb template x = Raise e0 ->
     exists msg, e0 = Invalid.new template (Some msg)) ->
  Sequence._validate accept_scalar node value = Return items ->
  Sequence._impl accept_scalar cb node value = Raise e ->
  forall k m,
    Invalid.asdict e !! k = Some m
    <-> exists i x,
          items !! i = Some x /\ k = position_key node i
          /\ cb template x = Raise (Invalid.new template (Some m)).
Proof.
  intros Htyp Hnodes Hcb Hv.
  rewrite (Sequence_impl_spec cb node template rest Hnodes), Hv.
  intros Hraise k m.
  assert (Hleaves : forall i e0,
             map (cb template) items !! i = Some (Raise e0) ->
             e_children e0 = [] /\ is_Some (e_msg e0)).
  { change (map (cb template) items) with (cb template <$> items).
    intros i e0 (x & Hx & _)%list_lookup_fmap_Some.
    symmetry in Hx. destruct (Hcb x e0 Hx) as [msg ->]. simpl. eauto. }
  assert (Hpos : Positional (typ node) = true) by (by rewrite Htyp).
  rewrite (positional_report _ _ _ _ Hpos Hleaves Hraise).
  change (map (cb template) items) with (cb template <$> items). split.
  - intros (i & e0 & (x & Hx & Hi)%list_lookup_fmap_Some & -> & Hm).
    exists i, x. split; [exact Hi |]. split; [reflexivity |].
    symmetry in Hx. destruct (Hcb x e0 Hx) as [msg ->].
    injection Hm as ->. exact Hx.
  - intros (i & x & Hi & -> & Hx). exists i, (Invalid.new template (Some m)).
    split; [| split; reflexivity].
    rewrite list_lookup_fmap, Hi. simpl. by rewrite Hx.
Qed.

(** X13.  When a Sequence whose template is a scalar node fails on some of its
    elements, the report holds exactly one entry for each element that
    failed: the message of the element's failure, under the position of
    the element (after the name of the Sequence node, if it has one). *)
Theorem Sequence_report_by_position accept_scalar node template rest value items :
  typ node = Sequence accept_scalar ->
  nodes node = template :: rest ->
  scalar (typ template) = true ->
  Sequence._validate accept_scalar node value = Return items ->
  (forall e,
     SchemaNode.deserialize node value = Raise e -> e_msg e = None ->
     forall k m,
       Invalid.asdict e !! k = Some m
       <-> exists i x,
             items !! i = Some x /\ k = position_key node i
             /\ SchemaNode.deserialize template x
                = Raise (Invalid.new template (Some m)))
  /\ (forall e,
        SchemaNode.serialize node value = Raise e ->
        forall k m,
          Invalid.asdict e !! k = Some m
          <-> exists i x,
                items !! i = Some x /\ k = position_key node i
                /\ SchemaNode.serialize template x
                   = Raise (Invalid.new template (Some m))).
Proof.
  intros Htyp Hnodes Hscalar Hv. split.
  - intros e Hraise Hmsg. rewrite deserialize_unfold, Htyp in Hraise.
    destruct (Sequence.deserialize _ _ _ _) as [r | e' | x] eqn:Hconv;
      [| injection Hraise as -> | discriminate].
    { apply validate_Raise_shape in Hraise as [msg ->]. discriminate. }
    apply (Sequence_impl_report accept_scalar
             (fun subnode subval => SchemaNode.deserialize subnode subval)
             node template rest value items e Htyp Hnodes); [| exact Hv | exact Hconv].
    intros x e0 Hx. eapply scalar_Raise_shape; [left; exact Hx | exact Hscalar].
  - intros e Hraise. rewrite serialize_unfold, Htyp in Hraise.
    apply (Sequence_impl_report accept_scalar
             (fun subnode subval => SchemaNode.serialize subnode subval)
             node template rest value items e Htyp Hnodes); [| exact Hv | exact Hraise].
    intros x e0 Hx. eapply scalar_Raise_shape; [right; exact Hx | exact Hscalar].
Qed.

Lemma Sequence_report_by_position_witness :
  Invalid.asdict (bad_at_1 false) !! "1" = Some "'bad' is not a number"
  <-> exists i x,
        [VStr "1"; VStr "bad"; VStr "3"] !! i = Some x
        /\ "1" = position_key (integers false) i
        /\ SchemaNode.deserialize item x
           = Raise (Invalid.new item (Some "'bad' is not a number")).
Proof.
  refine (proj1 (Sequence_report_by_position false (integers false) item []
                   one_bad_three [VStr "1"; VStr "bad"; VStr "3"] _ _ _ _)
            (bad_at_1 false) _ _ "1" "'bad' is not a number"); reflexivity.
Defined.

(** ** The report of a Mapping *)

Lemma append_self_inv (s t : string) : s = s +:+ t -> t = "".
Proof.
  induction s as [|c s IH]; intros H.
  - symmetry. exact H.
  - change (String c s +:+ t) with (String c (s +:+ t)) in H.
    injection H as H. exact (IH H).
Qed.

Lemma key_pair_inj a b b' :
  Py.join "." (ReportSpec.present [a; b])
  = Py.join "." (ReportSpec.present [a; b']) -> b = b'.
Proof.
  assert (Hempty : Py.join "." (ReportSpec.present [a; ""]) = a).
  { unfold ReportSpec.present. rewrite !filter_cons, filter_nil.
    repeat case_decide; done. }
  assert (Hdiff : forall c, c <> "" ->
             Py.join "." (ReportSpec.present [a; c]) <> a).
  { intros c Hc. rewrite key_pair by exact Hc.
    destruct (decide (a = "")) as [-> | Ha]; [exact Hc |].
    intros H. symmetry in H. apply append_self_inv in H. discriminate. }
  destruct (decide (b = "")) as [-> | Hb], (decide (b' = "")) as [-> | Hb'];
    try reflexivity.
  - rewrite Hempty. intros H. symmetry in H. by apply Hdiff in H.
  - rewrite Hempty. intros H. by apply Hdiff in H.
  - rewrite !key_pair by assumption.
    destruct (decide (a = "")); [done |].
    intros H. by apply (inj (String.app _)), (inj (String.app _)) in H.
Qed.

Lemma outcomes_lookup_NoDup cb dcb cs : forall (d : gmap string object) i c,
  NoDup (name <$> cs) ->
  cs !! i = Some c ->
  MappingSpec.outcomes cb dcb d cs !! i
  = Some (Mapping.attempt cb dcb c (d !! name c)).
Proof.
  induction cs as [|c0 cs IH]; intros d i c Hnodup Hc; [discriminate |].
  rewrite fmap_cons in Hnodup. apply NoDup_cons in Hnodup as [Hnotin Hnodup].
  destruct i as [|i]; simpl in Hc.
  - injection Hc as ->. reflexivity.
  - simpl. rewrite (IH _ i c Hnodup Hc). do 2 f_equal.
    apply lookup_delete_ne. intros Heq. apply Hnotin. rewrite Heq.
    apply list_elem_of_fmap. exists c. split; [reflexivity |].
    eapply list_elem_of_lookup_2. exact Hc.
Qed.

Lemma outcomes_lookup_absent cb dcb cs : forall (d : gmap string object) i c,
  cs !! i = Some c ->
  d !! name c = None ->
  MappingSpec.outcomes cb dcb d cs !! i = Some (Mapping.attempt cb dcb c None).
Proof.
  induction cs as [|c0 cs IH]; intros d i c Hc Hd; [discriminate |].
  destruct i as [|i]; simpl in Hc.
  - injection Hc as ->. simpl. by rewrite Hd.
  - simpl. apply IH; [exact Hc |]. apply lookup_delete_None. by right.
Qed.

Lemma Mapping_impl_report unknown_keys cb dcb node value d e :
  typ node = Mapping unknown_keys ->
  NoDup (name <$> nodes node) ->
  (forall c subval e0, c ∈ nodes node ->
     Mapping.attempt cb dcb c subval = Raise e0 ->
     exists msg, e0 = Invalid.new c (Some msg)) ->
  Py.dict value = Py.DictOk d ->
  Mapping._impl unknown_keys cb dcb node value = Raise e ->
  e_msg e = None ->
  forall k m,
    Invalid.asdict e !! k = Some m
    <-> exists c,
          c ∈ nodes node /\ k = child_key node c
          /\ Mapping.attempt cb dcb c (d !! name c)
             = Raise (Invalid.new c (Some m)).
Proof.
  intros Htyp Hnodup Hshape Hdict Himpl Hmsg k m.
  apply Mapping_impl_Raise_shape in Himpl
    as [[msg ->] | (d' & Hdict' & Hne & ->)]; [discriminate |].
  assert (d' = d) as -> by congruence. clear Hdict'.
  set (os := MappingSpec.outcomes cb dcb d (nodes node)) in *.
  assert (Hpos : Positional (typ node) = false) by (by rewrite Htyp).
  assert (Hat : forall i e0, os !! i = Some (Raise e0) ->
             exists c msg, nodes node !! i = Some c
               /\ e0 = Invalid.new c (Some msg)
               /\ Mapping.attempt cb dcb c (d !! name c) = Raise e0).
  { intros i e0 Hi.
    destruct (outcomes_lookup _ _ _ _ _ _ Hi) as (c & subval & Hc & _).
    unfold os in Hi. rewrite (outcomes_lookup_NoDup _ _ _ _ _ _ Hnodup Hc) in Hi.
    injection Hi as Hi.
    destruct (Hshape c _ e0 (list_elem_of_lookup_2 _ _ _ Hc) Hi) as [msg ->].
    eauto. }
  rewrite leaves_report; [| exact Hne | |].
  - split.
    + intros (f & (i & e0 & Hi & ->)%failures_pos & Hk & Hm).
      destruct (Hat i e0 Hi) as (c & msg & Hc & -> & Hatt).
      exists c. split; [eapply list_elem_of_lookup_2; exact Hc |].
      rewrite path_key_named in Hk by exact Hpos. split; [by rewrite <- Hk |].
      rewrite (text_leaf _ _ _ msg) in Hm by reflexivity. by subst m.
    + intros (c & (i & Hc)%list_elem_of_lookup_1 & -> & Hatt).
      exists (Agg.tag node i (Invalid.new c (Some m))).
      split; [| split; [by apply path_key_named | by apply text_leaf]].
      apply (failures_elem node os 0 i).
      unfold os. rewrite (outcomes_lookup_NoDup _ _ _ _ _ _ Hnodup Hc), Hatt.
      reflexivity.
  - apply Forall_forall. intros f (i & e0 & Hi & ->)%failures_pos.
    destruct (Hat i e0 Hi) as (c & msg & _ & -> & _). reflexivity.
  - intros f f' (i & e0 & Hi & ->)%failures_pos (j & e0' & Hj & ->)%failures_pos.
    rewrite !path_key_named by exact Hpos. intros Hkey%key_pair_inj.
    destruct (Hat i e0 Hi) as (c & msg & Hc & -> & _).
    destruct (Hat j e0' Hj) as (c' & msg' & Hc' & -> & _).
    cbn [e_node Invalid.new] in Hkey.
    assert (i = j) as ->.
    { eapply NoDup_lookup; [exact Hnodup | |].
      - rewrite list_lookup_fmap, Hc. reflexivity.
      - rewrite list_lookup_fmap, Hc', Hkey. reflexivity. }
    congruence.
Qed.

(** X14.  When a Mapping whose children are scalar nodes with distinct names
    fails on some of its children, the report holds exactly one entry for
    each child that failed: the message of the child's failure (a missing
    required value or a failed conversion), under the name of the child
    (after the name of the Mapping node, if it has one). *)
Theorem Mapping_report_by_name unknown_keys node value d :
  typ node = Mapping unknown_keys ->
  Forall (fun c => scalar (typ c) = true) (nodes node) ->
  NoDup (name <$> nodes node) ->
  Py.dict value = Py.DictOk d ->
  (forall e,
     SchemaNode.deserialize node value = Raise e -> e_msg e = None ->
     forall k m,
       Invalid.asdict e !! k = Some m
       <-> exists c,
             c ∈ nodes node /\ k = child_key node c
             /\ Mapping.attempt
                  (fun subnode subval => SchemaNode.deserialize subnode subval)
                  (fun subnode default => Return default)
                  c (d !! name c)
                = Raise (Invalid.new c (Some m)))
  /\ (forall e,
        SchemaNode.serialize node value = Raise e -> e_msg e = None ->
        forall k m,
          Invalid.asdict e !! k = Some m
          <-> exists c,
                c ∈ nodes node /\ k = child_key node c
                /\ Mapping.attempt
                     (fun subnode subval => SchemaNode.serialize subnode subval)
                     (fun subnode default => SchemaNode.serialize subnode default)
                     c (d !! name c)
                   = Raise (Invalid.new c (Some m))).
Proof.
  intros Htyp Hscalar Hnodup Hdict. rewrite Forall_forall in Hscalar. split.
  - intros e Hraise Hmsg. rewrite deserialize_unfold, Htyp in Hraise.
    destruct (Mapping.deserialize _ _ _ _) as [r | e' | x] eqn:Hconv;
      [| injection Hraise as -> | discriminate].
    { apply validate_Raise_shape in Hraise as [msg ->]. discriminate. }
    apply (Mapping_impl_report unknown_keys _ _ node value d e Htyp Hnodup);
      [| exact Hdict | exact Hconv | exact Hmsg].
    intros c subval e0 Hc Hatt. unfold Mapping.attempt in Hatt.
    destruct subval as [x|].
    + eapply scalar_Raise_shape; [left; exact Hatt | by apply Hscalar].
    + destruct (default_ c); [discriminate |]. injection Hatt as <-. eauto.
  - intros e Hraise Hmsg. rewrite serialize_unfold, Htyp in Hraise.
    apply (Mapping_impl_report unknown_keys _ _ node value d e Htyp Hnodup);
      [| exact Hdict | exact Hraise | exact Hmsg].
    intros c subval e0 Hc Hatt. unfold Mapping.attempt in Hatt.
    destruct subval as [x|].
    + eapply scalar_Raise_shape; [right; exact Hatt | by apply Hscalar].
    + destruct (default_ c).
      * eapply scalar_Raise_shape; [right; exact Hatt | by apply Hscalar].
      * injection Hatt as <-. eauto.
Qed.

Lemma Mapping_report_by_name_witness :
  Invalid.asdict
    (Agg.aggregate a_b_c
       (Agg.failures a_b_c 0 (MappingSpec.inbound_outcomes ∅ (nodes a_b_c))))
    !! "a" = Some "'a' is required but missing"
  <-> exists c,
        c ∈ nodes a_b_c /\ "a" = child_key a_b_c c
        /\ Mapping.attempt
             (fun subnode subval => SchemaNode.deserialize subnode subval)
             (fun subnode default => Return default)
             c ((∅ : gmap string object) !! name c)
           = Raise (Invalid.new c (Some "'a' is required but missing")).
Proof.
  refine (proj1 (Mapping_report_by_name raise a_b_c (VDict ∅) ∅ _ _ _ _) _ _ _
            "a" "'a' is required but missing");
    try reflexivity.
  - repeat constructor.
  - apply (bool_decide_unpack _). vm_compute. reflexivity.
Defined.

Lemma Mapping_impl_missing unknown_keys cb dcb node value d c :
  typ node = Mapping unknown_keys ->
  Py.dict value = Py.DictOk d ->
  c ∈ nodes node ->
  default_ c = None ->
  d !! name c = None ->
  (forall r, Mapping._impl unknown_keys cb dcb node value <> Return r)
  /\ forall e,
       Mapping._impl unknown_keys cb dcb node value = Raise e ->
       e_msg e = None ->
       is_Some (Invalid.asdict e !! child_key node c).
Proof.
  intros Htyp Hdict (i & Hc)%list_elem_of_lookup_1 Hdefault Hd.
  set (os := MappingSpec.outcomes cb dcb d (nodes node)).
  set (e0 := Invalid.new c
               (Some (Py.repr_str (name c) +:+ " is required but missing"))).
  assert (Hi : os !! i = Some (Raise e0)).
  { unfold os. rewrite (outcomes_lookup_absent _ _ _ _ _ _ Hc Hd).
    unfold Mapping.attempt. rewrite Hdefault. reflexivity. }
  pose proof (failures_elem node os 0 i e0 Hi) as Hf. split.
  - intros r. unfold Mapping._impl, Mapping._validate. rewrite Hdict.
    destruct (Mapping.loop _ _ _ _ _ _) as [st | e' | x] eqn:Hloop;
      [| discriminate | discriminate].
    destruct (Mapping_loop_Return _ _ _ _ _ _ _ [] Hloop eq_refl)
      as (_ & Herror & _). simpl in Herror. fold os in Herror.
    unfold Mapping.finish. rewrite Herror.
    destruct (match unknown_keys with raise => _ | _ => false end);
      [discriminate |].
    destruct (Agg.failures node 0 os); [by apply elem_of_nil in Hf |].
    discriminate.
  - intros e Himpl Hmsg.
    apply Mapping_impl_Raise_shape in Himpl
      as [[msg ->] | (d' & Hdict' & Hne & ->)]; [discriminate |].
    assert (d' = d) as -> by congruence. fold os in Hne |- *.
    set (agg := Agg.aggregate node (Agg.failures node 0 os)).
    assert (Hpath : [agg; Agg.tag node (0 + i) e0] ∈ Invalid.paths agg)
      by (by apply paths_leaf_child).
    rewrite asdict_spec, report_lookup. fold path_key.
    destruct (last _) as [path|] eqn:Hlast; [by eexists |].
    apply last_None in Hlast.
    assert (Hin : [agg; Agg.tag node (0 + i) e0] ∈ @nil (list Invalid));
      [| by apply elem_of_nil in Hin].
    rewrite <- Hlast. apply list_elem_of_filter. split; [| exact Hpath].
    apply path_key_named. by rewrite Htyp.
Qed.

(** X15.  A Mapping never returns when its input lacks the key of a child
    without default: the conversion fails, and when the failure is the
    aggregate of the children's failures (it has no message of its own)
    the report has an entry under the name of that child. *)
Theorem required_child_missing unknown_keys node value d c :
  typ node = Mapping unknown_keys ->
  Py.dict value = Py.DictOk d ->
  c ∈ nodes node ->
  default_ c = None ->
  d !! name c = None ->
  forall convert,
    convert = SchemaNode.deserialize \/ convert = SchemaNode.serialize ->
    (forall r, convert node value <> Return r)
    /\ forall e,
         convert node value = Raise e ->
         e_msg e = None ->
         is_Some (Invalid.asdict e !! child_key node c).
Proof.
  intros Htyp Hdict Hc Hdefault Hd convert [-> | ->].
  - destruct (Mapping_impl_missing unknown_keys
                (fun subnode subval => SchemaNode.deserialize subnode subval)
                (fun subnode default => Return default)
                node value d c Htyp Hdict Hc Hdefault Hd) as [Hnot Hkey].
    rewrite deserialize_unfold, Htyp. unfold Mapping.deserialize.
    destruct (Mapping._impl _ _ _ _ _) as [r | e' | x] eqn:Himpl;
      [by destruct (Hnot r) | | split; discriminate].
    split; [discriminate |]. intros e [= <-]. by apply Hkey.
  - rewrite serialize_unfold, Htyp. unfold Mapping.serialize.
    exact (Mapping_impl_missing unknown_keys _ _ node value d c
             Htyp Hdict Hc Hdefault Hd).
Qed.

Lemma required_child_missing_witness :
  (forall r, SchemaNode.deserialize (x_mapping None "" None [] ignore) (VDict ∅)
             <> Return r)
  /\ forall e,
       SchemaNode.deserialize (x_mapping None "" None [] ignore) (VDict ∅) = Raise e ->
       e_msg e = None ->
       is_Some (Invalid.asdict e
                  !! child_key (x_mapping None "" None [] ignore) (x_child None [])).
Proof.
  refine (required_child_missing ignore (x_mapping None "" None [] ignore)
            (VDict ∅) ∅ (x_child None []) _ _ _ _ _ SchemaNode.deserialize _);
    try reflexivity.
  - left.
  - left. reflexivity.
Defined.

(** ** Declarative schemas *)

Lemma scan_spec items : forall store nodes,
  _SchemaMeta.scan items store nodes
  = (fold_left (fun store item => alter (set_name item.1) item.2 store)
       (declared items) store,
     nodes ++ (declared items).*2).
Proof.
  induction items as [|[name [order|]] items IH]; intros store nodes.
  - simpl. by rewrite app_nil_r.
  - simpl. rewrite IH, <- app_assoc. reflexivity.
  - simpl. apply IH.
Qed.

Lemma renames_permutation (l l' : list (string * nat)) :
  l ≡ₚ l' ->
  NoDup l.*2 ->
  forall store : instances,
    fold_left (fun store item => alter (set_name item.1) item.2 store) l store
    = fold_left (fun store item => alter (set_name item.1) item.2 store) l' store.
Proof.
  induction 1 as [| x l l' _ IH | x y l | l l' l'' Hl IH Hl' IH'];
    intros Hnodup store.
  - reflexivity.
  - simpl. apply IH. rewrite fmap_cons in Hnodup. by apply NoDup_cons in Hnodup as [].
  - simpl. f_equal. apply alter_alter_ne.
    rewrite !fmap_cons in Hnodup. apply NoDup_cons in Hnodup as [Hnotin _].
    intros Heq. apply Hnotin. rewrite Heq. left.
  - rewrite IH by exact Hnodup. apply IH'. by rewrite <- Hl.
Qed.

Lemma renames_lookup_notin (l : list (string * nat)) order :
  order ∉ l.*2 ->
  forall store : instances,
    fold_left (fun store item => alter (set_name item.1) item.2 store) l store
      !! order
    = store !! order.
Proof.
  induction l as [|[name0 order0] l IH]; intros Hnotin store; [reflexivity |].
  rewrite fmap_cons in Hnotin. apply not_elem_of_cons in Hnotin as [Hne Hnotin].
  simpl. rewrite IH by exact Hnotin. by apply lookup_alter_ne.
Qed.

Lemma renames_lookup_in (l : list (string * nat)) name order :
  NoDup l.*2 ->
  (name, order) ∈ l ->
  forall store : instances,
    fold_left (fun store item => alter (set_name item.1) item.2 store) l store
      !! order
    = set_name name <$> store !! order.
Proof.
  induction l as [|[name0 order0] l IH]; intros Hnodup Hin store.
  { by apply elem_of_nil in Hin. }
  rewrite fmap_cons in Hnodup. apply NoDup_cons in Hnodup as [Hnotin Hnodup].
  apply elem_of_cons in Hin as [[= -> ->] | Hin]; simpl.
  - rewrite renames_lookup_notin by exact Hnotin. apply lookup_alter_eq.
  - rewrite IH by assumption. f_equal. apply lookup_alter_ne.
    intros ->. apply Hnotin. apply list_elem_of_fmap. by exists (name, order).
Qed.

Lemma fold_add children : forall node,
  fold_left SchemaNode.add children node
  = mkSchemaNode (typ node) (validator node) (default_ node) (name node)
      (nodes node ++ children).
Proof.
  induction children as [|child children IH]; intros node.
  - simpl. rewrite app_nil_r. by destruct node.
  - simpl. rewrite IH. unfold SchemaNode.add. simpl. by rewrite <- app_assoc.
Qed.

(** X16.  The children of a class do not depend on the order in which Python
    enumerates the attributes of the class body, and neither do the
    instances when no instance is the value of two attributes. *)
Theorem class_independent_of_enumeration clsattrs clsattrs' mro store :
  clsattrs ≡ₚ clsattrs' ->
  cls_nodes (_SchemaMeta.__init__ clsattrs mro store).1
  = cls_nodes (_SchemaMeta.__init__ clsattrs' mro store).1
  /\ (NoDup (declared clsattrs).*2 ->
      (_SchemaMeta.__init__ clsattrs mro store).2
      = (_SchemaMeta.__init__ clsattrs' mro store).2).
Proof.
  intros Hperm. unfold _SchemaMeta.__init__. rewrite !scan_spec. simpl.
  assert (Hdeclared : declared clsattrs ≡ₚ declared clsattrs')
    by (unfold declared; by rewrite Hperm).
  split.
  - apply (StronglySorted_unique le); try apply StronglySorted_merge_sort; try apply _.
    rewrite !merge_sort_Permutation. by rewrite Hdeclared.
  - intros Hnodup. by apply renames_permutation.
Qed.

Lemma class_independent_of_enumeration_witness :
  cls_nodes (_SchemaMeta.__init__ a_b_body [] a_b_instances).1
  = cls_nodes (_SchemaMeta.__init__ (reverse a_b_body) [] a_b_instances).1
  /\ (NoDup (declared a_b_body).*2 ->
      (_SchemaMeta.__init__ a_b_body [] a_b_instances).2
      = (_SchemaMeta.__init__ (reverse a_b_body) [] a_b_instances).2).
Proof.
  apply (class_independent_of_enumeration a_b_body (reverse a_b_body) []
           a_b_instances).
  symmetry. apply reverse_Permutation.
Defined.

(** X17.  The node that a declarative schema makes has the type asked for, the
    empty name, no validator and no default; its children are the
    instances that the class declares and inherits, in the order of their
    creation, each declared one under the name of its attribute. *)
Theorem Schema_children_in_creation_order clsattrs mro store typ :
  NoDup (declared clsattrs).*2 ->
  (forall order, order ∈ (declared clsattrs).*2 ++ inherited mro ->
     is_Some (store !! order)) ->
  exists orders children,
    Schema.__new__ (_SchemaMeta.__init__ clsattrs mro store).1 typ
      (_SchemaMeta.__init__ clsattrs mro store).2
    = Some (mkSchemaNode typ None None "" children)
    /\ orders ≡ₚ (declared clsattrs).*2 ++ inherited mro
    /\ StronglySorted le orders
    /\ Forall2
         (fun order child =>
            (forall name, (name, order) ∈ declared clsattrs ->
               set_name name <$> store !! order = Some child)
            /\ (order ∉ (declared clsattrs).*2 -> store !! order = Some child))
         orders children.
Proof.
  intros Hnodup Hstore. unfold _SchemaMeta.__init__. rewrite scan_spec. simpl.
  fold (inherited mro).
  set (orders := merge_sort le ((declared clsattrs).*2 ++ inherited mro)).
  set (store' := fold_left _ _ _).
  assert (Hperm : orders ≡ₚ (declared clsattrs).*2 ++ inherited mro)
    by apply merge_sort_Permutation.
  assert (Hsome : is_Some (mapM (fun order => store' !! order) orders)).
  { apply mapM_is_Some, Forall_forall. intros order Hin. simpl.
    rewrite Hperm in Hin. specialize (Hstore order Hin).
    destruct (decide (order ∈ (declared clsattrs).*2)) as [Hd | Hd].
    - apply list_elem_of_fmap in Hd as ([name order'] & -> & Hd).
      unfold store'. rewrite (renames_lookup_in _ name order' Hnodup Hd).
      by apply fmap_is_Some.
    - unfold store'. by rewrite renames_lookup_notin. }
  destruct Hsome as [children Hchildren].
  exists orders, children. unfold Schema.__new__. simpl. rewrite Hchildren.
  split; [by rewrite fold_add |]. split; [exact Hperm |].
  split; [apply StronglySorted_merge_sort; apply _ |].
  apply mapM_Some in Hchildren.
  eapply Forall2_impl; [exact Hchildren |].
  intros order child Hlookup. simpl in Hlookup. split.
  - intros name Hin. rewrite <- Hlookup. symmetry.
    by apply renames_lookup_in.
  - intros Hnotin. rewrite <- Hlookup. symmetry.
    by apply renames_lookup_notin.
Qed.

Lemma Schema_children_in_creation_order_witness :
  exists orders children,
    Schema.__new__ (_SchemaMeta.__init__ a_b_body [] a_b_instances).1
      (Mapping ignore) (_SchemaMeta.__init__ a_b_body [] a_b_instances).2
    = Some (mkSchemaNode (Mapping ignore) None None "" children)
    /\ orders ≡ₚ (declared a_b_body).*2 ++ inherited []
    /\ StronglySorted le orders
    /\ Forall2
         (fun order child =>
            (forall name, (name, order) ∈ declared a_b_body ->
               set_name name <$> a_b_instances !! order = Some child)
            /\ (order ∉ (declared a_b_body).*2 ->
                a_b_instances !! order = Some child))
         orders children.
Proof.
  apply (Schema_children_in_creation_order a_b_body [] a_b_instances
           (Mapping ignore)).
  - apply (bool_decide_unpack _). vm_compute. reflexivity.
  - intros order Hin. vm_compute in Hin.
    apply elem_of_cons in Hin as [-> | Hin]; [by eexists |].
    apply elem_of_cons in Hin as [-> | Hin]; [by eexists |].
    by apply elem_of_nil in Hin.
Defined.

(** ** What a deserialization returns has the shape of the schema *)

Lemma shaped_unfold node v :
  shaped node v
  <-> RoundTrip.accepted node v
      /\ match typ node with
         | Integer => exists z, v = VInt z
         | Boolean => exists b, v = VBool b
         | Other _ => True
         | Tuple =>
             exists l, v = VTuple l /\ RoundTrip.positions shaped (nodes node) l
         | Sequence _ =>
             exists l,
               v = VList l
               /\ match nodes node with
                  | [] => l = []
                  | template :: _ => Forall (shaped template) l
                  end
         | Mapping _ =>
             exists d : gmap string object,
               v = VDict d
               /\ forall k, k ∈ name <$> nodes node ->
                    exists x, d !! k = Some x /\ supplied shaped (nodes node) k x
         end.
Proof. destruct node; reflexivity. Qed.

Lemma supplied_intro (Q : SchemaNode -> object -> Prop) cs c k x :
  c ∈ cs -> name c = k -> Q c x \/ default_ c = Some x -> supplied Q cs k x.
Proof.
  intros Hin Hname HQ. induction cs as [|c0 cs IH]; [by apply elem_of_nil in Hin |].
  apply elem_of_cons in Hin as [-> | Hin]; simpl; [left; auto | right; auto].
Qed.

(** After a loop that collected no failure, the result has an entry under
    the name of every child, which a child of that name returned. *)
Lemma Mapping_loop_supplied cb dcb node cs : forall num st st',
  Mapping.loop cb dcb node num cs st = Return st' ->
  Mapping.l_error st' = None ->
  forall k, k ∈ name <$> cs ->
    exists x c subval,
      Mapping.l_result st' !! k = Some x
      /\ c ∈ cs /\ name c = k /\ Mapping.attempt cb dcb c subval = Return x.
Proof.
  induction cs as [|c cs IH]; intros num st st' Hloop Herr k Hk.
  { by apply elem_of_nil in Hk. }
  simpl in Hloop.
  destruct (Mapping.attempt cb dcb c _) as [r | e | x] eqn:Hatt; [| | discriminate].
  - destruct (decide (k ∈ name <$> cs)) as [Hin | Hnotin].
    + destruct (IH _ _ _ Hloop Herr k Hin) as (x & c' & subval & Hx & Hc' & Hn & Ha).
      exists x, c', subval. repeat split; try assumption. by right.
    + rewrite fmap_cons in Hk. apply elem_of_cons in Hk as [-> | Hk]; [| done].
      exists r, c, (Mapping.l_value st !! name c).
      split; [| split; [left | split; [reflexivity | exact Hatt]]].
      rewrite (Mapping_loop_result_other _ _ _ _ _ _ _ _ Hloop Hnotin).
      simpl. apply lookup_insert_eq.
  - assert (Hsome : is_Some (Mapping.l_error st')).
    { eapply Mapping_loop_error_Some; [exact Hloop |]. simpl. unfold collect. eauto. }
    rewrite Herr in Hsome. by destruct Hsome.
Qed.

Lemma Mapping_impl_supplied unknown_keys cb dcb node value r :
  Mapping._impl unknown_keys cb dcb node value = Return r ->
  exists result : gmap string object,
    r = VDict result
    /\ forall k, k ∈ name <$> nodes node ->
         exists x c subval,
           result !! k = Some x
           /\ c ∈ nodes node /\ name c = k
           /\ Mapping.attempt cb dcb c subval = Return x.
Proof.
  unfold Mapping._impl, Mapping._validate.
  destruct (Py.dict value) as [d | |]; try discriminate.
  destruct (Mapping.loop _ _ _ _ _ _) as [st | |] eqn:Hloop; try discriminate.
  unfold Mapping.finish.
  destruct (match unknown_keys with raise => _ | _ => false end);
    [discriminate |].
  destruct (Mapping.l_error st) eqn:Herr; [discriminate |].
  intros [= <-]. eexists. split; [reflexivity |]. intros k Hk.
  destruct (Mapping_loop_supplied _ _ _ _ _ _ _ Hloop Herr k Hk)
    as (x & c & subval & Hx & Hrest).
  exists x, c, subval. split; [| exact Hrest].
  destruct unknown_keys; try exact Hx.
  rewrite lookup_union_r; [exact Hx |].
  rewrite (Mapping_loop_value _ _ _ _ _ _ _ Hloop). simpl.
  rewrite unmatched_lookup. by rewrite decide_True.
Qed.

Lemma positions_zip (Q : SchemaNode -> object -> Prop)
    (cb : SchemaNode -> object -> outcome object) cs : forall items rs,
  length items = length cs ->
  Forall (fun c => forall x r, cb c x = Return r -> Q c r) cs ->
  Forall2 (fun o y => o = Return y) (zip_with cb cs items) rs ->
  RoundTrip.positions Q cs rs.
Proof.
  induction cs as [|c cs IH]; intros items rs Hlen Hcs Hrs.
  - destruct items; [| discriminate]. by inversion Hrs.
  - destruct items as [|x items]; [discriminate |]. simpl in Hrs.
    inversion Hrs as [| o y os ys Ho Hos]; subst.
    inversion Hcs as [| c' cs' Hc Hcs']; subst. simpl. split.
    + by eapply Hc.
    + eapply IH; [| exact Hcs' | exact Hos]. simpl in Hlen. lia.
Qed.

(** X18.  What [deserialize] returns has the shape of the schema: an integer for
    an Integer node, a [bool] for a Boolean node, a tuple of values of the
    children's shapes for a Tuple node, a list of values of the template's
    shape for a Sequence node, and for a Mapping node a dictionary with,
    under the name of every child, a value of the shape of a child of that
    name or the default of such a child as it stands; at every node, the
    node's validator accepts the value. *)
Theorem deserialize_shaped node : forall value r,
  SchemaNode.deserialize node value = Return r -> shaped node r.
Proof.
  induction node as [t check default nm ns IH] using SchemaNode_tree_ind.
  intros value r Hd. set (node := mkSchemaNode t check default nm ns) in *.
  rewrite deserialize_unfold in Hd. cbn [typ node] in Hd.
  match type of Hd with
  | match ?conv with _ => _ end = _ =>
      destruct conv as [r' | e' | x] eqn:Hconv; [| discriminate | discriminate]
  end.
  pose proof (validate_Return _ _ _ Hd) as ->.
  apply shaped_unfold. split; [exact Hd |]. cbn [typ nodes node].
  destruct t as [unknown_keys | | accept_scalar | | | leaf].
  - apply Mapping_impl_supplied in Hconv as (result & -> & Hresult).
    exists result. split; [reflexivity |]. intros k Hk.
    destruct (Hresult k Hk) as (x & c & subval & Hx & Hc & Hname & Hatt).
    exists x. split; [exact Hx |].
    apply (supplied_intro shaped ns c k x Hc Hname).
    unfold Mapping.attempt in Hatt. destruct subval as [v|].
    + left. rewrite Forall_forall in IH. exact (IH c Hc v x Hatt).
    + right. destruct (default_ c); [congruence | discriminate].
  - unfold Tuple.deserialize in Hconv. rewrite Tuple_impl_spec in Hconv.
    destruct (Tuple._validate node value) as [items | |] eqn:Hv; try discriminate.
    apply positional_Return_inv in Hconv as (rs & -> & Hrs).
    exists rs. split; [reflexivity |].
    apply Tuple_validate_Return in Hv as (Hlist & Hiter & Hlen).
    apply (positions_zip shaped
             (fun subnode subval => SchemaNode.deserialize subnode subval)
             ns items rs); [| exact IH | exact Hrs].
    exact (to_list_length _ _ _ Hiter Hlist Hlen).
  - unfold Sequence.deserialize in Hconv.
    destruct ns as [|template rest] eqn:Hns.
    + unfold Sequence._impl in Hconv.
      destruct (Sequence._validate accept_scalar node value) as [items | |];
        try discriminate.
      destruct items; [| discriminate]. injection Hconv as <-.
      exists []. split; reflexivity.
    + rewrite (Sequence_impl_spec _ node template rest eq_refl) in Hconv.
      destruct (Sequence._validate accept_scalar node value) as [items | |];
        try discriminate.
      apply positional_Return_inv in Hconv as (rs & -> & Hrs).
      exists rs. split; [reflexivity |].
      apply Forall2_map_Return in Hrs. inversion IH as [| ? ? Htemplate _]; subst.
      clear -Hrs Htemplate. induction Hrs as [| x y items rs Hx _ IHrs]; constructor.
      * exact (Htemplate x y Hx).
      * exact IHrs.
  - unfold Integer.deserialize in Hconv. destruct (Py.int value) as [z|].
    + injection Hconv as <-. eauto.
    + unfold raise_r in Hconv. destruct (Py.percent_r value); discriminate.
  - unfold Boolean.deserialize in Hconv. destruct (Py.str value) as [s|].
    + destruct (_ || _); injection Hconv as <-; eauto.
    + unfold raise_r in Hconv. destruct (Py.percent_r value); discriminate.
  - exact I.
Qed.

Lemma deserialize_shaped_witness :
  shaped (x_mapping None "" None [] ignore) (VDict (<["x" := VInt 1]> ∅)).
Proof.
  apply (deserialize_shaped (x_mapping None "" None [] ignore) x_y_input).
  reflexivity.
Defined.

(** ** Edges of the composites *)

(** X19.  A Sequence node without a child accepts the empty list only: on any
    element, reading the template ends in an [IndexError]. *)
Theorem Sequence_needs_template accept_scalar node value items :
  typ node = Sequence accept_scalar ->
  nodes node = [] ->
  Sequence._validate accept_scalar node value = Return items ->
  SchemaNode.deserialize node value
  = match items with
    | [] => SchemaNode.validate node (VList [])
    | _ => Uncaught IndexError
    end
  /\ SchemaNode.serialize node value
     = match items with
       | [] => Return (VList [])
       | _ => Uncaught IndexError
       end.
Proof.
  intros Htyp Hnodes Hv.
  rewrite deserialize_unfold, serialize_unfold, Htyp.
  unfold Sequence.deserialize, Sequence.serialize, Sequence._impl.
  rewrite Hv. destruct items as [|x items]; simpl; [by split |].
  rewrite Hnodes. by split.
Qed.

Lemma Sequence_needs_template_witness :
  SchemaNode.deserialize (mkSchemaNode (Sequence false) None None "s" [])
    (VList [VInt 1])
  = Uncaught IndexError
  /\ SchemaNode.serialize (mkSchemaNode (Sequence false) None None "s" [])
       (VList [VInt 1])
     = Uncaught IndexError.
Proof.
  apply (Sequence_needs_template false
           (mkSchemaNode (Sequence false) None None "s" [])
           (VList [VInt 1]) [VInt 1]); reflexivity.
Defined.

Lemma Mapping_loop_cut cb dcb node cs : forall num st x,
  Agg.cut (MappingSpec.outcomes cb dcb (Mapping.l_value st) cs) = Some x ->
  Mapping.loop cb dcb node num cs st = Uncaught x.
Proof.
  induction cs as [|c cs IH]; intros num st x Hcut; [discriminate |].
  simpl in Hcut |- *.
  destruct (Mapping.attempt cb dcb c _) as [r | e | y].
  - by apply IH.
  - by apply IH.
  - by injection Hcut as ->.
Qed.

(** X20.  A Mapping catches [Invalid] only: when the conversion of a child ends
    in another exception, the conversion of the Mapping ends in the first
    such exception, in declaration order. *)
Theorem Mapping_uncaught_propagates unknown_keys node value d x :
  typ node = Mapping unknown_keys ->
  Py.dict value = Py.DictOk d ->
  (Agg.cut (MappingSpec.inbound_outcomes d (nodes node)) = Some x ->
   SchemaNode.deserialize node value = Uncaught x)
  /\ (Agg.cut (MappingSpec.outbound_outcomes d (nodes node)) = Some x ->
      SchemaNode.serialize node value = Uncaught x).
Proof.
  intros Htyp Hdict. split; intros Hcut.
  - rewrite deserialize_unfold, Htyp.
    unfold Mapping.deserialize, Mapping._impl, Mapping._validate.
    rewrite Hdict.
    by rewrite (Mapping_loop_cut _ _ node (nodes node) 0 (Mapping.mkLocals d ∅ None)
                  x Hcut).
  - rewrite serialize_unfold, Htyp.
    unfold Mapping.serialize, Mapping._impl, Mapping._validate.
    rewrite Hdict.
    by rewrite (Mapping_loop_cut _ _ node (nodes node) 0 (Mapping.mkLocals d ∅ None)
                  x Hcut).
Qed.

Lemma Mapping_uncaught_propagates_witness :
  SchemaNode.deserialize untyped_list untyped_list_input = Uncaught IndexError.
Proof.
  refine (proj1 (Mapping_uncaught_propagates ignore untyped_list
                   untyped_list_input (<["s" := VList [VInt 1]]> ∅) IndexError
                   _ _) _); reflexivity.
Defined.

Lemma outcomes_lookup_shadowed cb dcb cs : forall (d : gmap string object) i j c1 c2,
  cs !! i = Some c1 ->
  cs !! j = Some c2 ->
  i < j ->
  name c1 = name c2 ->
  MappingSpec.outcomes cb dcb d cs !! j = Some (Mapping.attempt cb dcb c2 None).
Proof.
  induction cs as [|c0 cs IH]; intros d i j c1 c2 Hi Hj Hlt Hname; [discriminate |].
  destruct j as [|j]; [lia |]. simpl in Hj |- *.
  destruct i as [|i]; simpl in Hi.
  - injection Hi as ->. apply outcomes_lookup_absent; [exact Hj |].
    rewrite <- Hname. apply lookup_delete_eq.
  - apply (IH _ i j c1 c2); [assumption | assumption | lia | assumption].
Qed.

Lemma Mapping_impl_failed unknown_keys cb dcb node value d i e0 :
  Py.dict value = Py.DictOk d ->
  MappingSpec.outcomes cb dcb d (nodes node) !! i = Some (Raise e0) ->
  forall r, Mapping._impl unknown_keys cb dcb node value <> Return r.
Proof.
  intros Hdict Hi r.
  pose proof (failures_elem node _ 0 i e0 Hi) as Hf.
  unfold Mapping._impl, Mapping._validate. rewrite Hdict.
  destruct (Mapping.loop _ _ _ _ _ _) as [st | e' | x] eqn:Hloop;
    [| discriminate | discriminate].
  destruct (Mapping_loop_Return _ _ _ _ _ _ _ [] Hloop eq_refl)
    as (_ & Herror & _). simpl in Herror.
  unfold Mapping.finish. rewrite Herror.
  destruct (match unknown_keys with raise => _ | _ => false end);
    [discriminate |].
  destruct (Agg.failures node 0 _); [by apply elem_of_nil in Hf |].
  discriminate.
Qed.

Lemma Mapping_impl_shadowed unknown_keys cb dcb node i j c1 c2 value r :
  nodes node !! i = Some c1 ->
  nodes node !! j = Some c2 ->
  i < j ->
  name c1 = name c2 ->
  default_ c2 = None ->
  Mapping._impl unknown_keys cb dcb node value <> Return r.
Proof.
  intros Hi Hj Hlt Hname Hdefault.
  destruct (Py.dict value) as [d | msg |] eqn:Hdict.
  - eapply Mapping_impl_failed; [exact Hdict |].
    rewrite (outcomes_lookup_shadowed _ _ _ _ _ _ _ _ Hi Hj Hlt Hname).
    unfold Mapping.attempt. rewrite Hdefault. reflexivity.
  - unfold Mapping._impl, Mapping._validate. rewrite Hdict. discriminate.
  - unfold Mapping._impl, Mapping._validate. rewrite Hdict. discriminate.
Qed.

(** X21.  A child takes its entry out of the input, so that a later child of
    the same name never finds one: when that later child has no default,
    no conversion of the Mapping returns, whatever the input. *)
Theorem duplicate_name_never_returns unknown_keys node i j c1 c2 :
  typ node = Mapping unknown_keys ->
  nodes node !! i = Some c1 ->
  nodes node !! j = Some c2 ->
  i < j ->
  name c1 = name c2 ->
  default_ c2 = None ->
  forall value r,
    SchemaNode.deserialize node value <> Return r
    /\ SchemaNode.serialize node value <> Return r.
Proof.
  intros Htyp Hi Hj Hlt Hname Hdefault value r. split.
  - rewrite deserialize_unfold, Htyp. unfold Mapping.deserialize.
    destruct (Mapping._impl _ _ _ _ _) as [r' | e | x] eqn:Himpl;
      [| discriminate | discriminate].
    by apply (Mapping_impl_shadowed _ _ _ _ _ _ _ _ _ _ Hi Hj Hlt Hname Hdefault)
      in Himpl.
  - rewrite serialize_unfold, Htyp. unfold Mapping.serialize.
    by apply (Mapping_impl_shadowed _ _ _ _ i j c1 c2).
Qed.

Lemma duplicate_name_never_returns_witness :
  SchemaNode.deserialize x_twice (VDict (<["x" := VStr "1"]> ∅))
  <> Return (VDict (<["x" := VInt 1]> ∅))
  /\ SchemaNode.serialize x_twice (VDict (<["x" := VInt 1]> ∅))
     <> Return (VDict (<["x" := VInt 1]> ∅)).
Proof.
  split.
  - refine (proj1 (duplicate_name_never_returns ignore x_twice 0 1
                     (x_child None []) (x_child None []) _ _ _ _ _ _ _ _));
      (reflexivity || lia).
  - refine (proj2 (duplicate_name_never_returns ignore x_twice 0 1
                     (x_child None []) (x_child None []) _ _ _ _ _ _ _ _));
      (reflexivity || lia).
Defined.

(** ** Outbound conversion never consults a validator *)

Lemma unvalidated_unfold node :
  unvalidated node
  = mkSchemaNode (typ node) None (default_ node) (name node)
      (map unvalidated (nodes node)).
Proof. destruct node; reflexivity. Qed.

Lemma nodes_unvalidated node :
  nodes (unvalidated node) = map unvalidated (nodes node).
Proof. destruct node; reflexivity. Qed.

Lemma erase_unfold e :
  erase e
  = {| e_node := unvalidated (e_node e); e_msg := e_msg e; e_pos := e_pos e;
       e_parent := unvalidated <$> e_parent e;
       e_children := map erase (e_children e) |}.
Proof. destruct e; reflexivity. Qed.

Lemma erase_new node msg :
  erase (Invalid.new node msg) = Invalid.new (unvalidated node) msg.
Proof. reflexivity. Qed.

Lemma erase_tag node num e :
  erase (Agg.tag node num e) = Agg.tag (unvalidated node) num (erase e).
Proof. rewrite !erase_unfold. reflexivity. Qed.

Lemma erase_failures node os : forall num,
  Agg.failures (unvalidated node) num (erase_outcome <$> os)
  = map erase (Agg.failures node num os).
Proof.
  induction os as [|o os IH]; intros num; [reflexivity |].
  destruct o as [r | e | x]; cbn [fmap list_fmap erase_outcome Agg.failures map].
  - apply IH.
  - change (list_fmap _ _ erase_outcome os) with (erase_outcome <$> os).
    rewrite IH, erase_tag. reflexivity.
  - apply IH.
Qed.

Lemma erase_cut os : Agg.cut (erase_outcome <$> os) = Agg.cut os.
Proof.
  induction os as [|o os IH]; [reflexivity |].
  destruct o; simpl; [exact IH | exact IH | reflexivity].
Qed.

Lemma erase_returns os : Agg.returns (erase_outcome <$> os) = Agg.returns os.
Proof.
  induction os as [|o os IH]; [reflexivity |].
  destruct o; simpl; [by rewrite <- IH | exact IH | exact IH].
Qed.

Lemma erase_positional node wrap os :
  Agg.positional (unvalidated node) wrap (erase_outcome <$> os)
  = erase_outcome (Agg.positional node wrap os).
Proof.
  unfold Agg.positional. rewrite erase_cut, erase_failures, erase_returns.
  destruct (Agg.cut os); [reflexivity |].
  destruct (Agg.failures node 0 os); reflexivity.
Qed.

Lemma erase_raise_r {A : Type} node value rest :
  @raise_r A (unvalidated node) value rest
  = erase_outcome (raise_r node value rest).
Proof. unfold raise_r. destruct (Py.percent_r value); reflexivity. Qed.

Lemma erase_attempt cb dcb cb' dcb' c subval :
  (forall x, cb' (unvalidated c) x = erase_outcome (cb c x)) ->
  (forall x, dcb' (unvalidated c) x = erase_outcome (dcb c x)) ->
  Mapping.attempt cb' dcb' (unvalidated c) subval
  = erase_outcome (Mapping.attempt cb dcb c subval).
Proof.
  intros Hcb Hdcb. unfold Mapping.attempt. rewrite (unvalidated_unfold c).
  cbn [default_ name]. rewrite <- (unvalidated_unfold c).
  destruct subval as [x|]; [apply Hcb |].
  destruct (default_ c); [apply Hdcb | reflexivity].
Qed.

Lemma erase_add self exc :
  erase (Invalid.add self exc) = Invalid.add (erase self) (erase exc).
Proof.
  destruct self, exc. unfold Invalid.add, Invalid.set_parent. simpl.
  rewrite map_app. reflexivity.
Qed.

Lemma erase_set_pos e num :
  erase (Invalid.set_pos e num) = Invalid.set_pos (erase e) num.
Proof. destruct e; reflexivity. Qed.

Lemma erase_collect node error num e :
  collect (unvalidated node) (erase <$> error) num (erase e)
  = erase <$> collect node error num e.
Proof.
  destruct error as [error|].
  - change (Some (Invalid.add (erase error) (Invalid.set_pos (erase e) num))
            = Some (erase (Invalid.add error (Invalid.set_pos e num)))).
    by rewrite erase_add, erase_set_pos.
  - change (Some (Invalid.add (Invalid.new (unvalidated node) None)
                    (Invalid.set_pos (erase e) num))
            = Some (erase (Invalid.add (Invalid.new node None)
                             (Invalid.set_pos e num)))).
    by rewrite erase_add, erase_set_pos.
Qed.

Lemma erase_Mapping_loop cb dcb cb' dcb' node cs : forall num value result error,
  (forall c x, c ∈ cs -> cb' (unvalidated c) x = erase_outcome (cb c x)) ->
  (forall c x, c ∈ cs -> dcb' (unvalidated c) x = erase_outcome (dcb c x)) ->
  Mapping.loop cb' dcb' (unvalidated node) num (map unvalidated cs)
    (Mapping.mkLocals value result (erase <$> error))
  = match Mapping.loop cb dcb node num cs (Mapping.mkLocals value result error) with
    | Return st =>
        Return (Mapping.mkLocals (Mapping.l_value st) (Mapping.l_result st)
                  (erase <$> Mapping.l_error st))
    | Raise e => Raise (erase e)
    | Uncaught x => Uncaught x
    end.
Proof.
  induction cs as [|c cs IH]; intros num value result error Hcb Hdcb;
    [reflexivity |].
  cbn [map Mapping.loop Mapping.l_value Mapping.l_result Mapping.l_error].
  assert (Hname : name (unvalidated c) = name c)
    by (rewrite unvalidated_unfold; reflexivity).
  rewrite Hname.
  rewrite (erase_attempt cb dcb cb' dcb' c);
    [| intros x; apply Hcb; left | intros x; apply Hdcb; left].
  assert (Hcb' : forall c' x, c' ∈ cs -> cb' (unvalidated c') x = erase_outcome (cb c' x))
    by (intros c' x Hc'; apply Hcb; by right).
  assert (Hdcb' : forall c' x, c' ∈ cs -> dcb' (unvalidated c') x = erase_outcome (dcb c' x))
    by (intros c' x Hc'; apply Hdcb; by right).
  destruct (Mapping.attempt cb dcb c _) as [r | e | x]; cbn [erase_outcome].
  - apply IH; assumption.
  - rewrite erase_collect. apply IH; assumption.
  - reflexivity.
Qed.

Lemma erase_Mapping_impl unknown_keys cb dcb cb' dcb' node value :
  (forall c x, c ∈ nodes node -> cb' (unvalidated c) x = erase_outcome (cb c x)) ->
  (forall c x, c ∈ nodes node -> dcb' (unvalidated c) x = erase_outcome (dcb c x)) ->
  Mapping._impl unknown_keys cb' dcb' (unvalidated node) value
  = erase_outcome (Mapping._impl unknown_keys cb dcb node value).
Proof.
  intros Hcb Hdcb. unfold Mapping._impl, Mapping._validate.
  destruct (Py.dict value) as [d | msg |]; [| reflexivity | reflexivity].
  rewrite nodes_unvalidated.
  rewrite (erase_Mapping_loop cb dcb cb' dcb' node (nodes node) 0 d ∅ None Hcb Hdcb).
  destruct (Mapping.loop cb dcb node 0 (nodes node) _) as [st | e | x];
    [| reflexivity | reflexivity].
  unfold Mapping.finish.
  cbn [Mapping.l_value Mapping.l_result Mapping.l_error].
  destruct (match unknown_keys with raise => _ | _ => false end); [reflexivity |].
  destruct (Mapping.l_error st); reflexivity.
Qed.

Lemma erase_Tuple_validate node value :
  Tuple._validate (unvalidated node) value
  = erase_outcome (Tuple._validate node value).
Proof.
  unfold Tuple._validate. rewrite nodes_unvalidated, length_map.
  destruct (negb (Py.has___iter__ value)); [apply erase_raise_r |].
  destruct (Py.len value); [| reflexivity].
  destruct (negb _); [| destruct (Py.to_list value); reflexivity].
  destruct (Py.str value); reflexivity.
Qed.

Lemma erase_Sequence_validate accept_scalar node value :
  Sequence._validate accept_scalar (unvalidated node) value
  = erase_outcome (Sequence._validate accept_scalar node value).
Proof.
  unfold Sequence._validate.
  destruct (Py.has___iter__ value && negb (Py.has_get value)).
  { destruct (Py.to_list value); reflexivity. }
  destruct accept_scalar; [reflexivity | apply erase_raise_r].
Qed.

Lemma erase_zip_with cb cb' cs : forall items : list object,
  (forall c x, c ∈ cs -> cb' (unvalidated c) x = erase_outcome (cb c x)) ->
  zip_with cb' (map unvalidated cs) items
  = erase_outcome <$> (zip_with cb cs items : list (outcome object)).
Proof.
  induction cs as [|c cs IH]; intros items Hcb; [reflexivity |].
  destruct items as [|x items]; [reflexivity |].
  cbn [map zip_with fmap list_fmap]. f_equal; [apply Hcb; left |].
  apply IH. intros c' y Hc'. apply Hcb. by right.
Qed.

(** X22.  Outbound conversion never consults a validator, at any depth: the
    schema without its validators serializes every value as the schema
    itself does, with the same result, the same exception and the same
    failure (messages, positions, children), which refers to the nodes
    without validators. *)
Theorem serialize_ignores_validators node : forall value,
  SchemaNode.serialize (unvalidated node) value
  = erase_outcome (SchemaNode.serialize node value).
Proof.
  induction node as [t check default nm ns IH] using SchemaNode_tree_ind.
  intros value. set (node := mkSchemaNode t check default nm ns) in *.
  rewrite Forall_forall in IH.
  assert (Hcb : forall c x, c ∈ nodes node ->
            SchemaNode.serialize (unvalidated c) x
            = erase_outcome (SchemaNode.serialize c x))
    by (intros c x Hc; exact (IH c Hc x)).
  rewrite !serialize_unfold.
  assert (Htyp : typ (unvalidated node) = t) by reflexivity.
  rewrite Htyp. cbn [typ node].
  destruct t as [unknown_keys | | accept_scalar | | | leaf].
  - unfold Mapping.serialize.
    apply (erase_Mapping_impl unknown_keys
             (fun subnode subval => SchemaNode.serialize subnode subval)
             (fun subnode default => SchemaNode.serialize subnode default)
             (fun subnode subval => SchemaNode.serialize subnode subval)
             (fun subnode default => SchemaNode.serialize subnode default)
             node value); exact Hcb.
  - unfold Tuple.serialize. rewrite !Tuple_impl_spec, erase_Tuple_validate.
    destruct (Tuple._validate node value) as [items | e | x];
      [| reflexivity | reflexivity].
    cbn [erase_outcome]. rewrite <- erase_positional. f_equal.
    apply (erase_zip_with
             (fun subnode subval => SchemaNode.serialize subnode subval)
             (fun subnode subval => SchemaNode.serialize subnode subval)
             ns items Hcb).
  - unfold Sequence.serialize. destruct ns as [|template rest] eqn:Hns.
    + unfold Sequence._impl. rewrite erase_Sequence_validate.
      destruct (Sequence._validate accept_scalar node value) as [items | e | x];
        [| reflexivity | reflexivity].
      destruct items; reflexivity.
    + rewrite (Sequence_impl_spec _ node template rest eq_refl).
      rewrite (Sequence_impl_spec _ (unvalidated node) (unvalidated template)
                 (map unvalidated rest) eq_refl).
      rewrite erase_Sequence_validate.
      destruct (Sequence._validate accept_scalar node value) as [items | e | x];
        [| reflexivity | reflexivity].
      cbn [erase_outcome]. rewrite <- erase_positional. f_equal.
      change (map (fun subval => SchemaNode.serialize template subval) items)
        with ((fun subval => SchemaNode.serialize template subval) <$> items).
      rewrite <- list_fmap_compose. apply list_fmap_ext.
      intros _ x _. apply Hcb. left.
  - unfold Integer.serialize. destruct (Py.int value); [reflexivity |].
    apply erase_raise_r.
  - reflexivity.
  - destruct (leaf_serialize leaf value); reflexivity.
Qed.
